(** * Deep Dependency Graph model of jaeger-ui: a shallow embedding

    Sources embedded here (packages/jaeger-ui/src/model/ddg):
    - [PathElem.tsx]: the [PathElem] class;
    - [transformDdgData.tsx]: [transformDdgData], and the [GraphModel] class
      that follows it in the same file;
    - [transformTracesToPaths.tsx]: the default export and its helpers.

    Conventions of the embedding.
    - JavaScript objects that are shared and mutated live in an arena: the
      array [paths] of the transform is the arena of [TDdgPath] objects, and
      the [PathElem] objects are held in [members] of their path.  A pointer
      to a [PathElem] is the pair [(memberOf, memberIdx)].
    - A [throw] is the [Throw] outcome of [Result].  Two further outcomes,
      [DanglingPointer] and [OutOfFuel], have no counterpart in the source;
      the theorems below show they do not occur on the inputs considered.
    - Strings are sequences of 8-bit code units; [<] and [>] on strings are
      the lexicographic order on code units, as in JavaScript.
    - A plain object used as a record of named values is the finite map of
      its own properties; where the source reads it with a key taken from
      the input, the names of the properties it inherits are a parameter
      of the embedding. *)

From Stdlib Require Import ZArith String Ascii List Lia Permutation.
From Stdlib Require Import DecimalString DecimalNat.
From stdpp Require Import base option list gmap strings sorting.

Local Open Scope string_scope.
Local Open Scope Z_scope.
Local Open Scope list_scope.

(** ** Outcomes of a call *)

Inductive Error : Set :=
| MissingFocalNode         (* 'A payload path lacked the focalNode' *)
| VisibilityIdxAlreadySet  (* 'Visibility Index cannot be changed once set' *)
| VisibilityIdxUnset       (* 'Visibility Index was never set for this PathElem' *)
| VertexWithoutPathElems   (* 'Vertex exists without pathElems' *)
| DisconnectedPathElem     (* 'Non-focal pathElem cannot be connected to graph' *)
| PathElemNotInModel       (* 'PathElem wasn't present in initial model' *)
| MalformedVisibilityToken (* decode of a token that is no encoding *)
| DanglingPointer          (* embedding only: a pointer outside the arena *)
| OutOfFuel.               (* embedding only: the loop bound was too small *)

Inductive Result (A : Type) : Type :=
| Ok (a : A)
| Throw (e : Error).
Arguments Ok {A} a.
Arguments Throw {A} e.

Definition bindR {A B} (r : Result A) (k : A -> Result B) : Result B :=
  match r with
  | Ok a => k a
  | Throw e => Throw e
  end.

Notation "'let*' x := r 'in' k" := (bindR r (fun x => k))
  (at level 10, x name, r at level 100, k at level 200, only parsing).
Notation "'let*' ' p := r 'in' k" := (bindR r (fun x => let 'p := x in k))
  (at level 10, p pattern, r at level 100, k at level 200, only parsing).

Definition is_Ok {A} (r : Result A) : Prop := exists a, r = Ok a.
Definition throws {A} (r : Result A) : Prop := exists e, r = Throw e.

(** [arr.forEach(f)] where [f] may throw: the state is threaded left to
    right and the first [throw] aborts the iteration. *)
Fixpoint forEachR {A S} (f : A -> S -> Result S) (l : list A) (s : S) : Result S :=
  match l with
  | [] => Ok s
  | x :: l' => let* s' := f x s in forEachR f l' s'
  end.


(** [arr.filter(f)] where [f] may throw. *)
Fixpoint filterR {A} (f : A -> Result bool) (l : list A) : Result (list A) :=
  match l with
  | [] => Ok []
  | x :: l' =>
      let* keep := f x in
      let* rest := filterR f l' in
      Ok (if keep : bool then x :: rest else rest)
  end.

(** ** types.tsx *)

Record TDdgPayloadEntry : Set := mkEntry {
  operation : string;
  service : string;
}.

Abbreviation TDdgPayload := (list (list TDdgPayloadEntry)).

(** A pointer to a [TDdgOperation]: the name of its service in the service
    map, and its own name in [operations] of that service. *)
Record OperationRef : Set := mkOpRef {
  op_service : string;
  op_name : string;
}.

(** ** PathElem.tsx *)

Module PathElem.

Record t : Set := mk {
  memberIdx : nat;
  memberOf : nat;                 (* pointer to the owning [TDdgPath] *)
  operation : OperationRef;
  _visibilityIdx : option nat;    (* private, optional *)
}.

(** [constructor({ path, operation, memberIdx })] *)
Definition new (path : nat) (op : OperationRef) (idx : nat) : t :=
  {| memberIdx := idx; memberOf := path; operation := op; _visibilityIdx := None |}.

(** [set visibilityIdx(visibilityIdx)]: the object after the call, and
    whether the call returned or threw. *)
Definition set_visibilityIdx (visibilityIdx : nat) (this : t) : t * Result unit :=
  match _visibilityIdx this with
  | None =>
      ({| memberIdx := memberIdx this; memberOf := memberOf this;
          operation := operation this; _visibilityIdx := Some visibilityIdx |},
       Ok tt)
  | Some _ => (this, Throw VisibilityIdxAlreadySet)
  end.

(** [get visibilityIdx()] *)
Definition visibilityIdx (this : t) : Result nat :=
  match _visibilityIdx this with
  | None => Throw VisibilityIdxUnset
  | Some i => Ok i
  end.

End PathElem.

Abbreviation PathElemRef := (nat * nat)%type.

Definition ref_of (e : PathElem.t) : PathElemRef :=
  (PathElem.memberOf e, PathElem.memberIdx e).

Record TDdgPath : Set := mkPath {
  focalIdx : Z;
  members : list PathElem.t;
}.

(** The arena: [paths !! p] is the path a [memberOf] pointer [p] names. *)
Definition deref (paths : list TDdgPath) (r : PathElemRef) : option PathElem.t :=
  path ← paths !! r.1; members path !! r.2.

(** [get distance()]: [this.memberIdx - this.memberOf.focalIdx] *)
Definition distance (paths : list TDdgPath) (r : PathElemRef) : option Z :=
  path ← paths !! r.1; Some (Z.of_nat r.2 - focalIdx path).

(** [get focalSideNeighbor()]: [null] at distance 0, otherwise
    [members[memberIdx - distance / Math.abs(distance)]], which is
    [undefined] when that index is outside the array. Both are [None]. *)
Definition focalSideNeighbor (paths : list TDdgPath) (r : PathElemRef) : option PathElemRef :=
  path ← paths !! r.1;
  let d := Z.of_nat r.2 - focalIdx path in
  if decide (d = 0) then None
  else
    let i := Z.of_nat r.2 - Z.sgn d in
    if decide (0 <= i) then ref_of <$> members path !! Z.to_nat i else None.

(** ** transformDdgData.tsx: [transformDdgData] *)

Record FocalSelector : Set := mkFocal {
  focalService : string;
  focalOperation : option string;   (* [operation?: string] *)
}.

(** A [Map] whose iteration order matters: the entries in insertion order.
    [set] on a key that is present replaces the value in place. *)
Module JsMap.
Section ops.
Context {K V : Type} `{EqDecision K}.

Fixpoint get (k : K) (m : list (K * V)) : option V :=
    match m with
    | [] => None
    | (k', v) :: m' => if decide (k = k') then Some v else get k m'
    end.

Fixpoint set (k : K) (v : V) (m : list (K * V)) : list (K * V) :=
    match m with
    | [] => [(k, v)]
    | (k', v') :: m' =>
        if decide (k = k') then (k, v) :: m' else (k', v') :: set k v m'
    end.

  (** [Array.from(m.values())], also the order [m.forEach] visits. *)
Definition values (m : list (K * V)) : list V := m.*2.
End ops.
End JsMap.

Abbreviation TDdgServiceMap := (gmap string (gmap string (list PathElemRef))).
Abbreviation TDdgDistanceToPathElems := (gmap Z (list PathElemRef)).
Abbreviation TDdgVisIdxToPathElem := (list (nat * PathElemRef)).

Module DdgModel.
Record t : Type := mk {
  distanceToPathElems : TDdgDistanceToPathElems;
  paths : list TDdgPath;
  services : TDdgServiceMap;
  visIdxToPathElem : TDdgVisIdxToPathElem;
}.
End DdgModel.
Abbreviation TDdgModel := DdgModel.t.

(** [`${service}\v${operation}`] *)
Definition stringifyEntry (e : TDdgPayloadEntry) : string :=
  service e +:+ String "011"%char (operation e).

(** [a.map(stringifyEntry).join()]; the default separator of [join] is a
    comma.  The source caches this value per array; the cache changes no
    result. *)
Definition compareValue (a : list TDdgPayloadEntry) : string :=
  String.concat "," (stringifyEntry <$> a).

(** The comparator passed to [sort]. *)
Definition comparePaths (a b : list TDdgPayloadEntry) : Z :=
  let aCompareValue := compareValue a in
  let bCompareValue := compareValue b in
  if String.ltb bCompareValue aCompareValue then 1
  else if String.ltb aCompareValue bCompareValue then -1
  else 0.

(** [Array.prototype.sort(comparefn)] is stable, and with a consistent
    comparator its result is the one stable arrangement in comparator
    order; insertion from the right computes it. *)
Fixpoint sortInsert {A} (comparefn : A -> A -> Z) (x : A) (l : list A) : list A :=
  match l with
  | [] => [x]
  | y :: l' =>
      if decide (0 < comparefn x y) then y :: sortInsert comparefn x l'
      else x :: y :: l'
  end.

Fixpoint sort {A} (comparefn : A -> A -> Z) (l : list A) : list A :=
  match l with
  | [] => []
  | x :: l' => sortInsert comparefn x (sort comparefn l')
  end.

(** [serviceName === focalService &&
     (focalOperation == null || operationName === focalOperation)] *)
Definition isFocal (focal : FocalSelector) (e : TDdgPayloadEntry) : bool :=
  bool_decide (service e = focalService focal)
  && match focalOperation focal with
     | None => true
     | Some op => bool_decide (operation e = op)
     end.

(** Get or create the service and its operation, then
    [operation.pathElems.push(pathElem)]. *)
Definition registerPathElem (serviceName operationName : string) (r : PathElemRef)
    (serviceMap : TDdgServiceMap) : TDdgServiceMap :=
  let operations := default ∅ (serviceMap !! serviceName) in
  let pathElems := default [] (operations !! operationName) in
  <[serviceName := <[operationName := pathElems ++ [r]]> operations]> serviceMap.

(** [payloadPath.map(({ operation, service }, i) => ...)] for the path at
    position [p] of the arena; [fIdx] is [path.focalIdx] so far. *)
Fixpoint mapMembers (focal : FocalSelector) (p i : nat) (payloadPath : list TDdgPayloadEntry)
    (fIdx : Z) (serviceMap : TDdgServiceMap) : list PathElem.t * Z * TDdgServiceMap :=
  match payloadPath with
  | [] => ([], fIdx, serviceMap)
  | e :: rest =>
      let serviceMap' := registerPathElem (service e) (operation e) (p, i) serviceMap in
      let fIdx' :=
        if bool_decide (fIdx = -1) && isFocal focal e then Z.of_nat i else fIdx in
      let pathElem := PathElem.new p (mkOpRef (service e) (operation e)) i in
      let '(ms, f, sm) := mapMembers focal p (S i) rest fIdx' serviceMap' in
      (pathElem :: ms, f, sm)
  end.

(** The body of [path.members.forEach(member => ...)]; [member.distance]
    reads [focalIdx] of the path under construction. *)
Definition trackDistance (path_focalIdx : Z) (dm : TDdgDistanceToPathElems)
    (member : PathElem.t) : TDdgDistanceToPathElems :=
  let d := Z.of_nat (PathElem.memberIdx member) - path_focalIdx in
  match dm !! d with
  | Some elems => <[d := elems ++ [ref_of member]]> dm
  | None => <[d := [ref_of member]]> dm
  end.

Abbreviation ParseState :=
  (list TDdgPath * TDdgServiceMap * TDdgDistanceToPathElems)%type.

(** The callback of [.map(payloadPath => ...)] over the sorted payload. *)
Definition parsePath (focal : FocalSelector) (payloadPath : list TDdgPayloadEntry)
    (st : ParseState) : Result ParseState :=
  let '(paths, serviceMap, dm) := st in
  let '(ms, f, serviceMap') :=
    mapMembers focal (length paths) 0 payloadPath (-1) serviceMap in
  if decide (f = -1) then Throw MissingFocalNode
  else Ok (paths ++ [mkPath f ms], serviceMap', foldl (trackDistance f) dm ms).

Record AssignState : Type := mkAssign {
  as_paths : list TDdgPath;
  as_visIdx : nat;
  as_visIdxToPathElem : TDdgVisIdxToPathElem;
}.

(** Write a [PathElem] back to its slot of the arena. *)
Definition store (paths : list TDdgPath) (r : PathElemRef) (e : PathElem.t) : list TDdgPath :=
  alter (fun path => mkPath (focalIdx path) (<[r.2 := e]> (members path))) r.1 paths.

(** [function setIdx(pathElem)] *)
Definition setIdx (pathElem : PathElemRef) (st : AssignState) : Result AssignState :=
  let visIdxToPathElem' := JsMap.set (as_visIdx st) pathElem (as_visIdxToPathElem st) in
  match deref (as_paths st) pathElem with
  | None => Throw DanglingPointer
  | Some e =>
      let '(e', outcome) := PathElem.set_visibilityIdx (as_visIdx st) e in
      let* _ := outcome in
      Ok (mkAssign (store (as_paths st) pathElem e') (S (as_visIdx st)) visIdxToPathElem')
  end.

(** The [do ... while (downstreamElems || upstreamElems)] loop; an array
    is truthy even when empty. *)
Fixpoint assignLoop (fuel : nat) (dm : TDdgDistanceToPathElems) (downstream upstream : Z)
    (st : AssignState) : Result AssignState :=
  match fuel with
  | O => Throw OutOfFuel
  | S fuel' =>
      let downstreamElems := dm !! downstream in
      let upstreamElems := dm !! upstream in
      let* st1 := match downstreamElems with
                  | Some elems => forEachR setIdx elems st
                  | None => Ok st
                  end in
      let* st2 := match upstreamElems with
                  | Some elems => forEachR setIdx elems st1
                  | None => Ok st1
                  end in
      if bool_decide (is_Some downstreamElems) || bool_decide (is_Some upstreamElems)
      then assignLoop fuel' dm (downstream - 1) (upstream + 1) st2
      else Ok st2
  end.

Definition transformDdgData (payload : TDdgPayload) (focal : FocalSelector) : Result TDdgModel :=
  let* '(paths, serviceMap, dm) :=
    forEachR (parsePath focal) (sort comparePaths payload) ([], ∅, ∅) in
  let* st := assignLoop (S (length (concat payload))) dm 0 1 (mkAssign paths 0 []) in
  Ok {| DdgModel.distanceToPathElems := dm;
        DdgModel.paths := as_paths st;
        DdgModel.services := serviceMap;
        DdgModel.visIdxToPathElem := as_visIdxToPathElem st |}.

(** ** JavaScript string operations used by [GraphModel] *)

Module JsString.

(** [s.split(sep)] for a one-character separator: never empty, and two
    adjacent separators give an empty piece. *)
Fixpoint split (sep : ascii) (s : string) : list string :=
  match s with
  | EmptyString => [""]
  | String c s' =>
      if decide (c = sep) then "" :: split sep s'
      else match split sep s' with
           | [] => [String c ""]
           | t :: ts => String c t :: ts
           end
  end.

(** [s.includes(t)] *)
Fixpoint includes (s t : string) : bool :=
  String.prefix t s
  || match s with
     | EmptyString => false
     | String _ s' => includes s' t
     end.

(** White space and line terminators among the code units below 256. *)
Definition isWhiteSpace (c : ascii) : bool :=
  let n := nat_of_ascii c in
  bool_decide (n = 9 ∨ n = 10 ∨ n = 11 ∨ n = 12 ∨ n = 13 ∨ n = 32 ∨ n = 160)%nat.

Fixpoint trimStart (s : string) : string :=
  match s with
  | EmptyString => ""
  | String c s' => if isWhiteSpace c then trimStart s' else s
  end.

Fixpoint trimEnd (s : string) : string :=
  match s with
  | EmptyString => ""
  | String c s' =>
      match trimEnd s' with
      | EmptyString => if isWhiteSpace c then "" else String c ""
      | t => String c t
      end
  end.

(** [s.trim()] *)
Definition trim (s : string) : string := trimEnd (trimStart s).

(** Lower case of one code unit below 256: A-Z, and the Latin-1 capitals
    U+00C0-U+00DE except the multiplication sign U+00D7. *)
Definition lowerChar (c : ascii) : ascii :=
  let n := nat_of_ascii c in
  if bool_decide (65 ≤ n ≤ 90 ∨ (192 ≤ n ≤ 222 ∧ n ≠ 215))%nat
  then ascii_of_nat (n + 32) else c.

(** [s.toLowerCase()] *)
Fixpoint toLowerCase (s : string) : string :=
  match s with
  | EmptyString => ""
  | String c s' => String (lowerChar c) (toLowerCase s')
  end.

End JsString.

(** A [Set] in insertion order: [s.add(x)]. *)
Definition setAdd {A} `{EqDecision A} (x : A) (s : list A) : list A :=
  if decide (x ∈ s) then s else s ++ [x].

(** [new Set(iterable)] *)
Definition setFrom {A} `{EqDecision A} (l : list A) : list A :=
  foldl (fun s x => setAdd x s) [] l.

(** ** transformDdgData.tsx: the [GraphModel] class *)

Inductive EDdgDensity : Set :=
| ExternalVsInternal
| MostConcise
| OnePerLevel
| PreventPathEntanglement
| UpstreamVsDownstream.

Module Vertex.
(** [TDdgVertex] *)
Record t : Set := mk {
  key : string;
  isFocalNode : bool;
  service : string;
  operation : option string;   (* [null] is [None] *)
}.
Global Instance vertex_eq_dec : EqDecision t.
Proof. solve_decision. Defined.
Global Instance vertex_countable : Countable t.
Proof.
  refine (inj_countable'
    (fun v => (key v, isFocalNode v, service v, operation v))
    (fun '(k, f, s, o) => mk k f s o) _).
  by intros [].
Defined.
End Vertex.

Module Edge.
(** [TEdge] of plexus, as the constructor builds it: [{ from, to }] *)
Record t : Set := mk {
  from : string;
  to : string;
}.
Global Instance edge_eq_dec : EqDecision t.
Proof. solve_decision. Defined.
End Edge.

Module GraphModel.

Record t {EdgeId : Type} `{Countable EdgeId} : Type := mk {
  arena : list TDdgPath;     (* the objects the [PathElem] pointers name *)
  density : EDdgDensity;
  distanceToPathElems : TDdgDistanceToPathElems;
  pathElemToEdge : gmap PathElemRef Edge.t;
  pathElemToVertex : gmap PathElemRef Vertex.t;
  showOp : bool;
  vertexToPathElems : gmap Vertex.t (list PathElemRef);
  vertices : gmap string Vertex.t;
  visIdxToPathElem : list PathElemRef;
  edgesById : gmap EdgeId Edge.t;   (* local to the constructor *)
}.
Arguments t EdgeId {_ _}.

Section methods.
  (** Imported by the class and absent from the sources: the edge
      identifier [getEdgeId(from, to)], the hasher
      [getPathElemHasher] (bound to the instance, it reads [density]
      and [showOp]), and [decode] of the visibility codec. *)
Context {EdgeId : Type} `{Countable EdgeId}.
Variable getEdgeId : string -> string -> EdgeId.
Variable getPathElemHasher :
    EDdgDensity -> bool -> list TDdgPath -> PathElemRef -> string.
Variable decode : string -> Result (list nat).

  (** The instance with the maps the constructor fills replaced; the
      other fields are set once. *)
Definition withMaps (this : t EdgeId)
      (pathElemToEdge' : gmap PathElemRef Edge.t)
      (pathElemToVertex' : gmap PathElemRef Vertex.t)
      (vertexToPathElems' : gmap Vertex.t (list PathElemRef))
      (vertices' : gmap string Vertex.t)
      (edgesById' : gmap EdgeId Edge.t) : t EdgeId :=
    {| arena := arena this; density := density this;
       distanceToPathElems := distanceToPathElems this;
       pathElemToEdge := pathElemToEdge';
       pathElemToVertex := pathElemToVertex';
       showOp := showOp this;
       vertexToPathElems := vertexToPathElems';
       vertices := vertices';
       visIdxToPathElem := visIdxToPathElem this;
       edgesById := edgesById' |}.

  (** First part of the callback of [ddgModel.visIdxToPathElem.forEach]
      in the constructor: "If there is a compatible vertex for this
      pathElem, use it, else, make a new vertex".  Gives the vertex and the
      maps [vertices] and [vertexToPathElems] after it. *)
Definition vertexFor (this : t EdgeId) (pathElem : PathElemRef) (elem : PathElem.t)
      (dist : Z)
      : Result (Vertex.t * gmap string Vertex.t * gmap Vertex.t (list PathElemRef)) :=
    let key := getPathElemHasher (density this) (showOp this) (arena this) pathElem in
    match vertices this !! key with
    | None =>
        let isFocalNode := bool_decide (dist = 0) in
        let vertex :=
          {| Vertex.key := key;
             Vertex.isFocalNode := isFocalNode;
             Vertex.service := op_service (PathElem.operation elem);
             Vertex.operation :=
               if showOp this || isFocalNode
               then Some (op_name (PathElem.operation elem)) else None |} in
        Ok (vertex, <[key := vertex]> (vertices this),
            <[vertex := [pathElem]]> (vertexToPathElems this))
    | Some vertex =>
        match vertexToPathElems this !! vertex with
        | None => Throw VertexWithoutPathElems
        | Some pathElemsForVertex =>
            Ok (vertex, vertices this,
                <[vertex := setAdd pathElem pathElemsForVertex]>
                  (vertexToPathElems this))
        end
    end.

  (** Last part of the callback: "Create edge connecting current vertex
      to connectedVertex".  Gives the edge recorded for the element and
      [edgesById] after it. *)
Definition edgeFor (this : t EdgeId) (dist : Z) (vertex connectedVertex : Vertex.t)
      : Edge.t * gmap EdgeId Edge.t :=
    let from :=
      if decide (0 < dist) then Vertex.key connectedVertex else Vertex.key vertex in
    let to :=
      if decide (0 < dist) then Vertex.key vertex else Vertex.key connectedVertex in
    let edgeId := getEdgeId from to in
    match edgesById this !! edgeId with
    | None =>
        let edge := {| Edge.from := from; Edge.to := to |} in
        (edge, <[edgeId := edge]> (edgesById this))
    | Some existingEdge => (existingEdge, edgesById this)
    end.

  (** The callback of [ddgModel.visIdxToPathElem.forEach] in the
      constructor. *)
Definition addPathElem (pathElem : PathElemRef) (this : t EdgeId) : Result (t EdgeId) :=
    match deref (arena this) pathElem, distance (arena this) pathElem with
    | Some elem, Some dist =>
        let* '(vertex, vertices', vertexToPathElems') :=
          vertexFor this pathElem elem dist in
        let pathElemToVertex' := <[pathElem := vertex]> (pathElemToVertex this) in
        match focalSideNeighbor (arena this) pathElem with
        | None =>
            Ok (withMaps this (pathElemToEdge this) pathElemToVertex'
                  vertexToPathElems' vertices' (edgesById this))
        | Some connectedElem =>
            match pathElemToVertex' !! connectedElem with
            | None => Throw DisconnectedPathElem
            | Some connectedVertex =>
                let '(edge, edgesById') := edgeFor this dist vertex connectedVertex in
                Ok (withMaps this (<[pathElem := edge]> (pathElemToEdge this))
                      pathElemToVertex' vertexToPathElems' vertices' edgesById')
            end
        end
    | _, _ => Throw DanglingPointer
    end.

  (** [constructor({ ddgModel, density, showOp })]; [paths] is the arena
      the elements of [ddgModel.visIdxToPathElem] point into.  The
      constructor reads [ddgModel.visIdxToPathElem] as an array ([slice],
      [forEach]), as types.tsx declares it: [ddgVisIdxToPathElem] is that
      array.  [makeGraph(ddgModel, showOp, density)] is
      [new GraphModel({ ddgModel, density, showOp })], memoised. *)
Definition new (paths : list TDdgPath) (ddgDistanceToPathElems : TDdgDistanceToPathElems)
      (ddgVisIdxToPathElem : list PathElemRef) (density : EDdgDensity) (showOp : bool)
      : Result (t EdgeId) :=
    forEachR addPathElem ddgVisIdxToPathElem
      {| arena := paths; density := density;
         distanceToPathElems := ddgDistanceToPathElems;
         pathElemToEdge := ∅; pathElemToVertex := ∅; showOp := showOp;
         vertexToPathElems := ∅; vertices := ∅;
         visIdxToPathElem := ddgVisIdxToPathElem; edgesById := ∅ |}.

Definition getDefaultVisiblePathElems (this : t EdgeId) : list PathElemRef :=
    default [] (distanceToPathElems this !! (-2))
    ++ default [] (distanceToPathElems this !! (-1))
    ++ default [] (distanceToPathElems this !! 0)
    ++ default [] (distanceToPathElems this !! 1)
    ++ default [] (distanceToPathElems this !! 2).

  (** [decode(visEncoding).map(visIdx => this.visIdxToPathElem[visIdx])
       .filter(Boolean)] *)
Definition getVisiblePathElems (this : t EdgeId) (visEncoding : option string)
      : Result (list PathElemRef) :=
    match visEncoding with
    | None => Ok (getDefaultVisiblePathElems this)
    | Some enc =>
        let* indices := decode enc in
        Ok (omap (fun visIdx : nat => visIdxToPathElem this !! visIdx) indices)
    end.

  (** The callback of [pathElems.forEach] in [getVisible], on the pair
      of sets [(edges, vertices)]. *)
Definition collectVisible (this : t EdgeId) (pathElem : PathElemRef)
      (acc : list Edge.t * list Vertex.t) : Result (list Edge.t * list Vertex.t) :=
    let edges :=
      match pathElemToEdge this !! pathElem with
      | Some edge => setAdd edge acc.1
      | None => acc.1
      end in
    match pathElemToVertex this !! pathElem with
    | Some vertex => Ok (edges, setAdd vertex acc.2)
    | None => Throw PathElemNotInModel
    end.

  (** [getVisible(visEncoding)]; the memoisation caches results of a
      function of [visEncoding] alone. *)
Definition getVisible (this : t EdgeId) (visEncoding : option string)
      : Result (list Edge.t * list Vertex.t) :=
    let* pathElems := getVisiblePathElems this visEncoding in
    forEachR (collectVisible this) pathElems ([], []).

  (** The inner [for] loop of [getVisibleUiFindMatches]:
      [svc.includes(t) || (op && op.includes(t))] for some token. *)
Definition matchesUiFind (uiFindArr : list string) (vertex : Vertex.t) : bool :=
    let svc := JsString.toLowerCase (Vertex.service vertex) in
    let op := JsString.toLowerCase <$> Vertex.operation vertex in
    existsb (fun token =>
      JsString.includes svc token
      || match op with
         | Some o => negb (String.eqb o "") && JsString.includes o token
         | None => false
         end) uiFindArr.

  (** [getVisibleUiFindMatches(uiFind, visEncoding)] *)
Definition getVisibleUiFindMatches (this : t EdgeId) (uiFind visEncoding : option string)
      : Result (list Vertex.t) :=
    match uiFind with
    | None => Ok []
    | Some "" => Ok []
    | Some uiFind =>
        let uiFindArr :=
          JsString.split " " (JsString.toLowerCase (JsString.trim uiFind)) in
        let* '(_, vertices) := getVisible this visEncoding in
        Ok (foldl (fun vertexSet vertex =>
                     if matchesUiFind uiFindArr vertex
                     then setAdd vertex vertexSet else vertexSet) [] vertices)
    end.


(** The callback of [filter] in [getVertexVisiblePathElems]:
    [visIndices ? visIndices.has(elem.visibilityIdx)
                : Math.abs(elem.distance) < 3] *)
Definition isVertexElemVisible (this : t EdgeId) (visIndices : option (list nat))
    (elem : PathElemRef) : Result bool :=
  match visIndices with
  | Some indices =>
      match deref (arena this) elem with
      | Some e => let* i := PathElem.visibilityIdx e in Ok (bool_decide (i ∈ indices))
      | None => Throw DanglingPointer
      end
  | None =>
      match distance (arena this) elem with
      | Some d => Ok (bool_decide (Z.abs d < 3))
      | None => Throw DanglingPointer
      end
  end.

(** [getVertexVisiblePathElems(vertexKey, visEncoding)]; [undefined] is
    [None].  The test [visEncoding ? ... : undefined] is on the truthiness
    of the string: the empty string counts as no encoding. *)
Definition getVertexVisiblePathElems (this : t EdgeId) (vertexKey : string)
    (visEncoding : option string) : Result (option (list PathElemRef)) :=
  match vertices this !! vertexKey with
  | Some vertex =>
      match vertexToPathElems this !! vertex with
      | Some pathElems =>
          if bool_decide (pathElems = []) then Ok None
          else
            let* visIndices :=
              match visEncoding with
              | Some enc =>
                  if bool_decide (enc = "") then Ok None
                  else let* indices := decode enc in Ok (Some (setFrom indices))
              | None => Ok None
              end in
            let* visible := filterR (isVertexElemVisible this visIndices) pathElems in
            Ok (Some visible)
      | None => Ok None
      end
  | None => Ok None
  end.

End methods.
End GraphModel.

(** ** The visibility codec *)

Module VisibilityCodec.

(** Modelled from the spec: the module [visibility-codec] ([encode],
    [decode]) is absent from the sources.  Spec 4.2: a reversible mapping
    between a set of non-negative indices and a string token, the empty
    set having a canonical empty token, built from sorted delta segments,
    and decoding an invalid token fails.  Here the token lists, in
    decimal and separated by commas, the least index and then the
    difference of each index to the one before it. *)

Definition decimal (n : nat) : string := NilEmpty.string_of_uint (Nat.to_uint n).

(** A non-empty string of decimal digits. *)
Definition parseDecimal (s : string) : option nat :=
  if decide (s = "") then None else Nat.of_uint <$> NilEmpty.uint_of_string s.

Fixpoint deltas (prev : nat) (sorted : list nat) : list nat :=
  match sorted with
  | [] => []
  | x :: rest => (x - prev)%nat :: deltas x rest
  end.

Fixpoint undeltas (prev : nat) (ds : list nat) : list nat :=
  match ds with
  | [] => []
  | d :: rest => (prev + d)%nat :: undeltas (prev + d)%nat rest
  end.

Definition encode (indices : list nat) : string :=
  String.concat "," (decimal <$> deltas 0 (merge_sort Nat.le (remove_dups indices))).

Definition decode (token : string) : Result (list nat) :=
  if decide (token = "") then Ok []
  else match mapM parseDecimal (JsString.split "," token) with
       | Some ds => Ok (undeltas 0 ds)
       | None => Throw MalformedVisibilityToken
       end.

(** The contract of the spec on sets: [encode(indices: set<int>)] and
    [decode(token) -> set<int>]. *)
Definition encodeSet (indices : gset nat) : string := encode (elements indices).

Definition decodeSet (token : string) : Result (gset nat) :=
  let* l := decode token in Ok (list_to_set l).

End VisibilityCodec.

(** ** transformTracesToPaths.tsx *)

Module TransformTracesToPaths.

Inductive TraceError : Set :=
| AncestorNotFound (id traceID : string)
    (* `Ancestor spanID ${id} not found in trace ${traceID}` *)
| UndefinedProcess.
    (* the TypeError of [trace.processes[span.processID].serviceName] when
       [trace.processes[span.processID]] is [undefined] *)

(** [arr.map(f)] and [arr.forEach(f)] where [f] may throw; a [throw] is
    the left summand. *)
Fixpoint mapT {A B} (f : A -> TraceError + B) (l : list A) : TraceError + list B :=
  match l with
  | [] => inr []
  | x :: l' =>
      match f x with
      | inl err => inl err
      | inr y => match mapT f l' with
                 | inl err => inl err
                 | inr ys => inr (y :: ys)
                 end
      end
  end.

Fixpoint forEachT {A S} (f : A -> S -> TraceError + S) (l : list A) (s : S)
    : TraceError + S :=
  match l with
  | [] => inr s
  | x :: l' => match f x s with
               | inl err => inl err
               | inr s' => forEachT f l' s'
               end
  end.

(** [TDdgPayloadEntry] as [convertSpan] fills it: [service] is declared a
    string and holds what [.serviceName] gave, which is [undefined]
    ([None]) when the property read from [trace.processes] is not a
    process. *)
Record TDdgPayloadEntry : Set := mkEntry {
  service : option string;
  operation : string;
}.

(** One element of [dependencies]: [{ path, attributes: [{ key, value }] }] *)
Record TDdgPayloadPath : Set := mkPayloadPath {
  path : list TDdgPayloadEntry;
  attributes : list (string * string);
}.

(** The loop of [hasFocal]: is there an [i] with
    [focalService === path[i].service &&
     (focalOperation === undefined || focalOperation === path[i].operation)]. *)
Fixpoint hasFocal (path : list TDdgPayloadEntry) (focalService : string)
    (focalOperation : option string) : bool :=
  match path with
  | [] => false
  | entry :: rest =>
      if bool_decide (Some focalService = service entry)
         && match focalOperation with
            | None => true
            | Some op => bool_decide (op = operation entry)
            end
      then true
      else hasFocal rest focalService focalOperation
  end.

Section transform.
(** [Span] and [Trace] of types/trace and [spanAncestorIds] of
    utils/span-ancestor-ids are absent from the sources.  A span is any
    type with the four fields read here; [spanAncestorIds] is any function
    from a span to a list of span ids. *)
Context {Span : Type}.
Variable spanID : Span -> string.
Variable processID : Span -> string.
Variable operationName : Span -> string.
Variable hasChildren : Span -> bool.
Variable spanAncestorIds : Span -> list string.

(** [trace.processes] is a plain object, and [trace.processes[id]] also
    finds the properties an object inherits from its prototype
    ([constructor], [toString], ...).  [inheritedProperty] tells their
    names; none of them is a process: its value has no [serviceName]. *)
Variable inheritedProperty : string -> bool.

(** The fields of a [Trace] read here; [processes] holds the own
    properties of [trace.processes], a process being its [serviceName]. *)
Record Trace : Type := mkTrace {
  traceID : string;
  spans : list Span;
  processes : gmap string string;
}.

(** [convertSpan(span, trace)].  [trace.processes[span.processID]] is the
    process of that id when the trace has one; otherwise an inherited
    property, whose [serviceName] is [undefined]; otherwise [undefined],
    and reading [.serviceName] of it throws. *)
Definition convertSpan (span : Span) (trace : Trace) : TraceError + TDdgPayloadEntry :=
  match processes trace !! processID span with
  | Some serviceName => inr (mkEntry (Some serviceName) (operationName span))
  | None =>
      if inheritedProperty (processID span)
      then inr (mkEntry None (operationName span))
      else inl UndefinedProcess
  end.

(** The [spanMap] once [data.spans.filter] has run: every span under its
    [spanID], a later span replacing an earlier one of the same id. *)
Definition spanMapOf (data : Trace) : gmap string Span :=
  foldl (fun spanMap span => <[spanID span := span]> spanMap) ∅ (spans data).

(** The [path] of a leaf: its ancestors converted, then the leaf. *)
Definition pathOfLeaf (data : Trace) (spanMap : gmap string Span) (leaf : Span)
    : TraceError + list TDdgPayloadEntry :=
  match mapT (fun id => match spanMap !! id with
                        | Some span => convertSpan span data
                        | None => inl (AncestorNotFound id (traceID data))
                        end) (spanAncestorIds leaf) with
  | inl err => inl err
  | inr ancestors =>
      match convertSpan leaf data with
      | inl err => inl err
      | inr entry => inr (ancestors ++ [entry])
      end
  end.

(** The callback of [.forEach(leaf => ...)]. *)
Definition addLeaf (data : Trace) (spanMap : gmap string Span)
    (focalService : string) (focalOperation : option string)
    (leaf : Span) (dependencies : list TDdgPayloadPath)
    : TraceError + list TDdgPayloadPath :=
  match pathOfLeaf data spanMap leaf with
  | inl err => inl err
  | inr path =>
      inr (if hasFocal path focalService focalOperation
           then dependencies
                ++ [mkPayloadPath path [("exemplar_trace_id", traceID data)]]
           else dependencies)
  end.

(** The callback of [Object.values(traces).forEach(({ data }) => ...)];
    a fetched trace is its optional [data]. *)
Definition addTrace (focalService : string) (focalOperation : option string)
    (fetched : option Trace) (dependencies : list TDdgPayloadPath)
    : TraceError + list TDdgPayloadPath :=
  match fetched with
  | None => inr dependencies
  | Some data =>
      let spanMap := spanMapOf data in
      let leaves := filter (fun span => hasChildren span = false) (spans data) in
      forEachT (addLeaf data spanMap focalService focalOperation) leaves dependencies
  end.

(** The default export: [traces] is the record of fetched traces as the
    list of its entries in the order of [Object.values]; the result is
    [dependencies] of the payload returned. *)
Definition transformTracesToPaths (traces : list (string * option Trace))
    (focalService : string) (focalOperation : option string)
    : TraceError + list TDdgPayloadPath :=
  forEachT (addTrace focalService focalOperation) traces.*2 [].

End transform.
End TransformTracesToPaths.

(** ** Notions used to state the properties *)

(** The first offset of [payloadPath], counted from [i], whose entry
    matches the focal selector. *)
Fixpoint focalFrom (focal : FocalSelector) (i : nat) (payloadPath : list TDdgPayloadEntry)
    : option nat :=
  match payloadPath with
  | [] => None
  | e :: rest => if isFocal focal e then Some i else focalFrom focal (S i) rest
  end.

Definition hasFocal (focal : FocalSelector) (payloadPath : list TDdgPayloadEntry) : Prop :=
  exists e, e ∈ payloadPath /\ isFocal focal e = true.

Definition opRefOf (e : TDdgPayloadEntry) : OperationRef :=
  mkOpRef (service e) (operation e).

(** The elements [new PathElem({ path: p, operation, memberIdx })] of one
    payload path, offsets counted from [i]. *)
Fixpoint membersOf (p i : nat) (payloadPath : list TDdgPayloadEntry) : list PathElem.t :=
  match payloadPath with
  | [] => []
  | e :: rest => PathElem.new p (opRefOf e) i :: membersOf p (S i) rest
  end.

(** The arena right after parsing: no visibility index is set yet. *)
Fixpoint parsedFrom (focal : FocalSelector) (p : nat) (sorted : TDdgPayload) : list TDdgPath :=
  match sorted with
  | [] => []
  | es :: rest =>
      mkPath (from_option Z.of_nat (-1) (focalFrom focal 0 es)) (membersOf p 0 es)
      :: parsedFrom focal (S p) rest
  end.

(** An arena with the visibility indices forgotten. *)
Definition eraseElem (e : PathElem.t) : PathElem.t :=
  PathElem.new (PathElem.memberOf e) (PathElem.operation e) (PathElem.memberIdx e).

Definition erasePath (path : TDdgPath) : TDdgPath :=
  mkPath (focalIdx path) (eraseElem <$> members path).

Definition erase (paths : list TDdgPath) : list TDdgPath := erasePath <$> paths.

(** A path of the arena at position [p]: the focal index is an offset of
    the path, and each member records where it is. *)
Definition wfPath (p : nat) (path : TDdgPath) : Prop :=
  0 <= focalIdx path < Z.of_nat (length (members path))
  /\ forall i e, members path !! i = Some e -> ref_of e = (p, i).

Definition wfArena (paths : list TDdgPath) : Prop :=
  forall p path, paths !! p = Some path -> wfPath p path.

(** All pointers to the elements of an arena, path by path. *)
Definition allRefs (paths : list TDdgPath) : list PathElemRef :=
  path ← paths; ref_of <$> members path.

(** The tier of distance [d]: the elements at that distance, in the order
    of the paths. *)
Definition tier (paths : list TDdgPath) (d : Z) : list PathElemRef :=
  path ← paths;
  ref_of <$> filter (fun e => Z.of_nat (PathElem.memberIdx e) - focalIdx path = d) (members path).

(** What [distanceToPathElems.get(d) || []] reads. *)
Definition getTier (dm : TDdgDistanceToPathElems) (d : Z) : list PathElemRef :=
  default [] (dm !! d).

(** No array held by [distanceToPathElems] is empty. *)
Definition tiersNonEmpty (dm : TDdgDistanceToPathElems) : Prop :=
  forall d l, dm !! d = Some l -> l <> [].

(** [distanceToPathElems] holds exactly the non-empty tiers of an arena. *)
Definition tiersOf (dm : TDdgDistanceToPathElems) (paths : list TDdgPath) : Prop :=
  tiersNonEmpty dm /\ forall d, getTier dm d = tier paths d.

(** The tiers in the order the loop of the transform reaches them: round
    [j] takes distance [-j], then distance [j + 1]; that is
    0, 1, -1, 2, -2, ... *)
Definition tierOrderFrom (j rounds : nat) : list Z :=
  j' ← seq j rounds; [- Z.of_nat j'; Z.of_nat j' + 1].

Definition tierOrder (rounds : nat) : list Z := tierOrderFrom 0 rounds.

(** The elements in the order the loop of the transform visits them,
    without the assignments. *)
Fixpoint visitOrder (fuel : nat) (dm : TDdgDistanceToPathElems) (downstream upstream : Z)
    : option (list PathElemRef) :=
  match fuel with
  | O => None
  | S fuel' =>
      let here := getTier dm downstream ++ getTier dm upstream in
      if bool_decide (is_Some (dm !! downstream)) || bool_decide (is_Some (dm !! upstream))
      then (here ++.) <$> visitOrder fuel' dm (downstream - 1) (upstream + 1)
      else Some here
  end.

(** The elements of a payload in the order the transform numbers them. *)
Definition visitedOrder (focal : FocalSelector) (payload : TDdgPayload) : list PathElemRef :=
  tierOrder (length (concat payload))
  ≫= tier (parsedFrom focal 0 (sort comparePaths payload)).

(** The order of the tiers as the spec lists it: 0, -1, 1, -2, 2, ... *)
Definition specTierOrder (magnitudes : nat) : list Z :=
  0 :: (k ← seq 1 magnitudes; [- Z.of_nat k; Z.of_nat k]).

(** [|distance|] of the element a pointer names; [0] for a dangling one. *)
Definition absDistance (paths : list TDdgPath) (r : PathElemRef) : Z :=
  Z.abs (default 0 (distance paths r)).

(** The visibility index stored in the element a pointer names. *)
Definition visibilityIdxOf (paths : list TDdgPath) (r : PathElemRef) : Result nat :=
  match deref paths r with
  | Some e => PathElem.visibilityIdx e
  | None => Throw DanglingPointer
  end.

(** The elements of an arena in ascending order of their visibility
    index: position [i] of the array holds the element whose index is
    [i]. *)
Definition inIndexOrder (paths : list TDdgPath) (l : list PathElemRef) : Prop :=
  forall i r, l !! i = Some r <-> visibilityIdxOf paths r = Ok i.

(** ** Notions used to state the properties of [GraphModel] *)

Section graph_notions.
Context {EdgeId : Type} `{Countable EdgeId}.
Variable getEdgeId : string -> string -> EdgeId.
Variable getPathElemHasher :
  EDdgDensity -> bool -> list TDdgPath -> PathElemRef -> string.

(** The vertex key of an element in a graph: [hasher(pathElem)]. *)
Definition hasherOf (g : GraphModel.t EdgeId) (r : PathElemRef) : string :=
  getPathElemHasher (GraphModel.density g) (GraphModel.showOp g) (GraphModel.arena g) r.

(** An edge from the vertex of the element nearer to the focal node to
    the vertex of the farther one, and the reverse. *)
Definition nearToFar (g : GraphModel.t EdgeId) (far near : PathElemRef) : Edge.t :=
  {| Edge.from := hasherOf g near; Edge.to := hasherOf g far |}.

Definition farToNear (g : GraphModel.t EdgeId) (far near : PathElemRef) : Edge.t :=
  {| Edge.from := hasherOf g far; Edge.to := hasherOf g near |}.

(** The fields the constructor sets once. *)
Definition sameConfig (g g' : GraphModel.t EdgeId) : Prop :=
  GraphModel.arena g' = GraphModel.arena g
  /\ GraphModel.density g' = GraphModel.density g
  /\ GraphModel.showOp g' = GraphModel.showOp g
  /\ GraphModel.distanceToPathElems g' = GraphModel.distanceToPathElems g
  /\ GraphModel.visIdxToPathElem g' = GraphModel.visIdxToPathElem g.

(** What holds of the maps once the constructor has gone through the
    elements [processed]. *)
Record graphInv (processed : list PathElemRef) (g : GraphModel.t EdgeId) : Prop := {
  inv_dom : forall r, is_Some (GraphModel.pathElemToVertex g !! r) <-> r ∈ processed;
  inv_key : forall r v,
    GraphModel.pathElemToVertex g !! r = Some v -> Vertex.key v = hasherOf g r;
  inv_vertices : forall k v,
    GraphModel.vertices g !! k = Some v ->
    Vertex.key v = k /\ is_Some (GraphModel.vertexToPathElems g !! v);
  inv_edgesById : forall id e,
    GraphModel.edgesById g !! id = Some e -> getEdgeId (Edge.from e) (Edge.to e) = id;
  inv_edge_dom : forall r n,
    r ∈ processed -> focalSideNeighbor (GraphModel.arena g) r = Some n ->
    is_Some (GraphModel.pathElemToEdge g !! r);
  inv_edge : forall r e,
    GraphModel.pathElemToEdge g !! r = Some e ->
    exists n dist,
      focalSideNeighbor (GraphModel.arena g) r = Some n
      /\ distance (GraphModel.arena g) r = Some dist
      /\ getEdgeId (Edge.from e) (Edge.to e)
          = getEdgeId (Edge.from (if decide (0 < dist) then nearToFar g r n
                                  else farToNear g r n))
                      (Edge.to (if decide (0 < dist) then nearToFar g r n
                                else farToNear g r n));
}.

(** An order in which every element comes after its focal-side
    neighbour, and names an object of the arena. *)
Definition focalSideFirst (paths : list TDdgPath) (l : list PathElemRef) : Prop :=
  forall k r, l !! k = Some r ->
    is_Some (deref paths r)
    /\ forall n, focalSideNeighbor paths r = Some n ->
         exists k', (k' < k)%nat /\ l !! k' = Some n.
End graph_notions.

(** A string without the separator of the tokens. *)
Fixpoint commaFree (s : string) : Prop :=
  match s with
  | EmptyString => True
  | String c s' => c <> ","%char /\ commaFree s'
  end.

(** The codec decodes what it encodes, as a set. *)
Definition codecRoundTrip (encode : list nat -> string)
    (decode : string -> Result (list nat)) : Prop :=
  forall indices, exists l, decode (encode indices) = Ok l /\ forall i, i ∈ l <-> i ∈ indices.

(** Modelled from the spec: the hasher [getPathElemHasher] is absent from
    the sources.  Spec 4.3, policy MostConcise: the key is
    [service[::operation]], the operation being included when operations
    are shown or the element is the focal occurrence.  The samples use this
    rule for every density. *)
Definition conciseHasher (density : EDdgDensity) (showOp : bool) (paths : list TDdgPath)
    (r : PathElemRef) : string :=
  match deref paths r, distance paths r with
  | Some e, Some d =>
      if showOp || bool_decide (d = 0)
      then op_service (PathElem.operation e) +:+ "::" +:+ op_name (PathElem.operation e)
      else op_service (PathElem.operation e)
  | _, _ => ""
  end.

(** Modelled from the spec: [getEdgeId] is absent from the sources.  Spec 3:
    edges are deduplicated by their [(from, to)] pair. *)
Definition pairEdgeId (from to : string) : string * string := (from, to).

(** ** Notions used to state further properties of the transform *)

(** [t] occurs in [s]: [s] is [t] between two strings. *)
Definition occursIn (t s : string) : Prop :=
  exists pre post, s = pre +:+ t +:+ post.

(** The order of the compare values: [a] is not after [b]. *)
Definition compareValueLe (a b : list TDdgPayloadEntry) : Prop :=
  String.ltb (compareValue b) (compareValue a) = false.

(** What [service.operations.get(operationName).pathElems] holds, [[]] when
    the service or the operation is not in the map. *)
Definition pathElemsOf (serviceMap : TDdgServiceMap) (serviceName operationName : string)
    : list PathElemRef :=
  default [] (default ∅ (serviceMap !! serviceName) !! operationName).

Global Instance opRef_eq_dec : EqDecision OperationRef.
Proof. solve_decision. Defined.

(** The elements of an arena whose operation is [operationName] of
    [serviceName], path by path. *)
Definition opTier (paths : list TDdgPath) (serviceName operationName : string)
    : list PathElemRef :=
  path ← paths;
  ref_of <$> filter (fun e => PathElem.operation e = mkOpRef serviceName operationName)
                    (members path).

(** No service of the map is without operations, and no operation without
    elements. *)
Definition servicesInv (serviceMap : TDdgServiceMap) : Prop :=
  forall s ops, serviceMap !! s = Some ops ->
    ops <> ∅ /\ forall o l, ops !! o = Some l -> l <> [].

(** ** Notions used to state further properties of [GraphModel] *)

Section graph_links.
Context {EdgeId : Type} `{Countable EdgeId}.
Variable getEdgeId : string -> string -> EdgeId.
Variable getPathElemHasher :
  EDdgDensity -> bool -> list TDdgPath -> PathElemRef -> string.

(** The vertex the constructor makes when it meets an element whose key
    has no vertex yet. *)
Definition vertexOf (g : GraphModel.t EdgeId) (r : PathElemRef) : option Vertex.t :=
  elem ← deref (GraphModel.arena g) r;
  dist ← distance (GraphModel.arena g) r;
  Some {| Vertex.key := hasherOf getPathElemHasher g r;
          Vertex.isFocalNode := bool_decide (dist = 0);
          Vertex.service := op_service (PathElem.operation elem);
          Vertex.operation :=
            if GraphModel.showOp g || bool_decide (dist = 0)
            then Some (op_name (PathElem.operation elem)) else None |}.

(** How the maps of the constructor refer to one another once it has gone
    through the elements [processed]. *)
Record graphLinks (processed : list PathElemRef) (g : GraphModel.t EdgeId) : Prop := {
  link_vertex : forall r v,
    GraphModel.pathElemToVertex g !! r = Some v ->
    GraphModel.vertices g !! Vertex.key v = Some v;
  link_members : forall v l,
    GraphModel.vertexToPathElems g !! v = Some l ->
    l <> [] /\ NoDup l
    /\ forall r, r ∈ l <-> GraphModel.pathElemToVertex g !! r = Some v;
  link_first : forall k v,
    GraphModel.vertices g !! k = Some v ->
    exists i r,
      processed !! i = Some r
      /\ hasherOf getPathElemHasher g r = k
      /\ (forall j r', (j < i)%nat -> processed !! j = Some r' ->
            hasherOf getPathElemHasher g r' <> k)
      /\ vertexOf g r = Some v;
  link_edge : forall r e,
    GraphModel.pathElemToEdge g !! r = Some e ->
    GraphModel.edgesById g !! getEdgeId (Edge.from e) (Edge.to e) = Some e;
  link_edge_dom : forall r,
    is_Some (GraphModel.pathElemToEdge g !! r) ->
    is_Some (GraphModel.pathElemToVertex g !! r);
}.
End graph_links.

(** ** Notions used to state the properties of [transformTracesToPaths] *)

Section trace_notions.
Context {Span : Type}.
Variable spanID : Span -> string.
Variable processID : Span -> string.
Variable hasChildren : Span -> bool.
Variable spanAncestorIds : Span -> list string.
Variable inheritedProperty : string -> bool.

(** The last span of a list that has the id [id]. *)
Definition spanOfId (spans : list Span) (id : string) : option Span :=
  last (filter (fun span => spanID span = id) spans).

(** [trace.processes[id]] is not [undefined]: the trace has a process of
    that id, or [id] is the name of an inherited property. *)
Definition hasProperty (data : @TransformTracesToPaths.Trace Span) (id : string) : Prop :=
  is_Some (TransformTracesToPaths.processes data !! id) \/ inheritedProperty id = true.

(** Every leaf of the trace has a process id under which
    [trace.processes] has a property, and every id [spanAncestorIds] gives
    for a leaf is the id of a span of the trace that has such a process
    id. *)
Definition resolvable (data : TransformTracesToPaths.Trace) : Prop :=
  forall leaf,
    leaf ∈ TransformTracesToPaths.spans data -> hasChildren leaf = false ->
    hasProperty data (processID leaf)
    /\ forall id, id ∈ spanAncestorIds leaf ->
         exists span,
           spanOfId (TransformTracesToPaths.spans data) id = Some span
           /\ hasProperty data (processID span).

(** The same with processes of the trace only: every leaf has a process of
    the trace, and every ancestor id of a leaf is the id of a span of the
    trace that has a process of the trace. *)
Definition resolvedByProcesses (data : TransformTracesToPaths.Trace) : Prop :=
  forall leaf,
    leaf ∈ TransformTracesToPaths.spans data -> hasChildren leaf = false ->
    is_Some (TransformTracesToPaths.processes data !! processID leaf)
    /\ forall id, id ∈ spanAncestorIds leaf ->
         exists span,
           spanOfId (TransformTracesToPaths.spans data) id = Some span
           /\ is_Some (TransformTracesToPaths.processes data !! processID span).

Variable operationName : Span -> string.
Variables (focalService : string) (focalOperation : option string).

(** What a leaf adds to [dependencies], and what a fetched trace adds. *)
Definition dependenciesOfLeaf (data : TransformTracesToPaths.Trace) (leaf : Span)
    : list TransformTracesToPaths.TDdgPayloadPath :=
  match TransformTracesToPaths.pathOfLeaf processID operationName spanAncestorIds
          inheritedProperty data (TransformTracesToPaths.spanMapOf spanID data) leaf with
  | inr path =>
      if TransformTracesToPaths.hasFocal path focalService focalOperation
      then [TransformTracesToPaths.mkPayloadPath path
              [("exemplar_trace_id", TransformTracesToPaths.traceID data)]]
      else []
  | inl _ => []
  end.

Definition dependenciesOfTrace (fetched : option TransformTracesToPaths.Trace)
    : list TransformTracesToPaths.TDdgPayloadPath :=
  match fetched with
  | Some data =>
      concat (dependenciesOfLeaf data
                <$> filter (fun span => hasChildren span = false)
                           (TransformTracesToPaths.spans data))
  | None => []
  end.
End trace_notions.

(** An entry of a returned path as an entry of the payload of
    [transformDdgData], which reads [service] as a string: there is none
    for an entry whose [service] is [undefined]. *)
Definition typedEntry (entry : TransformTracesToPaths.TDdgPayloadEntry)
    : option TDdgPayloadEntry :=
  mkEntry (TransformTracesToPaths.operation entry) <$> TransformTracesToPaths.service entry.

(** The paths of [dependencies] as a payload of [transformDdgData], when
    every entry has a service. *)
Definition typedPayload (dependencies : list TransformTracesToPaths.TDdgPayloadPath)
    : option TDdgPayload :=
  mapM (fun d => mapM typedEntry (TransformTracesToPaths.path d)) dependencies.

(** ** Sample inputs *)

(** One path [A, B, C] with the focal node B in the middle. *)
Definition scenarioA_payload : TDdgPayload :=
  [[mkEntry "opA" "A"; mkEntry "opB" "B"; mkEntry "opC" "C"]].

Definition scenarioA_focal : FocalSelector := mkFocal "B" None.

(** Two different paths with the same compare value: a comma inside a name
    reads like the separator of [join]. *)
Definition collisionPath1 : list TDdgPayloadEntry :=
  [mkEntry "a" "f"; mkEntry "d" "b,c"].

Definition collisionPath2 : list TDdgPayloadEntry :=
  [mkEntry "a,b" "f"; mkEntry "d" "c"].

Definition collisionFocal : FocalSelector := mkFocal "f" None.

(** The arena and the visiting order the transform returns for it. *)
Definition scenarioA_paths : list TDdgPath :=
  Eval vm_compute in
    match transformDdgData scenarioA_payload scenarioA_focal with
    | Ok m => DdgModel.paths m
    | Throw _ => []
    end.

Definition scenarioA_order : list PathElemRef :=
  Eval vm_compute in
    match transformDdgData scenarioA_payload scenarioA_focal with
    | Ok m => JsMap.values (DdgModel.visIdxToPathElem m)
    | Throw _ => []
    end.

(** Two paths through the focal node B, in the two orders. *)
Definition scenarioB_payload : TDdgPayload :=
  [[mkEntry "opB" "B"; mkEntry "opC" "C"]; [mkEntry "opA" "A"; mkEntry "opB" "B"]].

Definition scenarioB_swapped : TDdgPayload :=
  [[mkEntry "opA" "A"; mkEntry "opB" "B"]; [mkEntry "opB" "B"; mkEntry "opC" "C"]].

(** A span type for sample traces: the four fields read by
    [transformTracesToPaths], and the ids of the ancestors, the parent
    first. *)
Record SampleSpan : Set := mkSampleSpan {
  sample_spanID : string;
  sample_processID : string;
  sample_operationName : string;
  sample_hasChildren : bool;
  sample_ancestorIds : list string;
}.

(** The names of the properties of [Object.prototype]. *)
Definition objectPrototypeProperty (id : string) : bool :=
  bool_decide (id ∈ ["constructor"; "hasOwnProperty"; "isPrototypeOf";
                     "propertyIsEnumerable"; "toLocaleString"; "toString"; "valueOf";
                     "__proto__"; "__defineGetter__"; "__defineSetter__";
                     "__lookupGetter__"; "__lookupSetter__"]).

(** One trace: a span of service A calls a span of service B. *)
Definition sampleLeaf : SampleSpan := mkSampleSpan "s2" "p2" "opB" false ["s1"].

Definition sampleTrace : TransformTracesToPaths.Trace :=
  TransformTracesToPaths.mkTrace "t1"
    [mkSampleSpan "s1" "p1" "opA" true []; sampleLeaf]
    (<["p1" := "A"]> (<["p2" := "B"]> ∅)).

Definition sampleTraces : list (string * option TransformTracesToPaths.Trace) :=
  [("t1", Some sampleTrace); ("t2", None)].

(** The dependency [transformTracesToPaths] makes of the sample trace for
    the focal service B. *)
Definition sampleDependency : TransformTracesToPaths.TDdgPayloadPath :=
  TransformTracesToPaths.mkPayloadPath
    [TransformTracesToPaths.mkEntry (Some "A") "opA";
     TransformTracesToPaths.mkEntry (Some "B") "opB"]
    [("exemplar_trace_id", "t1")].

(** A trace whose one span has the process id [constructor], where the
    trace has no process at all. *)
Definition inheritedTraces : list (string * option TransformTracesToPaths.Trace) :=
  [("t3", Some (TransformTracesToPaths.mkTrace "t3"
                  [mkSampleSpan "s1" "constructor" "opA" false []] ∅))].

(** * Properties *)

Example tierOrder_3 : tierOrder 3 = [0; 1; -1; 2; -2; 3].
Proof. reflexivity. Qed.

Example specTierOrder_2 : specTierOrder 2 = [0; -1; 1; -2; 2].
Proof. reflexivity. Qed.

Example scenarioA_order_is : scenarioA_order = [(0, 1); (0, 2); (0, 0)]%nat.
Proof. reflexivity. Qed.

Example scenarioA_tiers :
  tier scenarioA_paths (-1) = [(0, 0)%nat]
  /\ tier scenarioA_paths 0 = [(0, 1)%nat]
  /\ tier scenarioA_paths 1 = [(0, 2)%nat].
Proof. repeat split. Qed.

Example split_spaces : JsString.split " " "a  b" = ["a"; ""; "b"].
Proof. reflexivity. Qed.

Example trim_spaces : JsString.trim "  a  b " = "a  b".
Proof. reflexivity. Qed.

Example encode_sample : VisibilityCodec.encode [5; 3; 3; 10; 0]%nat = "0,3,2,5".
Proof. reflexivity. Qed.

Example decode_malformed :
  VisibilityCodec.decode "1,,2" = Throw MalformedVisibilityToken.
Proof. reflexivity. Qed.

(** ** Outcomes *)

Lemma forEachR_app {A S} (f : A -> S -> Result S) (l1 l2 : list A) (s : S) :
  forEachR f (l1 ++ l2) s = bindR (forEachR f l1 s) (forEachR f l2).
Proof.
  revert s. induction l1 as [|x l1 IH]; intros s; simpl; [done|].
  destruct (f x s); simpl; auto.
Qed.

Lemma Ok_inj {A} (a b : A) : Ok a = Ok b -> a = b.
Proof. by intros [= ->]. Qed.

(** ** The [PathElem] class *)

(** C8. A [PathElem] whose index is unset throws on reading it; setting it
    once succeeds and the index then reads back as the value set; setting it
    again throws and leaves the object, hence the stored index, as it was. *)
Theorem visibilityIdx_write_once (idx path : nat) (op : OperationRef) (v w : nat) :
  let unset := PathElem.mk idx path op None in
  let set := PathElem.mk idx path op (Some v) in
  PathElem.visibilityIdx unset = Throw VisibilityIdxUnset
  /\ PathElem.set_visibilityIdx v unset = (set, Ok tt)
  /\ PathElem.visibilityIdx set = Ok v
  /\ PathElem.set_visibilityIdx w set = (set, Throw VisibilityIdxAlreadySet).
Proof. by cbn. Qed.

(** ** The sort of the payload *)

Lemma sortInsert_Permutation {A} (cmp : A -> A -> Z) (x : A) (l : list A) :
  sortInsert cmp x l ≡ₚ x :: l.
Proof.
  induction l as [|y l IH]; simpl; [done|].
  case_decide; [|done].
  rewrite IH. apply Permutation_swap.
Qed.

Lemma sort_Permutation {A} (cmp : A -> A -> Z) (l : list A) : sort cmp l ≡ₚ l.
Proof.
  induction l as [|x l IH]; simpl; [done|].
  by rewrite sortInsert_Permutation, IH.
Qed.

(** ** Parsing one payload path *)

Lemma focalFrom_None focal i es :
  focalFrom focal i es = None <-> ~ hasFocal focal es.
Proof.
  revert i. induction es as [|e es IH]; intros i; simpl.
  - split; [|done]. intros _ (e & He & _). by apply elem_of_nil in He.
  - destruct (isFocal focal e) eqn:Hf.
    + split; [done|]. intros Hn. exfalso. apply Hn. exists e. split; [left|done].
    + rewrite IH. split; intros Hn (e' & He' & Hf').
      * apply elem_of_cons in He' as [->|He']; [congruence|].
        apply Hn. by exists e'.
      * apply Hn. exists e'. split; [by right|done].
Qed.

Lemma focalFrom_Some focal i es k :
  focalFrom focal i es = Some k ->
  (i <= k)%nat
  /\ (exists e, es !! (k - i)%nat = Some e /\ isFocal focal e = true)
  /\ (forall j e, es !! j = Some e -> (i + j < k)%nat -> isFocal focal e = false).
Proof.
  revert i. induction es as [|e es IH]; intros i; simpl; [done|].
  destruct (isFocal focal e) eqn:Hf.
  - intros [= <-]. split; [lia|]. split.
    + exists e. by rewrite Nat.sub_diag.
    + intros j e' _ Hj. lia.
  - intros Hk. apply IH in Hk as (Hle & (e' & He' & Hf') & Hmin).
    split; [lia|]. split.
    + exists e'. split; [|done].
      replace (k - i)%nat with (S (k - S i)) by lia. done.
    + intros [|j] e''; simpl.
      * by intros [= <-] _.
      * intros Hj Hlt. apply (Hmin j); [done|lia].
Qed.

Lemma focalFrom_is_Some focal i es :
  hasFocal focal es -> is_Some (focalFrom focal i es).
Proof.
  intros Hf. destruct (focalFrom focal i es) eqn:E; [done|].
  by apply focalFrom_None in E.
Qed.

Lemma focalFrom_hasFocal focal i es k :
  focalFrom focal i es = Some k -> hasFocal focal es.
Proof.
  intros Hk. apply focalFrom_Some in Hk as (_ & (e & He & Hf) & _).
  exists e. split; [by eapply list_elem_of_lookup_2|done].
Qed.

Lemma length_membersOf p i es : length (membersOf p i es) = length es.
Proof. revert i. induction es; intros; simpl; auto. Qed.

Lemma lookup_membersOf p i es k :
  membersOf p i es !! k = (fun e => PathElem.new p (opRefOf e) (i + k)) <$> es !! k.
Proof.
  revert i k. induction es as [|e es IH]; intros i [|k]; simpl; try done.
  - by rewrite Nat.add_0_r.
  - rewrite IH. by replace (S i + k)%nat with (i + S k)%nat by lia.
Qed.

Lemma mapMembers_spec focal p i es f sm :
  exists sm',
    mapMembers focal p i es f sm =
      (membersOf p i es,
       if decide (f = -1) then from_option Z.of_nat (-1) (focalFrom focal i es) else f,
       sm').
Proof.
  revert i f sm. induction es as [|e es IH]; intros i f sm; simpl.
  - exists sm. by case_decide; subst.
  - match goal with |- context [mapMembers _ _ _ _ ?f' ?sm'] =>
      destruct (IH (S i) f' sm') as [sm2 ->] end.
    exists sm2. f_equal. f_equal.
    destruct (decide (f = -1)) as [->|Hf]; simpl.
    + destruct (isFocal focal e); simpl; [|done].
      case_decide; [lia|done].
    + rewrite bool_decide_eq_false_2 by done. simpl. by rewrite decide_False.
Qed.

Lemma getTier_trackDistance f dm m d :
  getTier (trackDistance f dm m) d =
    getTier dm d
    ++ (if decide (Z.of_nat (PathElem.memberIdx m) - f = d) then [ref_of m] else []).
Proof.
  unfold getTier, trackDistance.
  destruct (dm !! (Z.of_nat (PathElem.memberIdx m) - f)) as [elems|] eqn:E;
    (case_decide as Hd;
     [subst d; rewrite lookup_insert_eq, ?E; done
     |rewrite lookup_insert_ne by done; by rewrite app_nil_r]).
Qed.

Lemma getTier_foldl_trackDistance f ms dm d :
  getTier (foldl (trackDistance f) dm ms) d =
    getTier dm d
    ++ (ref_of <$> filter (fun e => Z.of_nat (PathElem.memberIdx e) - f = d) ms).
Proof.
  revert dm. induction ms as [|m ms IH]; intros dm; simpl.
  - by rewrite app_nil_r.
  - rewrite IH, getTier_trackDistance, filter_cons.
    case_decide; simpl; [by rewrite <- app_assoc|by rewrite app_nil_r].
Qed.

Lemma tiersNonEmpty_trackDistance f dm m :
  tiersNonEmpty dm -> tiersNonEmpty (trackDistance f dm m).
Proof.
  intros Hne d l. unfold trackDistance.
  destruct (dm !! (Z.of_nat (PathElem.memberIdx m) - f)) as [elems|] eqn:E;
    (destruct (decide (Z.of_nat (PathElem.memberIdx m) - f = d)) as [<-|Hd];
     [rewrite lookup_insert_eq; intros [= <-]; try done; by destruct elems
     |rewrite lookup_insert_ne by done; apply Hne]).
Qed.

Lemma tiersNonEmpty_foldl f ms dm :
  tiersNonEmpty dm -> tiersNonEmpty (foldl (trackDistance f) dm ms).
Proof.
  revert dm. induction ms as [|m ms IH]; intros dm Hne; simpl; [done|].
  by apply IH, tiersNonEmpty_trackDistance.
Qed.

Lemma tiersNonEmpty_is_Some dm d :
  tiersNonEmpty dm -> is_Some (dm !! d) <-> getTier dm d <> [].
Proof.
  intros Hne. unfold getTier. destruct (dm !! d) as [l|] eqn:E; simpl.
  - split; [intros _; by eapply Hne|by eauto].
  - split; [by intros [? ?]|done].
Qed.

Lemma tier_cons path paths d :
  tier (path :: paths) d =
    (ref_of <$> filter (fun e => Z.of_nat (PathElem.memberIdx e) - focalIdx path = d)
                       (members path))
    ++ tier paths d.
Proof. done. Qed.

Lemma tier_app paths1 paths2 d :
  tier (paths1 ++ paths2) d = tier paths1 d ++ tier paths2 d.
Proof. unfold tier. by rewrite bind_app. Qed.

(** ** Parsing the sorted payload *)

Lemma parsePath_ok focal es paths sm dm k :
  focalFrom focal 0 es = Some k ->
  exists sm',
    parsePath focal es (paths, sm, dm) =
      Ok (paths ++ [mkPath (Z.of_nat k) (membersOf (length paths) 0 es)], sm',
          foldl (trackDistance (Z.of_nat k)) dm (membersOf (length paths) 0 es)).
Proof.
  intros Hk. unfold parsePath.
  destruct (mapMembers_spec focal (length paths) 0 es (-1) sm) as [sm' ->].
  exists sm'. rewrite Hk. simpl.
  destruct (decide (-1 = -1)); [|done].
  by rewrite decide_False by lia.
Qed.

Lemma parsePath_throw focal es st :
  ~ hasFocal focal es -> parsePath focal es st = Throw MissingFocalNode.
Proof.
  intros Hn. destruct st as [[paths sm] dm]. unfold parsePath.
  destruct (mapMembers_spec focal (length paths) 0 es (-1) sm) as [sm' ->].
  apply (focalFrom_None focal 0) in Hn. rewrite Hn. simpl.
  by destruct (decide (-1 = -1)).
Qed.

Lemma forEachR_parsePath_ok focal l paths sm dm :
  Forall (hasFocal focal) l -> tiersNonEmpty dm ->
  exists sm' dm',
    forEachR (parsePath focal) l (paths, sm, dm) =
      Ok (paths ++ parsedFrom focal (length paths) l, sm', dm')
    /\ tiersNonEmpty dm'
    /\ forall d, getTier dm' d = getTier dm d ++ tier (parsedFrom focal (length paths) l) d.
Proof.
  revert paths sm dm.
  induction l as [|es l IH]; intros paths sm dm Hall Hne; cbn [forEachR parsedFrom].
  - exists sm, dm. rewrite !app_nil_r. split; [done|]. split; [done|].
    intros d. by rewrite app_nil_r.
  - apply Forall_cons in Hall as [Hes Hall].
    destruct (focalFrom_is_Some focal 0 es Hes) as [k Hk].
    destruct (parsePath_ok focal es paths sm dm k Hk) as [sm1 ->]. cbn [bindR].
    edestruct (IH (paths ++ [mkPath (Z.of_nat k) (membersOf (length paths) 0 es)]) sm1)
      as (sm2 & dm2 & -> & Hne2 & Htier); [done|by apply tiersNonEmpty_foldl|].
    exists sm2, dm2. rewrite Hk. simpl.
    rewrite length_app, Nat.add_1_r in *. rewrite <- app_assoc. simpl.
    split; [done|]. split; [done|].
    intros d. rewrite Htier, getTier_foldl_trackDistance.
    by rewrite <- app_assoc.
Qed.

Lemma forEachR_parsePath_throw focal l st :
  ~ Forall (hasFocal focal) l ->
  forEachR (parsePath focal) l st = Throw MissingFocalNode.
Proof.
  revert st. induction l as [|es l IH]; intros st Hn; cbn [forEachR].
  - by destruct Hn.
  - destruct (focalFrom focal 0 es) as [k|] eqn:Hk.
    + destruct st as [[paths sm] dm].
      destruct (parsePath_ok focal es paths sm dm k Hk) as [sm1 ->]. cbn [bindR].
      apply IH. intros Hall. apply Hn. constructor; [|done].
      by eapply focalFrom_hasFocal.
    + rewrite parsePath_throw; [done|]. by apply (focalFrom_None focal 0).
Qed.

(** ** The arena *)

Lemma lookup_parsedFrom focal p l k :
  parsedFrom focal p l !! k =
    (fun es => mkPath (from_option Z.of_nat (-1) (focalFrom focal 0 es))
                      (membersOf (p + k) 0 es)) <$> l !! k.
Proof.
  revert p k. induction l as [|es l IH]; intros p [|k]; simpl; try done.
  - by rewrite Nat.add_0_r.
  - rewrite IH. by replace (S p + k)%nat with (p + S k)%nat by lia.
Qed.

Lemma length_parsedFrom focal p l : length (parsedFrom focal p l) = length l.
Proof. revert p. induction l; intros; simpl; auto. Qed.

Lemma parsedFrom_wf focal l :
  Forall (hasFocal focal) l -> wfArena (parsedFrom focal 0 l).
Proof.
  intros Hall p path. rewrite lookup_parsedFrom.
  destruct (l !! p) as [es|] eqn:Hes; simpl; [|done]. intros [= <-]. simpl.
  assert (hasFocal focal es) as Hf.
  { rewrite Forall_forall in Hall. apply Hall. by eapply list_elem_of_lookup_2. }
  destruct (focalFrom_is_Some focal 0 es Hf) as [k Hk]. rewrite Hk. simpl.
  apply focalFrom_Some in Hk as (_ & (e & He & _) & _).
  apply lookup_lt_Some in He. unfold wfPath. simpl. rewrite length_membersOf.
  split; [lia|].
  intros i e'. rewrite lookup_membersOf.
  destruct (es !! i); simpl; [|done]. by intros [= <-].
Qed.

Lemma parsedFrom_unset focal l r e :
  deref (parsedFrom focal 0 l) r = Some e -> PathElem._visibilityIdx e = None.
Proof.
  unfold deref. rewrite lookup_parsedFrom.
  destruct (l !! r.1) as [es|]; simpl; [|done].
  rewrite lookup_membersOf. destruct (es !! r.2); simpl; [|done]. by intros [= <-].
Qed.

Lemma erase_membersOf p i es : eraseElem <$> membersOf p i es = membersOf p i es.
Proof. revert i. induction es as [|e es IH]; intros i; simpl; [done|]. by rewrite IH. Qed.

Lemma erase_parsedFrom focal p l : erase (parsedFrom focal p l) = parsedFrom focal p l.
Proof.
  revert p. induction l as [|es l IH]; intros p; simpl; [done|].
  unfold erase in IH. rewrite IH. unfold erasePath. simpl. by rewrite erase_membersOf.
Qed.

Lemma deref_erase paths r : deref (erase paths) r = eraseElem <$> deref paths r.
Proof.
  unfold deref, erase. rewrite list_lookup_fmap.
  destruct (paths !! r.1) as [path|]; simpl; [|done].
  by rewrite list_lookup_fmap.
Qed.

Lemma distance_erase paths r : distance (erase paths) r = distance paths r.
Proof.
  unfold distance, erase. rewrite list_lookup_fmap.
  by destruct (paths !! r.1).
Qed.

Lemma focalSideNeighbor_erase paths r :
  focalSideNeighbor (erase paths) r = focalSideNeighbor paths r.
Proof.
  unfold focalSideNeighbor, erase. rewrite list_lookup_fmap.
  destruct (paths !! r.1) as [path|]; simpl; [|done].
  repeat case_decide; try done.
  rewrite list_lookup_fmap. by destruct (members path !! _).
Qed.

Lemma filter_erase (f d : Z) (ms : list PathElem.t) :
  ref_of <$> filter (fun e => Z.of_nat (PathElem.memberIdx e) - f = d) (eraseElem <$> ms)
  = ref_of <$> filter (fun e => Z.of_nat (PathElem.memberIdx e) - f = d) ms.
Proof.
  induction ms as [|e ms IHm]; [done|].
  rewrite fmap_cons, !filter_cons. cbn [eraseElem PathElem.new PathElem.memberIdx].
  case_decide; [|done]. rewrite !fmap_cons. by f_equal.
Qed.

Lemma tier_erase paths d : tier (erase paths) d = tier paths d.
Proof.
  induction paths as [|path paths IH]; [done|].
  unfold erase in *. rewrite fmap_cons, !tier_cons, IH. f_equal.
  apply filter_erase.
Qed.

Lemma wfArena_erase paths : wfArena (erase paths) <-> wfArena paths.
Proof.
  unfold wfArena, erase. split; intros Hwf p path Hp.
  - destruct (Hwf p (erasePath path)) as [Hf Hm].
    { by rewrite list_lookup_fmap, Hp. }
    simpl in *. rewrite length_fmap in Hf. split; [done|].
    intros i e He. apply (Hm i (eraseElem e)).
    by rewrite list_lookup_fmap, He.
  - rewrite list_lookup_fmap in Hp.
    destruct (paths !! p) as [path'|] eqn:Hp'; [|done].
    injection Hp as <-. destruct (Hwf p path' Hp') as [Hf Hm].
    split; simpl; [by rewrite length_fmap|].
    intros i e. rewrite list_lookup_fmap.
    destruct (members path' !! i) as [e'|] eqn:He'; simpl; [|done].
    intros [= <-]. exact (Hm i e' He').
Qed.

Lemma elem_of_tier paths d r :
  wfArena paths ->
  r ∈ tier paths d <-> is_Some (deref paths r) /\ distance paths r = Some d.
Proof.
  intros Hwf. unfold tier. rewrite list_elem_of_bind. split.
  - intros (path & Hr & Hpath).
    apply list_elem_of_lookup in Hpath as [p Hp].
    apply list_elem_of_fmap in Hr as (e & -> & He).
    apply list_elem_of_filter in He as [Hd He].
    apply list_elem_of_lookup in He as [i Hi].
    destruct (Hwf p path Hp) as [_ Hm]. rewrite (Hm i e Hi).
    unfold deref, distance. simpl. rewrite Hp. simpl. rewrite Hi.
    split; [done|]. f_equal. rewrite <- Hd.
    apply Hm in Hi. unfold ref_of in Hi. injection Hi as _ ->. done.
  - unfold deref, distance. intros [[e He] Hd].
    destruct (paths !! r.1) as [path|] eqn:Hp; [|done]. simpl in *.
    exists path. split; [|by eapply list_elem_of_lookup_2].
    destruct (Hwf _ path Hp) as [_ Hm]. pose proof (Hm _ e He) as Hr.
    apply list_elem_of_fmap. exists e. split; [by destruct r|].
    apply list_elem_of_filter. split; [|by eapply list_elem_of_lookup_2].
    injection Hd as <-. unfold ref_of in Hr. injection Hr as _ ->. done.
Qed.

Lemma refs_of_members q path :
  (forall i e, members path !! i = Some e -> ref_of e = (q, i)) ->
  ref_of <$> members path = (fun i => (q, i)) <$> seq 0 (length (members path)).
Proof.
  intros Hm. apply list_eq. intros i. rewrite !list_lookup_fmap.
  destruct (members path !! i) as [e|] eqn:He; simpl.
  - rewrite lookup_seq_lt by (by eapply lookup_lt_Some). simpl.
    f_equal. by apply Hm.
  - rewrite lookup_seq_ge; [done|]. by apply lookup_ge_None.
Qed.

Lemma NoDup_allRefs_from q paths :
  (forall p path, paths !! p = Some path -> wfPath (q + p) path) ->
  NoDup (allRefs paths) /\ forall r, r ∈ allRefs paths -> (q <= r.1)%nat.
Proof.
  revert q. induction paths as [|path paths IH]; intros q Hwf.
  - split; [constructor|]. intros r Hr. by apply elem_of_nil in Hr.
  - destruct (IH (S q)) as [Hnd Hge].
    { intros p path' Hp. replace (S q + p)%nat with (q + S p)%nat by lia.
      by apply Hwf. }
    destruct (Hwf 0%nat path eq_refl) as [_ Hm]. rewrite Nat.add_0_r in Hm.
    unfold allRefs in *. rewrite bind_cons, (refs_of_members q path Hm).
    split.
    + apply NoDup_app. split; [|split; [|done]].
      * apply NoDup_fmap_2; [|apply NoDup_seq]. by intros i j [= ->].
      * intros r Hr Hr'. apply list_elem_of_fmap in Hr as (i & -> & _).
        apply Hge in Hr'. simpl in Hr'. lia.
    + intros r Hr. apply elem_of_app in Hr as [Hr|Hr].
      * apply list_elem_of_fmap in Hr as (i & -> & _). simpl. lia.
      * apply Hge in Hr. lia.
Qed.

Lemma NoDup_allRefs paths : wfArena paths -> NoDup (allRefs paths).
Proof. intros Hwf. by apply (NoDup_allRefs_from 0). Qed.

Lemma sublist_fmap {A B} (f : A -> B) (l1 l2 : list A) :
  l1 `sublist_of` l2 -> f <$> l1 `sublist_of` f <$> l2.
Proof. induction 1; simpl; by constructor. Qed.

Lemma tier_sublist paths d : tier paths d `sublist_of` allRefs paths.
Proof.
  induction paths as [|path paths IH]; [constructor|].
  rewrite tier_cons. unfold allRefs. rewrite bind_cons.
  apply sublist_app; [|done]. apply sublist_fmap, sublist_filter.
Qed.

Lemma NoDup_tier paths d : wfArena paths -> NoDup (tier paths d).
Proof.
  intros Hwf. eapply sublist_NoDup; [by apply NoDup_allRefs|apply tier_sublist].
Qed.

Lemma elem_of_allRefs paths r :
  wfArena paths -> r ∈ allRefs paths <-> is_Some (deref paths r).
Proof.
  intros Hwf. unfold allRefs, deref. rewrite list_elem_of_bind. split.
  - intros (path & Hr & Hpath).
    apply list_elem_of_lookup in Hpath as [p Hp].
    apply list_elem_of_fmap in Hr as (e & -> & He).
    apply list_elem_of_lookup in He as [i Hi].
    destruct (Hwf p path Hp) as [_ Hm]. rewrite (Hm i e Hi). simpl.
    rewrite Hp. simpl. by rewrite Hi.
  - intros [e He].
    destruct (paths !! r.1) as [path|] eqn:Hp; [|done]. simpl in *.
    exists path. split; [|by eapply list_elem_of_lookup_2].
    destruct (Hwf _ path Hp) as [_ Hm]. pose proof (Hm _ e He) as Hr.
    apply list_elem_of_fmap. exists e. split; [by destruct r|].
    by eapply list_elem_of_lookup_2.
Qed.

(** ** Which tiers are empty *)

Lemma tier_nonempty paths d :
  wfArena paths ->
  tier paths d <> [] <->
  exists p path, paths !! p = Some path
    /\ 0 <= focalIdx path + d < Z.of_nat (length (members path)).
Proof.
  intros Hwf. split.
  - destruct (tier paths d) as [|r t] eqn:Ht; [done|]. intros _.
    assert (r ∈ tier paths d) as Hr by (rewrite Ht; left).
    apply elem_of_tier in Hr as [[e He] Hd]; [|done].
    unfold deref, distance in *.
    destruct (paths !! r.1) as [path|] eqn:Hp; [|done]. simpl in *.
    exists r.1, path. split; [done|].
    apply lookup_lt_Some in He. injection Hd as <-. lia.
  - intros (p & path & Hp & Hd) Ht.
    assert ((p, Z.to_nat (focalIdx path + d)) ∈ tier paths d) as Hr.
    { apply elem_of_tier; [done|]. unfold deref, distance. simpl. rewrite Hp. simpl.
      split; [apply lookup_lt_is_Some_2; lia|]. f_equal. lia. }
    rewrite Ht in Hr. by apply elem_of_nil in Hr.
Qed.

Lemma tier_empty paths d :
  wfArena paths ->
  tier paths d = [] <->
  forall p path, paths !! p = Some path ->
    ~ (0 <= focalIdx path + d < Z.of_nat (length (members path))).
Proof.
  intros Hwf. destruct (decide (tier paths d = [])) as [He|Hne].
  - split; [|done]. intros _ p path Hp Hd.
    assert (tier paths d <> []) as Hn by (apply tier_nonempty; eauto). done.
  - split; [done|]. intros Hall. exfalso.
    apply tier_nonempty in Hne as (p & path & Hp & Hd); [|done]. by eapply Hall.
Qed.

Lemma tier_empty_far paths (B : nat) d :
  wfArena paths ->
  (forall p path, paths !! p = Some path -> (length (members path) <= B)%nat) ->
  Z.of_nat B <= Z.abs d -> tier paths d = [].
Proof.
  intros Hwf HB Hd. apply tier_empty; [done|]. intros p path Hp Hr.
  destruct (Hwf p path Hp) as [Hf _]. specialize (HB p path Hp). lia.
Qed.

Lemma tier_empty_up paths d :
  wfArena paths -> 0 <= d -> tier paths d = [] -> tier paths (d + 1) = [].
Proof.
  intros Hwf Hd. rewrite !tier_empty by done. intros He p path Hp Hr.
  destruct (Hwf p path Hp) as [Hf _]. apply (He p path Hp). lia.
Qed.

Lemma tier_empty_down paths d :
  wfArena paths -> d <= 0 -> tier paths d = [] -> tier paths (d - 1) = [].
Proof.
  intros Hwf Hd. rewrite !tier_empty by done. intros He p path Hp Hr.
  destruct (Hwf p path Hp) as [Hf _]. apply (He p path Hp). lia.
Qed.

(** Once a round of the loop finds both its tiers empty, every later
    round would. *)
Lemma rounds_empty_after paths (j j' : nat) :
  wfArena paths ->
  tier paths (- Z.of_nat j) = [] -> tier paths (Z.of_nat j + 1) = [] ->
  (j <= j')%nat ->
  tier paths (- Z.of_nat j') = [] /\ tier paths (Z.of_nat j' + 1) = [].
Proof.
  intros Hwf Hd Hu. induction 1 as [|j' Hle [IHd IHu]]; [done|].
  split.
  - replace (- Z.of_nat (S j')) with (- Z.of_nat j' - 1) by lia.
    apply tier_empty_down; [done|lia|done].
  - replace (Z.of_nat (S j') + 1) with (Z.of_nat j' + 1 + 1) by lia.
    apply tier_empty_up; [done|lia|done].
Qed.

(** ** The order of the assignment loop *)

Lemma tierOrderFrom_S j n :
  tierOrderFrom j (S n) = [- Z.of_nat j; Z.of_nat j + 1] ++ tierOrderFrom (S j) n.
Proof. done. Qed.

Lemma tierOrderFrom_add j n1 n2 :
  tierOrderFrom j (n1 + n2) = tierOrderFrom j n1 ++ tierOrderFrom (j + n1) n2.
Proof. unfold tierOrderFrom. by rewrite seq_app, bind_app. Qed.

Lemma elem_of_tierOrderFrom j n d :
  d ∈ tierOrderFrom j n <->
  exists j', (j <= j' < j + n)%nat /\ (d = - Z.of_nat j' \/ d = Z.of_nat j' + 1).
Proof.
  unfold tierOrderFrom. rewrite list_elem_of_bind. split.
  - intros (j' & Hd & Hj'). apply elem_of_seq in Hj'. exists j'. split; [done|].
    apply elem_of_cons in Hd as [->|Hd]; [by left|].
    apply list_elem_of_singleton in Hd. by right.
  - intros (j' & Hj' & Hd). exists j'. split; [|by apply elem_of_seq].
    destruct Hd as [->| ->]; [left|right; left].
Qed.

Lemma NoDup_tierOrderFrom j n : NoDup (tierOrderFrom j n).
Proof.
  unfold tierOrderFrom. apply NoDup_bind; [| |apply NoDup_seq].
  - intros j1 j2 d _ _ H1 H2.
    apply elem_of_cons in H1 as [->|H1]; [|apply list_elem_of_singleton in H1 as ->];
      (apply elem_of_cons in H2 as [H2|H2]; [|apply list_elem_of_singleton in H2]); lia.
  - intros j' _. apply NoDup_cons. split; [|apply NoDup_singleton].
    intros Hd. apply list_elem_of_singleton in Hd. lia.
Qed.

Lemma rounds_empty_bind paths j n :
  (forall j', (j <= j')%nat ->
     tier paths (- Z.of_nat j') = [] /\ tier paths (Z.of_nat j' + 1) = []) ->
  tierOrderFrom j n ≫= tier paths = [].
Proof.
  revert j. induction n as [|n IH]; intros j He; [done|].
  rewrite tierOrderFrom_S, bind_app. rewrite IH by (intros; apply He; lia).
  destruct (He j) as [Hd Hu]; [lia|]. csimpl. by rewrite Hd, Hu.
Qed.

Lemma rounds_stable paths n1 n2 :
  (forall j', (n1 <= j')%nat ->
     tier paths (- Z.of_nat j') = [] /\ tier paths (Z.of_nat j' + 1) = []) ->
  (n1 <= n2)%nat ->
  tierOrder n2 ≫= tier paths = tierOrder n1 ≫= tier paths.
Proof.
  intros He Hle. unfold tierOrder.
  replace n2 with (n1 + (n2 - n1))%nat by lia.
  rewrite tierOrderFrom_add, bind_app, (rounds_empty_bind paths (0 + n1) (n2 - n1)).
  - by rewrite app_nil_r.
  - intros j' Hj'. apply He. lia.
Qed.

Lemma visitOrder_rounds paths dm (B : nat) :
  wfArena paths -> tiersOf dm paths ->
  (forall d, Z.of_nat B <= Z.abs d -> tier paths d = []) ->
  forall fuel j, (B < j + fuel)%nat -> (0 < fuel)%nat ->
  exists n,
    visitOrder fuel dm (- Z.of_nat j) (Z.of_nat j + 1)
      = Some (tierOrderFrom j n ≫= tier paths)
    /\ forall j', (j + n <= S j')%nat ->
         tier paths (- Z.of_nat j') = [] /\ tier paths (Z.of_nat j' + 1) = [].
Proof.
  intros Hwf [Hne Htier] Hfar fuel.
  induction fuel as [|fuel IH]; intros j HB Hpos; [lia|].
  cbn [visitOrder]. rewrite !Htier.
  destruct (decide (tier paths (- Z.of_nat j) = []
                    /\ tier paths (Z.of_nat j + 1) = [])) as [[Hd Hu]|Hsome].
  - rewrite !bool_decide_eq_false_2.
    2:{ rewrite tiersNonEmpty_is_Some, Htier by done. rewrite Hu. intros Hc. by apply Hc. }
    2:{ rewrite tiersNonEmpty_is_Some, Htier by done. rewrite Hd. intros Hc. by apply Hc. }
    simpl. exists 1%nat. split.
    + rewrite tierOrderFrom_S, bind_app. csimpl. by rewrite Hd, Hu.
    + intros j' Hj'. apply (rounds_empty_after paths j); [done..|lia].
  - assert (bool_decide (is_Some (dm !! (- Z.of_nat j)))
            || bool_decide (is_Some (dm !! (Z.of_nat j + 1))) = true) as ->.
    { apply orb_true_iff.
      destruct (decide (tier paths (- Z.of_nat j) = [])) as [Hd|Hd].
      - right. apply bool_decide_eq_true.
        rewrite tiersNonEmpty_is_Some, Htier by done. tauto.
      - left. apply bool_decide_eq_true.
        by rewrite tiersNonEmpty_is_Some, Htier by done. }
    assert (j < B)%nat as Hj.
    { destruct (decide (j < B)%nat); [done|]. exfalso. apply Hsome.
      split; apply Hfar; lia. }
    replace (- Z.of_nat j - 1) with (- Z.of_nat (S j)) by lia.
    replace (Z.of_nat j + 1 + 1) with (Z.of_nat (S j) + 1) by lia.
    destruct (IH (S j)) as (n & -> & He); [lia|lia|].
    exists (S n). split.
    + rewrite tierOrderFrom_S, bind_app. csimpl. by rewrite app_nil_r, <- app_assoc.
    + intros j' Hj'. apply He. lia.
Qed.

Lemma forEachR_getTier {S} (f : PathElemRef -> S -> Result S) dm d (st : S) :
  match dm !! d with
  | Some elems => forEachR f elems st
  | None => Ok st
  end = forEachR f (getTier dm d) st.
Proof. unfold getTier. by destruct (dm !! d). Qed.

Lemma assignLoop_visitOrder fuel dm downstream upstream st L :
  visitOrder fuel dm downstream upstream = Some L ->
  assignLoop fuel dm downstream upstream st = forEachR setIdx L st.
Proof.
  revert downstream upstream st L.
  induction fuel as [|fuel IH]; intros dn up st L; [done|].
  cbn [visitOrder assignLoop]. rewrite (forEachR_getTier setIdx dm dn).
  destruct (bool_decide (is_Some (dm !! dn)) || bool_decide (is_Some (dm !! up))).
  - destruct (visitOrder fuel dm (dn - 1) (up + 1)) as [L'|] eqn:HL'; [|done].
    simpl. intros [= <-]. rewrite <- app_assoc, forEachR_app.
    destruct (forEachR setIdx (getTier dm dn) st) as [st1|]; cbn [bindR]; [|done].
    rewrite (forEachR_getTier setIdx dm up), forEachR_app.
    destruct (forEachR setIdx (getTier dm up) st1) as [st2|]; cbn [bindR]; [|done].
    by apply IH.
  - intros [= <-]. rewrite forEachR_app.
    destruct (forEachR setIdx (getTier dm dn) st) as [st1|]; cbn [bindR]; [|done].
    rewrite (forEachR_getTier setIdx dm up).
    by destruct (forEachR setIdx (getTier dm up) st1).
Qed.

(** ** Writing to the arena *)

Lemma deref_store_eq paths r e :
  is_Some (deref paths r) -> deref (store paths r e) r = Some e.
Proof.
  unfold deref, store. rewrite list_lookup_alter_eq.
  destruct (paths !! r.1) as [path|]; simpl; [|by intros [? ?]].
  intros Hr. apply list_lookup_insert_eq. by apply lookup_lt_is_Some.
Qed.

Lemma deref_store_ne paths r r' e :
  r <> r' -> deref (store paths r e) r' = deref paths r'.
Proof.
  intros Hne. unfold deref, store.
  destruct (decide (r.1 = r'.1)) as [Heq|Hp].
  - rewrite <- Heq, list_lookup_alter_eq.
    destruct (paths !! r.1) as [path|]; simpl; [|done].
    apply list_lookup_insert_ne. intros Hi. apply Hne.
    destruct r, r'; simpl in *; congruence.
  - by rewrite list_lookup_alter_ne.
Qed.

Lemma erase_store paths r e e0 :
  deref paths r = Some e0 -> eraseElem e = eraseElem e0 ->
  erase (store paths r e) = erase paths.
Proof.
  unfold deref, store, erase. intros Hr He. apply list_eq. intros k.
  rewrite !list_lookup_fmap.
  destruct (decide (r.1 = k)) as [<-|Hk].
  - rewrite list_lookup_alter_eq.
    destruct (paths !! r.1) as [path|]; simpl in *; [|done].
    f_equal. unfold erasePath. simpl. f_equal.
    rewrite list_fmap_insert. apply list_insert_id.
    by rewrite list_lookup_fmap, Hr, He.
  - by rewrite list_lookup_alter_ne.
Qed.

(** ** Assigning the indices *)

Lemma JsMap_set_fresh (b : nat) (vs : list PathElemRef) (r : PathElemRef) :
  JsMap.set (b + length vs)%nat r (zip (seq b (length vs)) vs)
  = zip (seq b (S (length vs))) (vs ++ [r]).
Proof.
  revert b. induction vs as [|v vs IH]; intros b; simpl.
  - by rewrite Nat.add_0_r.
  - rewrite decide_False by lia. f_equal.
    replace (b + S (length vs))%nat with (S b + length vs)%nat by lia.
    apply IH.
Qed.

Lemma setIdx_unset r st e :
  deref (as_paths st) r = Some e -> PathElem._visibilityIdx e = None ->
  setIdx r st =
    Ok (mkAssign
          (store (as_paths st) r
             (PathElem.mk (PathElem.memberIdx e) (PathElem.memberOf e)
                          (PathElem.operation e) (Some (as_visIdx st))))
          (S (as_visIdx st))
          (JsMap.set (as_visIdx st) r (as_visIdxToPathElem st))).
Proof.
  intros Hr He. unfold setIdx, PathElem.set_visibilityIdx. by rewrite Hr, He.
Qed.

Lemma forEachR_setIdx L paths vs :
  NoDup L ->
  (forall r, r ∈ L ->
     exists e, deref paths r = Some e /\ PathElem._visibilityIdx e = None) ->
  exists paths',
    forEachR setIdx L (mkAssign paths (length vs) (zip (seq 0 (length vs)) vs))
      = Ok (mkAssign paths' (length (vs ++ L))
              (zip (seq 0 (length (vs ++ L))) (vs ++ L)))
    /\ erase paths' = erase paths
    /\ (forall r, r ∉ L -> deref paths' r = deref paths r)
    /\ (forall k r, L !! k = Some r ->
          exists e, deref paths' r = Some e
                    /\ PathElem._visibilityIdx e = Some (length vs + k)%nat).
Proof.
  revert paths vs. induction L as [|r L IH]; intros paths vs Hnd Hun.
  - exists paths. rewrite app_nil_r. by repeat split.
  - apply NoDup_cons in Hnd as [HrL Hnd].
    destruct (Hun r) as (e & Hr & He); [left|].
    cbn [forEachR].
    rewrite (setIdx_unset r (mkAssign paths (length vs) (zip (seq 0 (length vs)) vs))
               e Hr He).
    cbn [bindR as_paths as_visIdx as_visIdxToPathElem].
    set (e' := PathElem.mk _ _ _ _).
    pose proof (JsMap_set_fresh 0 vs r) as Hset. cbn [Nat.add] in Hset.
    rewrite Hset. clear Hset.
    replace (S (length vs)) with (length (vs ++ [r])) by (rewrite length_app; simpl; lia).
    destruct (IH (store paths r e') (vs ++ [r]) Hnd) as (paths' & -> & Her & Hoth & Hk).
    { intros r' Hr'. rewrite deref_store_ne by (intros ->; done).
      apply Hun. by right. }
    exists paths'. rewrite <- !app_assoc. simpl.
    split; [done|]. split; [|split].
    + rewrite Her. by eapply erase_store.
    + intros r' Hr'. apply not_elem_of_cons in Hr' as [Hne Hr'].
      rewrite Hoth by done. by apply deref_store_ne.
    + intros [|k] r'; simpl.
      * intros [= <-]. exists e'. rewrite Hoth by done.
        rewrite deref_store_eq by (by rewrite Hr). split; [done|].
        simpl. by rewrite Nat.add_0_r.
      * intros Hk'. destruct (Hk k r' Hk') as (e'' & Hd & Hv).
        exists e''. split; [done|]. rewrite Hv, length_app. simpl. f_equal. lia.
Qed.

Lemma NoDup_tiers paths ds :
  wfArena paths -> NoDup ds -> NoDup (ds ≫= tier paths).
Proof.
  intros Hwf Hds. apply NoDup_bind; [|intros; by apply NoDup_tier|done].
  intros d1 d2 r _ _ H1 H2.
  apply elem_of_tier in H1 as [_ H1]; [|done].
  apply elem_of_tier in H2 as [_ H2]; [|done]. congruence.
Qed.

Lemma elem_of_tiers paths ds r :
  wfArena paths ->
  r ∈ ds ≫= tier paths <->
  exists d, d ∈ ds /\ is_Some (deref paths r) /\ distance paths r = Some d.
Proof.
  intros Hwf. rewrite list_elem_of_bind. split.
  - intros (d & Hr & Hd). apply elem_of_tier in Hr; [|done]. by exists d.
  - intros (d & Hd & Hr). exists d. split; [|done]. by apply elem_of_tier.
Qed.

Lemma length_le_concat {A} (l : list A) (ls : list (list A)) :
  l ∈ ls -> (length l <= length (concat ls))%nat.
Proof.
  induction 1 as [l ls|l l' ls Hin IH]; simpl; rewrite length_app; lia.
Qed.

Lemma parsedFrom_length_bound focal (payload : TDdgPayload) p path :
  parsedFrom focal 0 (sort comparePaths payload) !! p = Some path ->
  (length (members path) <= length (concat payload))%nat.
Proof.
  rewrite lookup_parsedFrom.
  destruct (sort comparePaths payload !! p) as [es|] eqn:Hes; simpl; [|done].
  intros [= <-]. simpl. rewrite length_membersOf.
  apply length_le_concat. rewrite <- (sort_Permutation comparePaths payload).
  by eapply list_elem_of_lookup_2.
Qed.

Lemma sorted_hasFocal focal (payload : TDdgPayload) :
  Forall (hasFocal focal) (sort comparePaths payload) <-> Forall (hasFocal focal) payload.
Proof. by rewrite (sort_Permutation comparePaths payload). Qed.

Lemma parsed_far_empty focal payload d :
  Forall (hasFocal focal) payload ->
  Z.of_nat (length (concat payload)) <= Z.abs d ->
  tier (parsedFrom focal 0 (sort comparePaths payload)) d = [].
Proof.
  intros Hall. apply tier_empty_far.
  - by apply parsedFrom_wf, sorted_hasFocal.
  - apply parsedFrom_length_bound.
Qed.

(** What the transform returns on a payload all of whose paths contain the
    focal node. *)
Lemma transformDdgData_spec payload focal :
  Forall (hasFocal focal) payload ->
  exists m,
    transformDdgData payload focal = Ok m
    /\ erase (DdgModel.paths m) = parsedFrom focal 0 (sort comparePaths payload)
    /\ tiersOf (DdgModel.distanceToPathElems m)
                (parsedFrom focal 0 (sort comparePaths payload))
    /\ DdgModel.visIdxToPathElem m
        = zip (seq 0 (length (visitedOrder focal payload))) (visitedOrder focal payload)
    /\ forall k r, visitedOrder focal payload !! k = Some r ->
          exists e, deref (DdgModel.paths m) r = Some e
                    /\ PathElem._visibilityIdx e = Some k.
Proof.
  intros Hall. unfold transformDdgData.
  pose proof (proj2 (sorted_hasFocal focal payload) Hall) as Hsorted.
  destruct (forEachR_parsePath_ok focal (sort comparePaths payload) [] ∅ ∅ Hsorted)
    as (sm & dm & -> & Hne & Htier); [by intros d l|].
  cbn [bindR app length]. set (paths0 := parsedFrom focal 0 _) in *.
  assert (wfArena paths0) as Hwf by (by apply parsedFrom_wf).
  assert (tiersOf dm paths0) as Hof by (split; [done|apply Htier]).
  destruct (visitOrder_rounds paths0 dm (length (concat payload)) Hwf Hof
              (fun d => parsed_far_empty focal payload d Hall)
              (S (length (concat payload))) 0%nat) as (n & Hvisit & Hempty); [lia..|].
  change (- Z.of_nat 0) with 0 in Hvisit. change (Z.of_nat 0 + 1) with 1 in Hvisit.
  rewrite (assignLoop_visitOrder _ _ _ _ _ _ Hvisit).
  assert (tierOrderFrom 0 n ≫= tier paths0 = visitedOrder focal payload) as ->.
  { unfold visitedOrder. fold paths0. change (tierOrderFrom 0 n) with (tierOrder n).
    set (K := length (concat payload)).
    rewrite <- (rounds_stable paths0 n (max n K)); [|intros; apply Hempty; lia|lia].
    apply rounds_stable; [|lia].
    intros j' Hj'. split; apply parsed_far_empty; try done; fold K; lia. }
  destruct (forEachR_setIdx (visitedOrder focal payload) paths0 [])
    as (paths' & Hrun & Her & _ & Hk).
  { apply NoDup_tiers; [done|apply NoDup_tierOrderFrom]. }
  { intros r Hr. apply elem_of_tiers in Hr as (d & _ & [e He] & _); [|done].
    exists e. split; [done|]. by eapply parsedFrom_unset. }
  simpl in Hrun. rewrite Hrun. cbn [bindR]. eexists. split; [done|]. simpl.
  split; [rewrite Her; apply erase_parsedFrom|]. by repeat split.
Qed.

Lemma hasFocal_focalFrom focal es : hasFocal focal es <-> is_Some (focalFrom focal 0 es).
Proof.
  split; [apply focalFrom_is_Some|]. intros [k Hk]. by eapply focalFrom_hasFocal.
Qed.

Lemma Forall_hasFocal_cases focal (payload : TDdgPayload) :
  Forall (hasFocal focal) payload
  \/ exists es, es ∈ payload /\ ~ hasFocal focal es.
Proof.
  induction payload as [|es payload IH]; [by left|].
  destruct (focalFrom focal 0 es) as [k|] eqn:Hk.
  - destruct IH as [Hall|(es' & Hes' & Hn)].
    + left. constructor; [by eapply focalFrom_hasFocal|done].
    + right. exists es'. split; [by right|done].
  - right. exists es. split; [left|]. by apply (focalFrom_None focal 0).
Qed.

Lemma transformDdgData_throw payload focal :
  ~ Forall (hasFocal focal) payload ->
  transformDdgData payload focal = Throw MissingFocalNode.
Proof.
  intros Hn. unfold transformDdgData.
  rewrite forEachR_parsePath_throw; [done|]. by rewrite sorted_hasFocal.
Qed.

Lemma transformDdgData_Ok_hasFocal payload focal m :
  transformDdgData payload focal = Ok m -> Forall (hasFocal focal) payload.
Proof.
  intros Hm. destruct (Forall_hasFocal_cases focal payload) as [|(es & Hes & Hn)]; [done|].
  rewrite transformDdgData_throw in Hm; [done|].
  intros Hall. rewrite Forall_forall in Hall. by apply Hn, Hall.
Qed.

(** C7. [transformDdgData] throws exactly when some path of the payload has
    no entry matching the focal selector, and the exception is the one for
    the missing focal node; when it returns, the path parsed from each
    payload path has as [focalIdx] the lowest offset of a matching entry. *)
Theorem transformDdgData_missing_focal payload focal :
  (throws (transformDdgData payload focal)
     <-> exists es, es ∈ payload /\ ~ hasFocal focal es)
  /\ (forall e, transformDdgData payload focal = Throw e -> e = MissingFocalNode)
  /\ (forall m, transformDdgData payload focal = Ok m ->
      forall p es, sort comparePaths payload !! p = Some es ->
      exists path k entry,
        DdgModel.paths m !! p = Some path
        /\ PathElem.operation <$> members path = opRefOf <$> es
        /\ focalIdx path = Z.of_nat k
        /\ es !! k = Some entry /\ isFocal focal entry = true
        /\ forall j entry', es !! j = Some entry' -> (j < k)%nat ->
             isFocal focal entry' = false).
Proof.
  destruct (Forall_hasFocal_cases focal payload) as [Hall|(es0 & Hes0 & Hn0)].
  - destruct (transformDdgData_spec payload focal Hall) as (m & Hm & Her & _).
    rewrite Hm. split; [|split].
    + split; [by intros [e He]|]. intros (es & Hes & Hnf). exfalso.
      rewrite Forall_forall in Hall. by apply Hnf, Hall.
    + by intros e.
    + intros m' [= <-] p es Hes.
      assert (erase (DdgModel.paths m) !! p
              = Some (mkPath (from_option Z.of_nat (-1) (focalFrom focal 0 es))
                             (membersOf p 0 es))) as Hp.
      { by rewrite Her, lookup_parsedFrom, Hes. }
      unfold erase in Hp. rewrite list_lookup_fmap in Hp.
      destruct (DdgModel.paths m !! p) as [path|]; [|done].
      injection Hp as Hf Hms.
      assert (hasFocal focal es) as Hfoc.
      { apply sorted_hasFocal in Hall. rewrite Forall_forall in Hall.
        apply Hall. by eapply list_elem_of_lookup_2. }
      destruct (focalFrom_is_Some focal 0 es Hfoc) as [k Hk].
      rewrite Hk in Hf. simpl in Hf.
      apply focalFrom_Some in Hk as (_ & (entry & Hentry & Hfe) & Hmin).
      rewrite Nat.sub_0_r in Hentry.
      exists path, k, entry. split; [done|]. split; [|by repeat split; eauto].
      transitivity (PathElem.operation <$> (eraseElem <$> members path)).
      { rewrite <- list_fmap_compose. by apply list_fmap_ext. }
      rewrite Hms. clear. generalize 0%nat.
      induction es as [|e es IH]; intros i; simpl; [done|]. by rewrite IH.
  - rewrite (transformDdgData_throw payload focal).
    2:{ intros Hall. rewrite Forall_forall in Hall. by apply Hn0, Hall. }
    split; [|split].
    + split; [|by eexists]. intros _. by exists es0.
    + by intros e [= <-].
    + by intros m.
Qed.

(** ** The visibility index space *)

Lemma JsMap_get_zip (b : nat) (vs : list PathElemRef) (i : nat) :
  JsMap.get i (zip (seq b (length vs)) vs)
  = if decide (b <= i)%nat then vs !! (i - b)%nat else None.
Proof.
  revert b. induction vs as [|v vs IH]; intros b; simpl.
  - by case_decide.
  - destruct (decide (i = b)) as [->|Hne].
    + rewrite decide_True by lia. by rewrite Nat.sub_diag.
    + rewrite IH. destruct (decide (b <= i)%nat).
      * rewrite decide_True by lia.
        by replace (i - b)%nat with (S (i - S b)) by lia.
      * by rewrite decide_False by lia.
Qed.

Lemma allRefs_erase paths : allRefs (erase paths) = allRefs paths.
Proof.
  unfold allRefs, erase. induction paths as [|path paths IH]; [done|].
  rewrite fmap_cons, !bind_cons, IH. f_equal. simpl.
  rewrite <- list_fmap_compose. by apply list_fmap_ext.
Qed.

Lemma distance_is_Some paths r : is_Some (deref paths r) -> is_Some (distance paths r).
Proof.
  unfold deref, distance. destruct (paths !! r.1); simpl; [eauto|by intros [? ?]].
Qed.

Lemma elem_of_visitedOrder focal payload r :
  Forall (hasFocal focal) payload ->
  r ∈ visitedOrder focal payload
  <-> is_Some (deref (parsedFrom focal 0 (sort comparePaths payload)) r).
Proof.
  intros Hall. unfold visitedOrder.
  set (paths0 := parsedFrom focal 0 _).
  assert (wfArena paths0) as Hwf by (by apply parsedFrom_wf, sorted_hasFocal).
  rewrite elem_of_tiers by done. split; [by intros (d & _ & Hr & _)|].
  intros Hr. destruct (distance_is_Some _ _ Hr) as [d Hd].
  exists d. split; [|done].
  assert (Z.abs d < Z.of_nat (length (concat payload))) as Hlt.
  { destruct (decide (Z.abs d < Z.of_nat (length (concat payload)))); [done|].
    assert (r ∈ tier paths0 d) as Hin by (by apply elem_of_tier).
    unfold paths0 in Hin.
    rewrite (parsed_far_empty focal payload d Hall) in Hin by lia.
    by apply elem_of_nil in Hin. }
  apply elem_of_tierOrderFrom.
  destruct (decide (d <= 0)).
  - exists (Z.to_nat (- d)). split; [lia|]. left. lia.
  - exists (Z.to_nat (d - 1)). split; [lia|]. right. lia.
Qed.

Lemma NoDup_visitedOrder focal payload :
  Forall (hasFocal focal) payload -> NoDup (visitedOrder focal payload).
Proof.
  intros Hall. apply NoDup_tiers; [|apply NoDup_tierOrderFrom].
  by apply parsedFrom_wf, sorted_hasFocal.
Qed.

Lemma length_visitedOrder focal payload :
  Forall (hasFocal focal) payload ->
  length (visitedOrder focal payload)
  = length (allRefs (parsedFrom focal 0 (sort comparePaths payload))).
Proof.
  intros Hall. apply Permutation_length, NoDup_Permutation.
  - by apply NoDup_visitedOrder.
  - by apply NoDup_allRefs, parsedFrom_wf, sorted_hasFocal.
  - intros r. rewrite elem_of_visitedOrder by done.
    rewrite elem_of_allRefs; [done|]. by apply parsedFrom_wf, sorted_hasFocal.
Qed.

(** Sortedness of a concatenation. *)
Lemma StronglySorted_app_2 {A} (R : A -> A -> Prop) (l1 l2 : list A) :
  StronglySorted R l1 -> StronglySorted R l2 ->
  (forall x y, x ∈ l1 -> y ∈ l2 -> R x y) ->
  StronglySorted R (l1 ++ l2).
Proof.
  induction 1 as [|x l1 Hs IH Hx]; intros H2 Hc; simpl; [done|].
  constructor.
  - apply IH; [done|]. intros a b Ha Hb. apply Hc; [by right|done].
  - apply Forall_app. split; [done|].
    apply Forall_forall. intros y Hy. apply Hc; [left|done].
Qed.

Lemma StronglySorted_const {A} (R : A -> A -> Prop) (l : list A) (c : A) :
  R c c -> (forall x, x ∈ l -> x = c) -> StronglySorted R l.
Proof.
  intros Hc. induction l as [|x l IH]; intros Hl; constructor.
  - apply IH. intros y Hy. apply Hl. by right.
  - apply Forall_forall. intros y Hy.
    rewrite (Hl x) by left. rewrite (Hl y) by (by right). done.
Qed.

Lemma StronglySorted_lookup {A} (R : A -> A -> Prop) (l : list A) i j x y :
  StronglySorted R l -> l !! i = Some x -> l !! j = Some y -> (i < j)%nat -> R x y.
Proof.
  intros Hs. revert i j. induction Hs as [|a l Hs IH Ha]; intros i j; [done|].
  destruct i as [|i], j as [|j]; simpl; try lia.
  - intros [= <-] Hy _. rewrite Forall_forall in Ha.
    apply Ha. by eapply list_elem_of_lookup_2.
  - intros Hx Hy Hlt. apply (IH i j); [done..|lia].
Qed.

Lemma absDistance_tier paths d r :
  wfArena paths -> r ∈ tier paths d -> absDistance paths r = Z.abs d.
Proof.
  intros Hwf Hr. apply elem_of_tier in Hr as [_ Hd]; [|done].
  unfold absDistance. by rewrite Hd.
Qed.

Lemma rounds_sorted paths j n :
  wfArena paths ->
  StronglySorted Z.le (absDistance paths <$> (tierOrderFrom j n ≫= tier paths))
  /\ forall r, r ∈ tierOrderFrom j n ≫= tier paths -> Z.of_nat j <= absDistance paths r.
Proof.
  intros Hwf. revert j. induction n as [|n IH]; intros j.
  - split; [constructor|]. intros r Hr. by apply elem_of_nil in Hr.
  - destruct (IH (S j)) as [Hs Hlb].
    rewrite tierOrderFrom_S, bind_app. csimpl. rewrite app_nil_r, <- app_assoc.
    split.
    + rewrite !fmap_app.
      apply StronglySorted_app_2; [|apply StronglySorted_app_2|].
      * apply (StronglySorted_const _ _ (Z.of_nat j)); [lia|].
        intros x Hx. apply list_elem_of_fmap in Hx as (r & -> & Hr).
        rewrite (absDistance_tier paths (- Z.of_nat j)) by done. lia.
      * apply (StronglySorted_const _ _ (Z.of_nat j + 1)); [lia|].
        intros x Hx. apply list_elem_of_fmap in Hx as (r & -> & Hr).
        rewrite (absDistance_tier paths (Z.of_nat j + 1)) by done. lia.
      * done.
      * intros x y Hx Hy.
        apply list_elem_of_fmap in Hx as (r & -> & Hr).
        apply list_elem_of_fmap in Hy as (r' & -> & Hr').
        rewrite (absDistance_tier paths (Z.of_nat j + 1) r) by done.
        apply Hlb in Hr'. lia.
      * intros x y Hx Hy.
        apply list_elem_of_fmap in Hx as (r & -> & Hr).
        rewrite (absDistance_tier paths (- Z.of_nat j) r) by done.
        rewrite <- fmap_app in Hy.
        apply list_elem_of_fmap in Hy as (r' & -> & Hr').
        apply elem_of_app in Hr' as [Hr'|Hr'].
        -- rewrite (absDistance_tier paths (Z.of_nat j + 1) r') by done. lia.
        -- apply Hlb in Hr'. lia.
    + intros r Hr. apply elem_of_app in Hr as [Hr|Hr]; [|apply elem_of_app in Hr as [Hr|Hr]].
      * rewrite (absDistance_tier paths (- Z.of_nat j)) by done. lia.
      * rewrite (absDistance_tier paths (Z.of_nat j + 1)) by done. lia.
      * apply Hlb in Hr. lia.
Qed.

Lemma absDistance_erase paths r : absDistance (erase paths) r = absDistance paths r.
Proof. unfold absDistance. by rewrite distance_erase. Qed.

Lemma deref_erase_is_Some paths r :
  is_Some (deref (erase paths) r) <-> is_Some (deref paths r).
Proof. rewrite deref_erase. by rewrite fmap_is_Some. Qed.

(** The facts about a returned model that the theorems below share. *)
Lemma transformDdgData_indices payload focal m :
  transformDdgData payload focal = Ok m ->
  let order := visitedOrder focal payload in
  let paths0 := parsedFrom focal 0 (sort comparePaths payload) in
  erase (DdgModel.paths m) = paths0
  /\ wfArena paths0
  /\ NoDup order
  /\ length order = length (allRefs (DdgModel.paths m))
  /\ DdgModel.visIdxToPathElem m = zip (seq 0 (length order)) order
  /\ (forall i r, JsMap.get i (DdgModel.visIdxToPathElem m) = Some r <-> order !! i = Some r)
  /\ (forall r, r ∈ order <-> r ∈ allRefs (DdgModel.paths m))
  /\ (forall r i, visibilityIdxOf (DdgModel.paths m) r = Ok i <-> order !! i = Some r).
Proof.
  intros Hm. cbv zeta.
  pose proof (transformDdgData_Ok_hasFocal _ _ _ Hm) as Hall.
  destruct (transformDdgData_spec payload focal Hall) as (m' & Hm' & Her & _ & Hmap & Hk).
  rewrite Hm in Hm'. injection Hm' as <-.
  assert (wfArena (parsedFrom focal 0 (sort comparePaths payload))) as Hwf
    by (by apply parsedFrom_wf, sorted_hasFocal).
  assert (forall r, r ∈ visitedOrder focal payload <-> r ∈ allRefs (DdgModel.paths m)) as Hin.
  { intros r. rewrite elem_of_visitedOrder by done.
    rewrite <- allRefs_erase, Her. by rewrite elem_of_allRefs. }
  split; [done|]. split; [done|]. split; [by apply NoDup_visitedOrder|].
  split; [by rewrite <- allRefs_erase, Her; apply length_visitedOrder|].
  split; [done|]. split; [|split; [done|]].
  - intros i r. rewrite Hmap, (JsMap_get_zip 0).
    rewrite decide_True by lia. by rewrite Nat.sub_0_r.
  - intros r i. split.
    + unfold visibilityIdxOf. destruct (deref (DdgModel.paths m) r) as [e|] eqn:He; [|done].
      intros Hv.
      assert (r ∈ visitedOrder focal payload) as Hr.
      { rewrite elem_of_visitedOrder by done.
        rewrite <- Her, deref_erase, He. by eexists. }
      apply list_elem_of_lookup in Hr as [k Hr].
      destruct (Hk k r Hr) as (e' & He' & Hv'). rewrite He in He'. injection He' as <-.
      unfold PathElem.visibilityIdx in Hv. rewrite Hv' in Hv. by injection Hv as <-.
    + intros Hr. destruct (Hk i r Hr) as (e & He & Hv).
      unfold visibilityIdxOf, PathElem.visibilityIdx. by rewrite He, Hv.
Qed.

Lemma length_allRefs_membersOf focal p l :
  length (allRefs (parsedFrom focal p l)) = length (concat l).
Proof.
  revert p. induction l as [|es l IH]; intros p; [done|].
  cbn [parsedFrom concat]. unfold allRefs in *. rewrite bind_cons, !length_app.
  cbn [members]. rewrite length_fmap, length_membersOf. by rewrite IH.
Qed.

Lemma length_allRefs_erase paths : length (allRefs (erase paths)) = length (allRefs paths).
Proof. by rewrite allRefs_erase. Qed.

Lemma transformDdgData_counts payload focal m :
  transformDdgData payload focal = Ok m ->
  length (DdgModel.paths m) = length payload
  /\ length (allRefs (DdgModel.paths m)) = length (concat payload).
Proof.
  intros Hm. destruct (transformDdgData_indices payload focal m Hm) as (Her & _).
  split.
  - rewrite <- (length_fmap erasePath). fold (erase (DdgModel.paths m)).
    rewrite Her, length_parsedFrom. by rewrite (sort_Permutation comparePaths payload).
  - rewrite <- length_allRefs_erase, Her, length_allRefs_membersOf.
    assert (concat (sort comparePaths payload) ≡ₚ concat payload) as ->; [|done].
    by rewrite (sort_Permutation comparePaths payload).
Qed.

Lemma transformDdgData_members payload focal m p es :
  transformDdgData payload focal = Ok m ->
  sort comparePaths payload !! p = Some es ->
  exists path,
    DdgModel.paths m !! p = Some path
    /\ PathElem.operation <$> members path = opRefOf <$> es.
Proof.
  intros Hm Hes. destruct (transformDdgData_indices payload focal m Hm) as (Her & _).
  assert (erase (DdgModel.paths m) !! p
          = Some (mkPath (from_option Z.of_nat (-1) (focalFrom focal 0 es))
                         (membersOf p 0 es))) as Hp.
  { by rewrite Her, lookup_parsedFrom, Hes. }
  unfold erase in Hp. rewrite list_lookup_fmap in Hp.
  destruct (DdgModel.paths m !! p) as [path|]; [|done].
  injection Hp as _ Hms. exists path. split; [done|].
  transitivity (PathElem.operation <$> (eraseElem <$> members path)).
  { rewrite <- list_fmap_compose. by apply list_fmap_ext. }
  rewrite Hms. clear. generalize 0%nat.
  induction es as [|e es IH]; intros i; simpl; [done|]. by rewrite IH.
Qed.

(** C1. On a payload all of whose paths contain the focal node the
    transform returns a model in which: there is one path for each payload
    path and one [PathElem] for each payload entry, the elements of the
    path at a position having the operations of the entries of the payload
    path sorted to that position; the keys of [visIdxToPathElem] are
    0, ..., N-1 for the number N of [PathElem]s in all paths; every
    [PathElem] holds a visibility index, the indices held are exactly those
    below N, and no two elements hold the same one; [visIdxToPathElem] maps
    [i] to the [PathElem] that holds [i], and only to it; and [|distance|]
    does not decrease as the visibility index grows. *)
Theorem visibility_indices_dense_and_monotone payload focal :
  Forall (hasFocal focal) payload ->
  exists m,
    transformDdgData payload focal = Ok m
    /\ length (DdgModel.paths m) = length payload
    /\ length (allRefs (DdgModel.paths m)) = length (concat payload)
    /\ (forall p es, sort comparePaths payload !! p = Some es ->
          exists path,
            DdgModel.paths m !! p = Some path
            /\ PathElem.operation <$> members path = opRefOf <$> es)
    /\ (DdgModel.visIdxToPathElem m).*1 = seq 0 (length (allRefs (DdgModel.paths m)))
    /\ (forall r, r ∈ allRefs (DdgModel.paths m) ->
          exists i, visibilityIdxOf (DdgModel.paths m) r = Ok i)
    /\ (forall i, (i < length (allRefs (DdgModel.paths m)))%nat <->
          exists r, visibilityIdxOf (DdgModel.paths m) r = Ok i)
    /\ (forall r r' i,
          visibilityIdxOf (DdgModel.paths m) r = Ok i ->
          visibilityIdxOf (DdgModel.paths m) r' = Ok i -> r = r')
    /\ (forall i r,
          JsMap.get i (DdgModel.visIdxToPathElem m) = Some r
          <-> visibilityIdxOf (DdgModel.paths m) r = Ok i)
    /\ (forall r r' i j,
          visibilityIdxOf (DdgModel.paths m) r = Ok i ->
          visibilityIdxOf (DdgModel.paths m) r' = Ok j ->
          (i <= j)%nat ->
          absDistance (DdgModel.paths m) r <= absDistance (DdgModel.paths m) r').
Proof.
  intros Hall.
  destruct (transformDdgData_spec payload focal Hall) as (m & Hm & _).
  exists m. split; [done|].
  destruct (transformDdgData_counts payload focal m Hm) as [Hpaths Hcount].
  split; [done|]. split; [done|].
  split; [intros p es Hes; by apply (transformDdgData_members payload focal)|].
  destruct (transformDdgData_indices payload focal m Hm)
    as (Her & Hwf & Hnd & Hlen & Hmap & Hget & Hin & Hvis).
  split; [|split; [|split; [|split; [|split]]]].
  - rewrite Hmap, <- Hlen. apply fst_zip. by rewrite length_seq.
  - intros r Hr. apply Hin, list_elem_of_lookup in Hr as [i Hi].
    exists i. by apply Hvis.
  - intros i. rewrite <- Hlen. split.
    + intros Hi. apply lookup_lt_is_Some_2 in Hi as [r Hr]. exists r. by apply Hvis.
    + intros [r Hr]. apply Hvis in Hr. by eapply lookup_lt_Some.
  - intros r r' i Hr Hr'. apply Hvis in Hr, Hr'. congruence.
  - intros i r. by rewrite Hget, Hvis.
  - intros r r' i j Hr Hr' Hle. apply Hvis in Hr, Hr'.
    destruct (decide (i = j)) as [->|Hne]; [by replace r' with r by congruence|].
    rewrite <- (absDistance_erase _ r), <- (absDistance_erase _ r'), Her.
    destruct (rounds_sorted _ 0 (length (concat payload)) Hwf) as [Hs _].
    eapply (StronglySorted_lookup Z.le _ i j); [exact Hs| | |lia].
    + rewrite list_lookup_fmap. unfold visitedOrder, tierOrder in Hr. by rewrite Hr.
    + rewrite list_lookup_fmap. unfold visitedOrder, tierOrder in Hr'. by rewrite Hr'.
Qed.

Lemma scenarioA_hasFocal : Forall (hasFocal scenarioA_focal) scenarioA_payload.
Proof.
  repeat constructor. exists (mkEntry "opB" "B").
  split; [|reflexivity]. right. left.
Defined.

Lemma visibility_indices_dense_and_monotone_witness :
  Forall (hasFocal scenarioA_focal) scenarioA_payload
  /\ exists m,
    transformDdgData scenarioA_payload scenarioA_focal = Ok m
    /\ length (DdgModel.paths m) = length scenarioA_payload
    /\ length (allRefs (DdgModel.paths m)) = length (concat scenarioA_payload)
    /\ (forall p es, sort comparePaths scenarioA_payload !! p = Some es ->
          exists path,
            DdgModel.paths m !! p = Some path
            /\ PathElem.operation <$> members path = opRefOf <$> es)
    /\ (DdgModel.visIdxToPathElem m).*1 = seq 0 (length (allRefs (DdgModel.paths m)))
    /\ (forall r, r ∈ allRefs (DdgModel.paths m) ->
          exists i, visibilityIdxOf (DdgModel.paths m) r = Ok i)
    /\ (forall i, (i < length (allRefs (DdgModel.paths m)))%nat <->
          exists r, visibilityIdxOf (DdgModel.paths m) r = Ok i)
    /\ (forall r r' i,
          visibilityIdxOf (DdgModel.paths m) r = Ok i ->
          visibilityIdxOf (DdgModel.paths m) r' = Ok i -> r = r')
    /\ (forall i r,
          JsMap.get i (DdgModel.visIdxToPathElem m) = Some r
          <-> visibilityIdxOf (DdgModel.paths m) r = Ok i)
    /\ (forall r r' i j,
          visibilityIdxOf (DdgModel.paths m) r = Ok i ->
          visibilityIdxOf (DdgModel.paths m) r' = Ok j ->
          (i <= j)%nat ->
          absDistance (DdgModel.paths m) r <= absDistance (DdgModel.paths m) r').
Proof.
  split; [exact scenarioA_hasFocal|].
  exact (visibility_indices_dense_and_monotone
           scenarioA_payload scenarioA_focal scenarioA_hasFocal).
Defined.

(** ** The order of the tiers *)

Lemma visitedOrder_rounds focal (payload : TDdgPayload) (K : nat) :
  Forall (hasFocal focal) payload ->
  (forall es, es ∈ payload -> (length es <= K)%nat) ->
  visitedOrder focal payload
  = tierOrder K ≫= tier (parsedFrom focal 0 (sort comparePaths payload)).
Proof.
  intros Hall HK. unfold visitedOrder.
  assert (wfArena (parsedFrom focal 0 (sort comparePaths payload))) as Hwf
    by (by apply parsedFrom_wf, sorted_hasFocal).
  set (K0 := length (concat payload)).
  rewrite <- (rounds_stable _ K0 (max K0 K)); [|intros j' Hj'|lia].
  - apply rounds_stable; [|lia].
    intros j' Hj'. split; (apply (tier_empty_far _ K); [done| |lia]).
    all: intros p path; rewrite lookup_parsedFrom;
      destruct (sort comparePaths payload !! p) as [es|] eqn:Hes; simpl; [|done];
      intros [= <-]; simpl; rewrite length_membersOf; apply HK;
      rewrite <- (sort_Permutation comparePaths payload);
      by eapply list_elem_of_lookup_2.
  - split; apply parsed_far_empty; try done; fold K0; lia.
Qed.

(** C2, as amended. Listed by ascending visibility index (the keys of
    [visIdxToPathElem] are consecutive from 0), the elements are those of the
    tier at distance 0, then 1, then -1, then 2, then -2, and so on: round
    [j] of the loop takes the tier at distance [-j] and then the one at
    distance [j + 1]; each tier is taken whole, in the order of the
    parsed paths, before the next. *)
Theorem visibility_order_by_tiers payload focal m (K : nat) :
  transformDdgData payload focal = Ok m ->
  (forall es, es ∈ payload -> (length es <= K)%nat) ->
  JsMap.values (DdgModel.visIdxToPathElem m) = tierOrder K ≫= tier (DdgModel.paths m)
  /\ (DdgModel.visIdxToPathElem m).*1 = seq 0 (length (DdgModel.visIdxToPathElem m)).
Proof.
  intros Hm HK.
  pose proof (transformDdgData_Ok_hasFocal _ _ _ Hm) as Hall.
  destruct (transformDdgData_indices payload focal m Hm)
    as (Her & Hwf & Hnd & Hlen & Hmap & _).
  assert (tierOrder K ≫= tier (DdgModel.paths m) = visitedOrder focal payload) as ->.
  { rewrite (visitedOrder_rounds focal payload K Hall HK), <- Her.
    apply list_bind_ext; [|done]. intros d. by rewrite tier_erase. }
  rewrite Hmap. unfold JsMap.values.
  rewrite snd_zip by (by rewrite length_seq).
  rewrite fst_zip by (by rewrite length_seq).
  by rewrite length_zip, length_seq, Nat.min_id.
Qed.

Lemma visibility_order_by_tiers_witness :
  exists m,
    transformDdgData scenarioA_payload scenarioA_focal = Ok m
    /\ (forall es, es ∈ scenarioA_payload -> (length es <= 3)%nat)
    /\ JsMap.values (DdgModel.visIdxToPathElem m) = tierOrder 3 ≫= tier (DdgModel.paths m)
    /\ (DdgModel.visIdxToPathElem m).*1 = seq 0 (length (DdgModel.visIdxToPathElem m)).
Proof.
  eexists. split; [vm_compute; reflexivity|].
  assert (forall es, es ∈ scenarioA_payload -> (length es <= 3)%nat) as HK.
  { intros es Hes. apply list_elem_of_singleton in Hes. subst es. simpl. lia. }
  split; [exact HK|].
  apply (visibility_order_by_tiers scenarioA_payload scenarioA_focal _ 3); [|exact HK].
  vm_compute. reflexivity.
Defined.

(** C2, as stated, fails: on the path [A, B, C] with focal node B the
    element at distance 1 is numbered before the one at distance -1, so the
    elements by ascending index are not the tiers in the order
    0, -1, 1, -2, 2, ... *)
Lemma spec_tier_order_refuted :
  ~ (forall payload focal m (K : nat),
       transformDdgData payload focal = Ok m ->
       (forall es, es ∈ payload -> (length es <= K)%nat) ->
       JsMap.values (DdgModel.visIdxToPathElem m)
       = specTierOrder K ≫= tier (DdgModel.paths m)).
Proof.
  intros Hclaim.
  destruct (transformDdgData_spec scenarioA_payload scenarioA_focal scenarioA_hasFocal)
    as (m & Hm & _).
  specialize (Hclaim scenarioA_payload scenarioA_focal m 3%nat Hm).
  vm_compute in Hm. injection Hm as <-.
  assert (forall es, es ∈ scenarioA_payload -> (length es <= 3)%nat) as HK.
  { intros es Hes. apply list_elem_of_singleton in Hes. subst es. simpl. lia. }
  specialize (Hclaim HK). vm_compute in Hclaim. discriminate Hclaim.
Qed.

(** ** The constructor of [GraphModel] *)

Section graph_properties.
Context {EdgeId : Type} `{Countable EdgeId}.
Variable getEdgeId : string -> string -> EdgeId.
Variable getPathElemHasher :
  EDdgDensity -> bool -> list TDdgPath -> PathElemRef -> string.

Local Abbreviation inv := (graphInv getEdgeId getPathElemHasher).
Local Abbreviation add := (GraphModel.addPathElem getEdgeId getPathElemHasher).
Local Abbreviation keyOf := (hasherOf getPathElemHasher).

Lemma sameConfig_refl (g : GraphModel.t EdgeId) : sameConfig g g.
Proof. by repeat split. Qed.

Lemma sameConfig_trans (g1 g2 g3 : GraphModel.t EdgeId) :
  sameConfig g1 g2 -> sameConfig g2 g3 -> sameConfig g1 g3.
Proof.
  intros (? & ? & ? & ? & ?) (? & ? & ? & ? & ?). repeat split; congruence.
Qed.

Lemma hasherOf_sameConfig (g g' : GraphModel.t EdgeId) r :
  sameConfig g g' -> keyOf g' r = keyOf g r.
Proof. intros (Ha & Hd & Hs & _). unfold hasherOf. by rewrite Ha, Hd, Hs. Qed.

Lemma vertexFor_ok processed (g : GraphModel.t EdgeId) r elem dist :
  inv processed g ->
  exists vertex vertices' v2pe',
    GraphModel.vertexFor getPathElemHasher g r elem dist = Ok (vertex, vertices', v2pe')
    /\ Vertex.key vertex = keyOf g r
    /\ forall k v, vertices' !! k = Some v ->
         Vertex.key v = k /\ is_Some (v2pe' !! v).
Proof.
  intros Hinv. unfold GraphModel.vertexFor. fold (keyOf g r).
  destruct (GraphModel.vertices g !! keyOf g r) as [vertex|] eqn:Hv.
  - destruct (inv_vertices _ _ _ _ Hinv _ _ Hv) as [Hkey [pes Hpes]].
    rewrite Hpes. eexists _, _, _. split; [done|]. split; [done|].
    intros k v Hkv. destruct (inv_vertices _ _ _ _ Hinv _ _ Hkv) as [Hk Hsome].
    split; [done|]. apply lookup_insert_is_Some'. by right.
  - eexists _, _, _. split; [done|]. split; [done|].
    intros k v. rewrite lookup_insert. case_decide as Hk.
    + intros [= <-]. split; [done|]. rewrite lookup_insert_eq. by eexists.
    + intros Hkv. destruct (inv_vertices _ _ _ _ Hinv _ _ Hkv) as [Hk' Hsome].
      split; [done|]. apply lookup_insert_is_Some'. by right.
Qed.

Lemma edgeFor_spec processed (g : GraphModel.t EdgeId) dist vertex cv :
  inv processed g ->
  let from := if decide (0 < dist) then Vertex.key cv else Vertex.key vertex in
  let to := if decide (0 < dist) then Vertex.key vertex else Vertex.key cv in
  getEdgeId (Edge.from (GraphModel.edgeFor getEdgeId g dist vertex cv).1)
            (Edge.to (GraphModel.edgeFor getEdgeId g dist vertex cv).1)
    = getEdgeId from to
  /\ forall id e, (GraphModel.edgeFor getEdgeId g dist vertex cv).2 !! id = Some e ->
       getEdgeId (Edge.from e) (Edge.to e) = id.
Proof.
  intros Hinv from to. unfold GraphModel.edgeFor. fold from to.
  destruct (GraphModel.edgesById g !! getEdgeId from to) as [existing|] eqn:He; simpl.
  - split; [by apply (inv_edgesById _ _ _ _ Hinv)|]. apply (inv_edgesById _ _ _ _ Hinv).
  - split; [done|]. intros id e. rewrite lookup_insert. case_decide as Hid.
    + by intros [= <-].
    + apply (inv_edgesById _ _ _ _ Hinv).
Qed.

(** Extending the invariant by one element. *)
Lemma graphInv_extend processed (g g' : GraphModel.t EdgeId) r vertex :
  inv processed g -> sameConfig g g' ->
  GraphModel.pathElemToVertex g' = <[r := vertex]> (GraphModel.pathElemToVertex g) ->
  Vertex.key vertex = keyOf g r ->
  (forall k v, GraphModel.vertices g' !! k = Some v ->
     Vertex.key v = k /\ is_Some (GraphModel.vertexToPathElems g' !! v)) ->
  (forall id e, GraphModel.edgesById g' !! id = Some e ->
     getEdgeId (Edge.from e) (Edge.to e) = id) ->
  (focalSideNeighbor (GraphModel.arena g) r = None
   /\ GraphModel.pathElemToEdge g' = GraphModel.pathElemToEdge g)
  \/ (exists edge n dist,
        focalSideNeighbor (GraphModel.arena g) r = Some n
        /\ distance (GraphModel.arena g) r = Some dist
        /\ GraphModel.pathElemToEdge g' = <[r := edge]> (GraphModel.pathElemToEdge g)
        /\ getEdgeId (Edge.from edge) (Edge.to edge)
            = getEdgeId (Edge.from (if decide (0 < dist) then nearToFar getPathElemHasher g r n
                                    else farToNear getPathElemHasher g r n))
                        (Edge.to (if decide (0 < dist) then nearToFar getPathElemHasher g r n
                                  else farToNear getPathElemHasher g r n))) ->
  inv (processed ++ [r]) g'.
Proof.
  intros Hinv Hcfg Hpe2v Hkey Hverts Hebi Hedges.
  assert (forall x, keyOf g' x = keyOf g x) as Hk
    by (intros; by apply hasherOf_sameConfig).
  assert (forall x y, nearToFar getPathElemHasher g' x y = nearToFar getPathElemHasher g x y)
    as Hnf by (intros; unfold nearToFar; by rewrite !Hk).
  assert (forall x y, farToNear getPathElemHasher g' x y = farToNear getPathElemHasher g x y)
    as Hfn by (intros; unfold farToNear; by rewrite !Hk).
  destruct Hcfg as (Ha & _).
  split.
  - intros r'. rewrite Hpe2v, lookup_insert_is_Some', elem_of_app, list_elem_of_singleton.
    rewrite (inv_dom _ _ _ _ Hinv). split; (intros [?|?]; [right|left]; done).
  - intros r' v. rewrite Hpe2v, lookup_insert, Hk.
    destruct (decide (r = r')) as [<-|Hr].
    + by intros [= <-].
    + apply (inv_key _ _ _ _ Hinv).
  - done.
  - done.
  - intros r' n'. rewrite Ha, elem_of_app, list_elem_of_singleton. intros Hr' Hn'.
    destruct Hedges as [[Hnone ->]|(edge & n & dist & Hn & Hd & -> & Hid)].
    + destruct Hr' as [Hr'| ->]; [|congruence].
      by eapply (inv_edge_dom _ _ _ _ Hinv).
    + apply lookup_insert_is_Some'.
      destruct Hr' as [Hr'| ->]; [right|by left].
      by eapply (inv_edge_dom _ _ _ _ Hinv).
  - intros r' e He. rewrite Ha.
    assert (exists n dist,
      focalSideNeighbor (GraphModel.arena g) r' = Some n
      /\ distance (GraphModel.arena g) r' = Some dist
      /\ getEdgeId (Edge.from e) (Edge.to e)
          = getEdgeId (Edge.from (if decide (0 < dist) then nearToFar getPathElemHasher g r' n
                                  else farToNear getPathElemHasher g r' n))
                      (Edge.to (if decide (0 < dist) then nearToFar getPathElemHasher g r' n
                                else farToNear getPathElemHasher g r' n)))
      as (n & dist & Hn & Hd & Hid).
    { destruct Hedges as [[Hnone Heq]|(edge & n & dist & Hn & Hd & Heq & Hid)];
        rewrite Heq in He.
      - by apply (inv_edge _ _ _ _ Hinv).
      - rewrite lookup_insert in He. destruct (decide (r = r')) as [<-|Hr].
        + injection He as <-. by exists n, dist.
        + by apply (inv_edge _ _ _ _ Hinv). }
    exists n, dist. by rewrite Hnf, Hfn.
Qed.

(** One round of the constructor's loop. *)
Lemma addPathElem_step processed (g : GraphModel.t EdgeId) r :
  inv processed g -> is_Some (deref (GraphModel.arena g) r) ->
  match focalSideNeighbor (GraphModel.arena g) r with
  | Some n =>
      if decide (n ∈ processed ++ [r])
      then exists g', add r g = Ok g' /\ inv (processed ++ [r]) g' /\ sameConfig g g'
      else add r g = Throw DisconnectedPathElem
  | None => exists g', add r g = Ok g' /\ inv (processed ++ [r]) g' /\ sameConfig g g'
  end.
Proof.
  intros Hinv Hr. destruct (distance_is_Some _ _ Hr) as [dist Hd].
  destruct Hr as [elem He]. unfold GraphModel.addPathElem. rewrite He, Hd.
  destruct (vertexFor_ok processed g r elem dist Hinv)
    as (vertex & vertices' & v2pe' & -> & Hkey & Hverts).
  cbn [bindR].
  destruct (focalSideNeighbor (GraphModel.arena g) r) as [n|] eqn:Hn.
  - destruct (decide (n ∈ processed ++ [r])) as [Hin|Hnin].
    + assert (is_Some (<[r := vertex]> (GraphModel.pathElemToVertex g) !! n)) as [cv Hcv].
      { apply lookup_insert_is_Some'.
        apply elem_of_app in Hin as [Hin|Hin].
        - right. exact (proj2 (inv_dom _ _ _ _ Hinv n) Hin).
        - left. apply list_elem_of_singleton in Hin. by subst n. }
      rewrite Hcv.
      destruct (edgeFor_spec processed g dist vertex cv Hinv) as [Hid Hebi].
      destruct (GraphModel.edgeFor getEdgeId g dist vertex cv) as [edge ebi'].
      eexists. split; [done|]. split; [|by repeat split].
      eapply (graphInv_extend processed g _ r vertex); try done.
      right. exists edge, n, dist. split; [done|]. split; [done|]. split; [done|].
      simpl in Hid. rewrite Hid.
      assert (Vertex.key cv = keyOf g n) as Hcvk.
      { rewrite lookup_insert in Hcv.
        destruct (decide (r = n)) as [<-|Hrn].
        - by injection Hcv as <-.
        - by apply (inv_key _ _ _ _ Hinv). }
      rewrite Hcvk, Hkey. by destruct (decide (0 < dist)).
    + assert (<[r := vertex]> (GraphModel.pathElemToVertex g) !! n = None) as ->; [|done].
      apply eq_None_not_Some. intros Hsome. apply Hnin.
      apply lookup_insert_is_Some' in Hsome as [->|Hsome].
      * apply elem_of_app. right. left.
      * apply elem_of_app. left. exact (proj1 (inv_dom _ _ _ _ Hinv n) Hsome).
  - eexists. split; [done|]. split; [|by repeat split].
    eapply (graphInv_extend processed g _ r vertex); try done.
    + simpl. apply (inv_edgesById _ _ _ _ Hinv).
    + by left.
Qed.

Lemma forEachR_addPathElem_ok l : forall processed (g : GraphModel.t EdgeId),
  inv processed g ->
  (forall k r, l !! k = Some r ->
     is_Some (deref (GraphModel.arena g) r)
     /\ forall n, focalSideNeighbor (GraphModel.arena g) r = Some n ->
          n ∈ processed ++ take (S k) l) ->
  exists g', forEachR add l g = Ok g' /\ inv (processed ++ l) g' /\ sameConfig g g'.
Proof.
  induction l as [|r l IH]; intros processed g Hinv Hl.
  - exists g. rewrite app_nil_r. split; [done|]. split; [done|apply sameConfig_refl].
  - destruct (Hl 0%nat r eq_refl) as [Hr Hn]. cbn [forEachR].
    pose proof (addPathElem_step processed g r Hinv Hr) as Hstep.
    assert (exists g1, add r g = Ok g1 /\ inv (processed ++ [r]) g1 /\ sameConfig g g1)
      as (g1 & -> & Hinv1 & Hcfg1).
    { destruct (focalSideNeighbor (GraphModel.arena g) r) as [n|]; [|done].
      rewrite decide_True in Hstep; [done|]. by apply Hn. }
    cbn [bindR].
    destruct (IH (processed ++ [r]) g1 Hinv1) as (g' & -> & Hinv' & Hcfg').
    { intros k r' Hr'. destruct Hcfg1 as (-> & _).
      destruct (Hl (S k) r' Hr') as [Hd Hn'].
      split; [done|]. intros n Hnn. rewrite <- app_assoc. by apply Hn'. }
    exists g'. rewrite <- app_assoc in Hinv'. split; [done|]. split; [done|].
    by eapply sameConfig_trans.
Qed.

Lemma forEachR_addPathElem_throw l : forall processed (g : GraphModel.t EdgeId) k r n,
  inv processed g ->
  (forall r', r' ∈ l -> is_Some (deref (GraphModel.arena g) r')) ->
  l !! k = Some r -> focalSideNeighbor (GraphModel.arena g) r = Some n ->
  n ∉ processed ++ take (S k) l ->
  forEachR add l g = Throw DisconnectedPathElem.
Proof.
  induction l as [|r0 l IH]; intros processed g k r n Hinv Hvalid Hk Hn Hnin; [done|].
  cbn [forEachR].
  pose proof (addPathElem_step processed g r0 Hinv (Hvalid r0 ltac:(left))) as Hstep.
  destruct k as [|k]; simpl in Hk.
  - injection Hk as ->. rewrite Hn in Hstep.
    rewrite decide_False in Hstep by done. by rewrite Hstep.
  - assert (add r0 g = Throw DisconnectedPathElem
            \/ exists g1, add r0 g = Ok g1 /\ inv (processed ++ [r0]) g1 /\ sameConfig g g1)
      as [->|(g1 & -> & Hinv1 & Hcfg1)]; [|done|].
    { destruct (focalSideNeighbor (GraphModel.arena g) r0) as [n0|]; [|by right].
      case_decide; [by right|by left]. }
    cbn [bindR]. destruct Hcfg1 as (Ha & _).
    apply (IH (processed ++ [r0]) g1 k r n); try done.
    + intros r' Hr'. rewrite Ha. apply Hvalid. by right.
    + by rewrite Ha.
    + by rewrite <- app_assoc.
Qed.

Lemma addPathElem_Ok_inv processed (g g' : GraphModel.t EdgeId) r :
  inv processed g -> add r g = Ok g' ->
  inv (processed ++ [r]) g' /\ sameConfig g g'.
Proof.
  intros Hinv Hadd.
  destruct (deref (GraphModel.arena g) r) as [elem|] eqn:He.
  - pose proof (addPathElem_step processed g r Hinv ltac:(by rewrite He)) as Hstep.
    destruct (focalSideNeighbor (GraphModel.arena g) r) as [n|].
    + destruct (decide (n ∈ processed ++ [r])).
      * destruct Hstep as (g1 & Hg1 & Hinv1 & Hcfg). rewrite Hadd in Hg1.
        by injection Hg1 as <-.
      * by rewrite Hadd in Hstep.
    + destruct Hstep as (g1 & Hg1 & Hinv1 & Hcfg). rewrite Hadd in Hg1.
      by injection Hg1 as <-.
  - unfold GraphModel.addPathElem in Hadd. by rewrite He in Hadd.
Qed.

Lemma forEachR_addPathElem_inv l : forall processed (g g' : GraphModel.t EdgeId),
  inv processed g -> forEachR add l g = Ok g' ->
  inv (processed ++ l) g' /\ sameConfig g g'.
Proof.
  induction l as [|r l IH]; intros processed g g' Hinv Hrun; cbn [forEachR] in Hrun.
  - injection Hrun as <-. rewrite app_nil_r. split; [done|apply sameConfig_refl].
  - destruct (add r g) as [g1|] eqn:Hadd; cbn [bindR] in Hrun; [|done].
    destruct (addPathElem_Ok_inv processed g g1 r Hinv Hadd) as [Hinv1 Hcfg1].
    destruct (IH _ _ _ Hinv1 Hrun) as [Hinv' Hcfg'].
    rewrite <- app_assoc in Hinv'. split; [done|]. by eapply sameConfig_trans.
Qed.

Lemma graphInv_initial paths dm l density showOp :
  inv [] {| GraphModel.arena := paths; GraphModel.density := density;
            GraphModel.distanceToPathElems := dm;
            GraphModel.pathElemToEdge := ∅; GraphModel.pathElemToVertex := ∅;
            GraphModel.showOp := showOp;
            GraphModel.vertexToPathElems := ∅; GraphModel.vertices := ∅;
            GraphModel.visIdxToPathElem := l; GraphModel.edgesById := ∅ |}.
Proof.
  split; simpl.
  - intros r. rewrite lookup_empty. split; [by intros [? ?]|].
    intros Hr. by apply elem_of_nil in Hr.
  - intros r v. by rewrite lookup_empty.
  - intros k v. by rewrite lookup_empty.
  - intros id e. by rewrite lookup_empty.
  - intros r n Hr. by apply elem_of_nil in Hr.
  - intros r e. by rewrite lookup_empty.
Qed.

Lemma new_inv paths dm l density showOp (g : GraphModel.t EdgeId) :
  GraphModel.new getEdgeId getPathElemHasher paths dm l density showOp = Ok g ->
  inv l g
  /\ GraphModel.arena g = paths /\ GraphModel.visIdxToPathElem g = l
  /\ GraphModel.density g = density /\ GraphModel.showOp g = showOp.
Proof.
  unfold GraphModel.new. intros Hrun.
  destruct (forEachR_addPathElem_inv l [] _ g (graphInv_initial paths dm l density showOp)
              Hrun) as [Hinv (Ha & Hd & Hs & _ & Hv)].
  simpl in *. split; [done|]. by repeat split.
Qed.

Lemma new_ok paths dm l density showOp :
  focalSideFirst paths l ->
  is_Ok (GraphModel.new getEdgeId getPathElemHasher paths dm l density showOp).
Proof.
  intros Hfirst. unfold GraphModel.new.
  edestruct (forEachR_addPathElem_ok l []) as (g & Hg & _);
    [apply (graphInv_initial paths dm l density showOp)| |by exists g].
  simpl. intros k r Hk. destruct (Hfirst k r Hk) as [Hr Hn]. split; [done|].
  intros n Hnn. destruct (Hn n Hnn) as (k' & Hlt & Hk').
  apply (list_elem_of_lookup_2 _ k').
  rewrite lookup_take_lt by lia. done.
Qed.

Lemma new_throw paths dm l density showOp k r n :
  (forall r', r' ∈ l -> is_Some (deref paths r')) ->
  l !! k = Some r -> focalSideNeighbor paths r = Some n ->
  n ∉ take (S k) l ->
  GraphModel.new getEdgeId getPathElemHasher paths dm l density showOp
  = Throw DisconnectedPathElem.
Proof.
  intros Hvalid Hk Hn Hnin. unfold GraphModel.new.
  by eapply (forEachR_addPathElem_throw l [] _ k r n);
    [apply (graphInv_initial paths dm l density showOp)|..].
Qed.
End graph_properties.

(** ** The transform numbers every element after its focal-side neighbour *)

Lemma focalSideNeighbor_spec paths r n :
  wfArena paths -> focalSideNeighbor paths r = Some n ->
  is_Some (deref paths n) /\ absDistance paths n = absDistance paths r - 1.
Proof.
  intros Hwf. unfold focalSideNeighbor, deref, absDistance, distance.
  destruct (paths !! r.1) as [path|] eqn:Hp; simpl; [|done].
  case_decide as Hd; [done|]. case_decide as Hi; [|done].
  destruct (members path !! Z.to_nat (Z.of_nat r.2 - Z.sgn (Z.of_nat r.2 - focalIdx path)))
    as [e|] eqn:He; simpl; [|done].
  intros [= <-]. destruct (Hwf _ _ Hp) as [_ Hm]. rewrite (Hm _ _ He). simpl.
  rewrite Hp. simpl. rewrite He. split; [by eexists|]. lia.
Qed.

Lemma transformDdgData_wf payload focal m :
  transformDdgData payload focal = Ok m -> wfArena (DdgModel.paths m).
Proof.
  intros Hm. destruct (transformDdgData_indices payload focal m Hm) as (Her & Hwf & _).
  apply wfArena_erase. by rewrite Her.
Qed.

Lemma transformDdgData_focalSideFirst payload focal m :
  transformDdgData payload focal = Ok m ->
  focalSideFirst (DdgModel.paths m) (JsMap.values (DdgModel.visIdxToPathElem m)).
Proof.
  intros Hm.
  pose proof (transformDdgData_wf _ _ _ Hm) as Hwfm.
  destruct (transformDdgData_indices payload focal m Hm)
    as (Her & Hwf & Hnd & Hlen & Hmap & Hget & Hin & Hvis).
  assert (JsMap.values (DdgModel.visIdxToPathElem m) = visitedOrder focal payload) as ->.
  { rewrite Hmap. unfold JsMap.values. apply snd_zip. by rewrite length_seq. }
  intros k r Hk.
  assert (is_Some (deref (DdgModel.paths m) r)) as Hr.
  { apply elem_of_allRefs; [done|]. apply Hin. by eapply list_elem_of_lookup_2. }
  split; [done|]. intros n Hn.
  destruct (focalSideNeighbor_spec _ _ _ Hwfm Hn) as [Hnv Habs].
  assert (n ∈ visitedOrder focal payload) as Hnin.
  { apply Hin. by apply elem_of_allRefs. }
  apply list_elem_of_lookup in Hnin as [k' Hk'].
  exists k'. split; [|done].
  destruct (decide (k' < k)%nat) as [|Hge]; [done|]. exfalso.
  assert (absDistance (DdgModel.paths m) r <= absDistance (DdgModel.paths m) n); [|lia].
  destruct (decide (k = k')) as [->|Hne].
  { replace n with r by congruence. lia. }
  rewrite <- (absDistance_erase _ r), <- (absDistance_erase _ n), Her.
  destruct (rounds_sorted _ 0 (length (concat payload)) Hwf) as [Hs _].
  eapply (StronglySorted_lookup Z.le _ k k'); [exact Hs| | |lia].
  - rewrite list_lookup_fmap. unfold visitedOrder, tierOrder in Hk. by rewrite Hk.
  - rewrite list_lookup_fmap. unfold visitedOrder, tierOrder in Hk'. by rewrite Hk'.
Qed.

(** ** Connectivity and the direction of edges *)

Lemma inIndexOrder_unique paths l1 l2 :
  inIndexOrder paths l1 -> inIndexOrder paths l2 -> l1 = l2.
Proof.
  intros H1 H2. apply list_eq. intros i.
  destruct (l1 !! i) as [r1|] eqn:E1, (l2 !! i) as [r2|] eqn:E2; [| | |done].
  - apply H1, H2 in E1. congruence.
  - apply H1, H2 in E1. congruence.
  - apply H2, H1 in E2. congruence.
Qed.

Lemma transformDdgData_inIndexOrder payload focal m :
  transformDdgData payload focal = Ok m ->
  inIndexOrder (DdgModel.paths m) (JsMap.values (DdgModel.visIdxToPathElem m))
  /\ forall i r,
       JsMap.values (DdgModel.visIdxToPathElem m) !! i = Some r
       <-> JsMap.get i (DdgModel.visIdxToPathElem m) = Some r.
Proof.
  intros Hm.
  destruct (transformDdgData_indices payload focal m Hm)
    as (_ & _ & _ & _ & Hmap & Hget & _ & Hvis).
  assert (JsMap.values (DdgModel.visIdxToPathElem m) = visitedOrder focal payload) as ->.
  { rewrite Hmap. unfold JsMap.values. apply snd_zip. by rewrite length_seq. }
  split.
  - intros i r. symmetry. apply Hvis.
  - intros i r. symmetry. apply Hget.
Qed.

(** C5. The constructor of [GraphModel] reads [visIdxToPathElem] as an array
    and processes its elements in the order of the array.  It does not
    throw on the elements of a transform result in ascending order of
    their visibility index: every result has one such array, its position
    [i] holding the element [visIdxToPathElem] of the result holds under
    [i]; in it every element comes after its focal-side neighbour, so the
    branch for a missing focal-side vertex is not reached and the
    constructor returns.  Conversely, when
    the focal-side neighbour of an element of [visIdxToPathElem] does not
    occur before it (it was removed, or moved after it), the constructor
    throws the error of that branch. *)
Theorem graph_connectivity {EdgeId : Type} `{Countable EdgeId}
    (getEdgeId : string -> string -> EdgeId)
    (getPathElemHasher : EDdgDensity -> bool -> list TDdgPath -> PathElemRef -> string) :
  (forall payload focal m,
     transformDdgData payload focal = Ok m ->
     exists l,
       inIndexOrder (DdgModel.paths m) l
       /\ forall i r,
            l !! i = Some r <-> JsMap.get i (DdgModel.visIdxToPathElem m) = Some r)
  /\ (forall payload focal m l density showOp,
        transformDdgData payload focal = Ok m ->
        inIndexOrder (DdgModel.paths m) l ->
        focalSideFirst (DdgModel.paths m) l
        /\ is_Ok (GraphModel.new getEdgeId getPathElemHasher (DdgModel.paths m)
                    (DdgModel.distanceToPathElems m) l density showOp))
  /\ (forall paths dm l density showOp k r n,
        (forall r', r' ∈ l -> is_Some (deref paths r')) ->
        l !! k = Some r ->
        focalSideNeighbor paths r = Some n ->
        n ∉ take (S k) l ->
        GraphModel.new getEdgeId getPathElemHasher paths dm l density showOp
        = Throw DisconnectedPathElem).
Proof.
  split; [|split].
  - intros payload focal m Hm. eexists. by apply (transformDdgData_inIndexOrder payload focal).
  - intros payload focal m l density showOp Hm Hl.
    destruct (transformDdgData_inIndexOrder payload focal m Hm) as [Hvalues _].
    rewrite (inIndexOrder_unique _ _ _ Hl Hvalues).
    pose proof (transformDdgData_focalSideFirst payload focal m Hm) as Hfirst.
    split; [done|]. by apply new_ok.
  - intros paths dm l density showOp k r n. apply new_throw.
Qed.

Lemma scenarioA_transform :
  exists m, transformDdgData scenarioA_payload scenarioA_focal = Ok m
            /\ DdgModel.paths m = scenarioA_paths
            /\ JsMap.values (DdgModel.visIdxToPathElem m) = scenarioA_order.
Proof. eexists. split; [vm_compute; reflexivity|]. split; reflexivity. Defined.

Lemma scenarioA_inIndexOrder m :
  transformDdgData scenarioA_payload scenarioA_focal = Ok m ->
  DdgModel.paths m = scenarioA_paths /\ inIndexOrder (DdgModel.paths m) scenarioA_order.
Proof.
  intros Hm. destruct scenarioA_transform as (m' & Hm' & Hp & Ho).
  rewrite Hm in Hm'. injection Hm' as <-. split; [done|].
  rewrite <- Ho. by apply (transformDdgData_inIndexOrder scenarioA_payload scenarioA_focal).
Qed.

Lemma graph_connectivity_witness :
  (exists m,
     transformDdgData scenarioA_payload scenarioA_focal = Ok m
     /\ inIndexOrder (DdgModel.paths m) scenarioA_order
     /\ (exists l,
           inIndexOrder (DdgModel.paths m) l
           /\ forall i r,
                l !! i = Some r <-> JsMap.get i (DdgModel.visIdxToPathElem m) = Some r)
     /\ focalSideFirst (DdgModel.paths m) scenarioA_order
     /\ is_Ok (GraphModel.new pairEdgeId conciseHasher (DdgModel.paths m)
                 (DdgModel.distanceToPathElems m) scenarioA_order MostConcise true))
  /\ ((forall r', r' ∈ [(0, 2); (0, 0)]%nat -> is_Some (deref scenarioA_paths r'))
      /\ ([(0, 2); (0, 0)]%nat : list PathElemRef) !! 0%nat = Some (0, 2)%nat
      /\ focalSideNeighbor scenarioA_paths (0, 2)%nat = Some (0, 1)%nat
      /\ ((0, 1)%nat ∉ take 1 ([(0, 2); (0, 0)]%nat : list PathElemRef))
      /\ GraphModel.new pairEdgeId conciseHasher scenarioA_paths ∅
           [(0, 2); (0, 0)]%nat MostConcise true
         = Throw DisconnectedPathElem).
Proof.
  assert (forall r' : PathElemRef,
            r' ∈ [(0, 2); (0, 0)]%nat -> is_Some (deref scenarioA_paths r')) as Hvalid.
  { intros r' Hr'. apply elem_of_cons in Hr' as [->|Hr'];
      [|apply list_elem_of_singleton in Hr' as ->]; vm_compute; eauto. }
  assert ((0, 1)%nat ∉ take 1 [(0, 2); (0, 0)]%nat) as Hnin.
  { simpl. intros Hc. apply list_elem_of_singleton in Hc. discriminate Hc. }
  split.
  - destruct scenarioA_transform as (m & Hm & _). exists m.
    destruct (scenarioA_inIndexOrder m Hm) as [_ Hl].
    split; [exact Hm|]. split; [exact Hl|].
    split; [exact (proj1 (graph_connectivity pairEdgeId conciseHasher)
                     scenarioA_payload scenarioA_focal m Hm)|].
    exact (proj1 (proj2 (graph_connectivity pairEdgeId conciseHasher))
             scenarioA_payload scenarioA_focal m scenarioA_order MostConcise true Hm Hl).
  - split; [exact Hvalid|]. split; [reflexivity|]. split; [reflexivity|].
    split; [exact Hnin|].
    exact (proj2 (proj2 (graph_connectivity pairEdgeId conciseHasher))
             scenarioA_paths ∅ [(0, 2); (0, 0)]%nat MostConcise true
             0%nat (0, 2)%nat (0, 1)%nat Hvalid eq_refl eq_refl Hnin).
Defined.

Lemma edge_recorded {EdgeId : Type} `{Countable EdgeId}
    (getEdgeId : string -> string -> EdgeId)
    (getPathElemHasher : EDdgDensity -> bool -> list TDdgPath -> PathElemRef -> string)
    paths dm l density showOp (g : GraphModel.t EdgeId) r n dist :
  (forall a b c d, getEdgeId a b = getEdgeId c d -> a = c /\ b = d) ->
  GraphModel.new getEdgeId getPathElemHasher paths dm l density showOp = Ok g ->
  r ∈ l ->
  focalSideNeighbor paths r = Some n ->
  distance paths r = Some dist ->
  GraphModel.pathElemToEdge g !! r
  = Some (if decide (0 < dist) then nearToFar getPathElemHasher g r n
          else farToNear getPathElemHasher g r n).
Proof.
  intros Hinj Hnew Hr Hn Hd.
  destruct (new_inv _ _ _ _ _ _ _ _ Hnew) as (Hinv & Ha & _).
  rewrite <- Ha in Hn, Hd.
  destruct (inv_edge_dom _ _ _ _ Hinv r n Hr Hn) as [e He].
  destruct (inv_edge _ _ _ _ Hinv r e He) as (n' & dist' & Hn' & Hd' & Hid).
  rewrite Hn in Hn'. injection Hn' as <-. rewrite Hd in Hd'. injection Hd' as <-.
  apply Hinj in Hid as [Hfrom Hto]. rewrite He. f_equal.
  destruct e as [from to]. simpl in *. subst from to.
  by destruct (decide (0 < dist)).
Qed.

(** C6, as amended. The edge recorded for a non-focal element joins its
    vertex and the vertex of its focal-side neighbour, and is directed from
    the side nearer to the focal node to the farther side when the distance
    of the element is positive, and from the farther side to the nearer one
    when it is negative (edge identifiers being distinct for distinct
    pairs of vertex keys). *)
Theorem edge_direction {EdgeId : Type} `{Countable EdgeId}
    (getEdgeId : string -> string -> EdgeId)
    (getPathElemHasher : EDdgDensity -> bool -> list TDdgPath -> PathElemRef -> string)
    paths dm l density showOp (g : GraphModel.t EdgeId) r n dist :
  (forall a b c d, getEdgeId a b = getEdgeId c d -> a = c /\ b = d) ->
  GraphModel.new getEdgeId getPathElemHasher paths dm l density showOp = Ok g ->
  r ∈ l ->
  focalSideNeighbor paths r = Some n ->
  distance paths r = Some dist ->
  (0 < dist ->
     GraphModel.pathElemToEdge g !! r
     = Some {| Edge.from := hasherOf getPathElemHasher g n;
               Edge.to := hasherOf getPathElemHasher g r |})
  /\ (dist < 0 ->
     GraphModel.pathElemToEdge g !! r
     = Some {| Edge.from := hasherOf getPathElemHasher g r;
               Edge.to := hasherOf getPathElemHasher g n |}).
Proof.
  intros Hinj Hnew Hr Hn Hd.
  rewrite (edge_recorded getEdgeId getPathElemHasher paths dm l density showOp g r n dist)
    by done.
  split; intros Hdist; [by rewrite decide_True by done|by rewrite decide_False by lia].
Qed.

Lemma pairEdgeId_inj a b c d : pairEdgeId a b = pairEdgeId c d -> a = c /\ b = d.
Proof. by intros [= -> ->]. Defined.

Lemma scenarioA_graph :
  exists g : GraphModel.t (string * string),
    GraphModel.new pairEdgeId conciseHasher scenarioA_paths ∅ scenarioA_order
      MostConcise true = Ok g.
Proof.
  destruct scenarioA_transform as (m & Hm & Hp & Ho).
  pose proof (transformDdgData_focalSideFirst _ _ _ Hm) as Hfirst.
  rewrite Hp, Ho in Hfirst. by apply new_ok.
Qed.

Lemma scenarioA_keys (g : GraphModel.t (string * string)) :
  GraphModel.new pairEdgeId conciseHasher scenarioA_paths ∅ scenarioA_order
    MostConcise true = Ok g ->
  hasherOf conciseHasher g (0, 0)%nat = "A::opA"
  /\ hasherOf conciseHasher g (0, 1)%nat = "B::opB"
  /\ hasherOf conciseHasher g (0, 2)%nat = "C::opC".
Proof.
  intros Hg. destruct (new_inv _ _ _ _ _ _ _ _ Hg) as (_ & Ha & _ & Hd & Hs).
  unfold hasherOf. rewrite Ha, Hd, Hs. by vm_compute.
Qed.

Lemma edge_direction_witness :
  exists g,
    GraphModel.new pairEdgeId conciseHasher scenarioA_paths ∅ scenarioA_order
      MostConcise true = Ok g
    /\ (0, 2)%nat ∈ scenarioA_order
    /\ focalSideNeighbor scenarioA_paths (0, 2)%nat = Some (0, 1)%nat
    /\ distance scenarioA_paths (0, 2)%nat = Some 1
    /\ (0 < 1 ->
         GraphModel.pathElemToEdge g !! (0, 2)%nat
         = Some {| Edge.from := hasherOf conciseHasher g (0, 1)%nat;
                   Edge.to := hasherOf conciseHasher g (0, 2)%nat |})
    /\ (1 < 0 ->
         GraphModel.pathElemToEdge g !! (0, 2)%nat
         = Some {| Edge.from := hasherOf conciseHasher g (0, 2)%nat;
                   Edge.to := hasherOf conciseHasher g (0, 1)%nat |}).
Proof.
  destruct scenarioA_graph as (g & Hg). exists g.
  assert ((0, 2)%nat ∈ scenarioA_order) as Hin by (right; left).
  split; [exact Hg|]. split; [exact Hin|]. split; [reflexivity|]. split; [reflexivity|].
  exact (edge_direction pairEdgeId conciseHasher scenarioA_paths ∅ scenarioA_order
           MostConcise true g (0, 2)%nat (0, 1)%nat 1
           pairEdgeId_inj Hg Hin eq_refl eq_refl).
Defined.

(** C6, as stated, fails: in the graph of the path [A, B, C] with focal
    node B, the edge recorded for C (distance 1) goes from the vertex of B,
    the nearer side, to the vertex of C, and not from C to B; the edge
    recorded for A (distance -1) goes from A, the farther side, to B, and
    not from B to A. *)
Lemma edge_direction_as_stated_refuted :
  ~ (forall (g : GraphModel.t (string * string)) r n dist,
       GraphModel.new pairEdgeId conciseHasher scenarioA_paths ∅ scenarioA_order
         MostConcise true = Ok g ->
       r ∈ scenarioA_order ->
       focalSideNeighbor scenarioA_paths r = Some n ->
       distance scenarioA_paths r = Some dist ->
       (0 < dist ->
          GraphModel.pathElemToEdge g !! r
          = Some (farToNear conciseHasher g r n))
       /\ (dist < 0 ->
          GraphModel.pathElemToEdge g !! r
          = Some (nearToFar conciseHasher g r n))).
Proof.
  intros Hclaim.
  destruct scenarioA_graph as (g & Hg).
  destruct (scenarioA_keys g Hg) as (_ & HkB & HkC).
  assert ((0, 2)%nat ∈ scenarioA_order) as Hin by (right; left).
  destruct (Hclaim g (0, 2)%nat (0, 1)%nat 1 Hg Hin eq_refl eq_refl) as [Hpos _].
  specialize (Hpos ltac:(lia)).
  rewrite (edge_recorded pairEdgeId conciseHasher scenarioA_paths ∅ scenarioA_order
             MostConcise true g (0, 2)%nat (0, 1)%nat 1 pairEdgeId_inj Hg Hin eq_refl eq_refl)
    in Hpos.
  rewrite decide_True in Hpos by lia.
  unfold farToNear, nearToFar in Hpos. rewrite HkB, HkC in Hpos. discriminate Hpos.
Qed.

(** ** Queries of [GraphModel] *)

Lemma elem_of_setAdd {A} `{EqDecision A} (x y : A) (s : list A) :
  y ∈ setAdd x s <-> y = x \/ y ∈ s.
Proof.
  unfold setAdd. case_decide as Hx.
  - split; [by right|]. by intros [->|].
  - rewrite elem_of_app, list_elem_of_singleton. tauto.
Qed.

Lemma NoDup_setAdd {A} `{EqDecision A} (x : A) (s : list A) :
  NoDup s -> NoDup (setAdd x s).
Proof.
  intros Hs. unfold setAdd. case_decide as Hx; [done|].
  apply NoDup_app. split; [done|]. split; [|apply NoDup_singleton].
  intros y Hy Hyx. apply list_elem_of_singleton in Hyx. by subst y.
Qed.

Section query_properties.
Context {EdgeId : Type} `{Countable EdgeId}.
Variable decode : string -> Result (list nat).

Lemma collectVisible_spec (g : GraphModel.t EdgeId) pes : forall es0 vs0 es vs,
  forEachR (GraphModel.collectVisible g) pes (es0, vs0) = Ok (es, vs) ->
  (NoDup es0 -> NoDup es) /\ (NoDup vs0 -> NoDup vs)
  /\ (forall v, v ∈ vs <->
        v ∈ vs0 \/ exists r, r ∈ pes /\ GraphModel.pathElemToVertex g !! r = Some v)
  /\ (forall e, e ∈ es <->
        e ∈ es0 \/ exists r, r ∈ pes /\ GraphModel.pathElemToEdge g !! r = Some e).
Proof.
  induction pes as [|r pes IH]; intros es0 vs0 es vs; cbn [forEachR].
  - intros [= <- <-]. repeat split; try done; try (by left).
    all: intros [?|(r & Hr & _)]; [done|by apply elem_of_nil in Hr].
  - unfold GraphModel.collectVisible at 1. simpl.
    destruct (GraphModel.pathElemToVertex g !! r) as [v0|] eqn:Hv0; [|done].
    cbn [bindR]. intros Hrun. apply IH in Hrun as (Hes & Hvs & Hv & He).
    split; [|split; [|split]].
    + intros Hnd. apply Hes.
      destruct (GraphModel.pathElemToEdge g !! r); [by apply NoDup_setAdd|done].
    + intros Hnd. by apply Hvs, NoDup_setAdd.
    + intros v. rewrite Hv, elem_of_setAdd. split.
      * intros [[->|Hin]|(r' & Hr' & Hv')].
        -- right. exists r. split; [left|done].
        -- by left.
        -- right. exists r'. split; [by right|done].
      * intros [Hin|(r' & Hr' & Hv')]; [left; by right|].
        apply elem_of_cons in Hr' as [->|Hr'].
        -- left. left. congruence.
        -- right. by exists r'.
    + intros e. rewrite He. split.
      * intros [Hin|(r' & Hr' & He')].
        -- destruct (GraphModel.pathElemToEdge g !! r) as [e0|] eqn:He0; [|by left].
           apply elem_of_setAdd in Hin as [->|Hin]; [|by left].
           right. exists r. split; [left|done].
        -- right. exists r'. split; [by right|done].
      * intros [Hin|(r' & Hr' & He')].
        -- left. destruct (GraphModel.pathElemToEdge g !! r); [|done].
           apply elem_of_setAdd. by right.
        -- apply elem_of_cons in Hr' as [->|Hr'].
           ++ left. rewrite He'. apply elem_of_setAdd. by left.
           ++ right. by exists r'.
Qed.

Lemma collectVisible_ok (g : GraphModel.t EdgeId) pes : forall acc,
  (forall r, r ∈ pes -> is_Some (GraphModel.pathElemToVertex g !! r)) ->
  is_Ok (forEachR (GraphModel.collectVisible g) pes acc).
Proof.
  induction pes as [|r pes IH]; intros acc Hall; cbn [forEachR]; [by eexists|].
  destruct (Hall r) as [v Hv]; [left|].
  unfold GraphModel.collectVisible at 1. rewrite Hv. cbn [bindR].
  apply IH. intros r' Hr'. apply Hall. by right.
Qed.

Lemma getVisible_NoDup (g : GraphModel.t EdgeId) visEncoding es vs :
  GraphModel.getVisible decode g visEncoding = Ok (es, vs) -> NoDup es /\ NoDup vs.
Proof.
  unfold GraphModel.getVisible.
  destruct (GraphModel.getVisiblePathElems decode g visEncoding) as [pes|];
    cbn [bindR]; [|done].
  intros Hrun. apply collectVisible_spec in Hrun as (Hes & Hvs & _).
  split; [apply Hes|apply Hvs]; constructor.
Qed.
End query_properties.

Lemma getVisible_defined {EdgeId : Type} `{Countable EdgeId}
    (getEdgeId : string -> string -> EdgeId)
    (getPathElemHasher : EDdgDensity -> bool -> list TDdgPath -> PathElemRef -> string)
    (decode : string -> Result (list nat))
    paths dm l density showOp (g : GraphModel.t EdgeId) (token : string) decoded :
  GraphModel.new getEdgeId getPathElemHasher paths dm l density showOp = Ok g ->
  decode token = Ok decoded ->
  is_Ok (GraphModel.getVisible decode g (Some token)).
Proof.
  intros Hnew Hdec.
  destruct (new_inv _ _ _ _ _ _ _ _ Hnew) as (Hinv & _ & Hl & _).
  unfold GraphModel.getVisible, GraphModel.getVisiblePathElems. rewrite Hdec.
  cbn [bindR]. apply collectVisible_ok. intros r Hr.
  apply list_elem_of_omap in Hr as (i & _ & Hr).
  apply (inv_dom _ _ _ _ Hinv). rewrite <- Hl. by eapply list_elem_of_lookup_2.
Qed.

(** C9. For a graph that the constructor returned and a finite set of
    indices, [getVisible] on an encoding of the set returns: its vertices
    are, without repetition, the vertices of the elements found in
    [visIdxToPathElem] under an index of the set, and likewise its edges; an
    index of the set with no entry there contributes nothing. *)
Theorem getVisible_encoded {EdgeId : Type} `{Countable EdgeId}
    (getEdgeId : string -> string -> EdgeId)
    (getPathElemHasher : EDdgDensity -> bool -> list TDdgPath -> PathElemRef -> string)
    (encode : list nat -> string) (decode : string -> Result (list nat))
    paths dm l density showOp (g : GraphModel.t EdgeId) (indices : list nat) :
  codecRoundTrip encode decode ->
  GraphModel.new getEdgeId getPathElemHasher paths dm l density showOp = Ok g ->
  exists edges vertices,
    GraphModel.getVisible decode g (Some (encode indices)) = Ok (edges, vertices)
    /\ NoDup edges /\ NoDup vertices
    /\ (forall v, v ∈ vertices <->
          exists i r, i ∈ indices
            /\ GraphModel.visIdxToPathElem g !! i = Some r
            /\ GraphModel.pathElemToVertex g !! r = Some v)
    /\ (forall e, e ∈ edges <->
          exists i r, i ∈ indices
            /\ GraphModel.visIdxToPathElem g !! i = Some r
            /\ GraphModel.pathElemToEdge g !! r = Some e).
Proof.
  intros Hcodec Hnew.
  destruct (new_inv _ _ _ _ _ _ _ _ Hnew) as (Hinv & _ & Hl & _).
  destruct (Hcodec indices) as (decoded & Hdec & Hmem).
  set (pes := omap (fun visIdx : nat => GraphModel.visIdxToPathElem g !! visIdx) decoded).
  assert (forall r, r ∈ pes <->
            exists i, i ∈ indices /\ GraphModel.visIdxToPathElem g !! i = Some r) as Hpes.
  { intros r. unfold pes. rewrite list_elem_of_omap. split.
    - intros (i & Hi & Hr). exists i. split; [by apply Hmem|done].
    - intros (i & Hi & Hr). exists i. split; [by apply Hmem|done]. }
  assert (GraphModel.getVisible decode g (Some (encode indices))
          = forEachR (GraphModel.collectVisible g) pes ([], [])) as Hvis.
  { unfold GraphModel.getVisible, GraphModel.getVisiblePathElems. by rewrite Hdec. }
  destruct (collectVisible_ok g pes ([], [])) as [[edges vertices] Hrun].
  { intros r Hr. apply Hpes in Hr as (i & _ & Hr).
    apply (inv_dom _ _ _ _ Hinv). rewrite <- Hl. by eapply list_elem_of_lookup_2. }
  exists edges, vertices. rewrite Hvis. split; [done|].
  apply collectVisible_spec in Hrun as (Hes & Hvs & Hv & He).
  split; [apply Hes; constructor|]. split; [apply Hvs; constructor|]. split.
  - intros v. rewrite Hv. split.
    + intros [Hin|(r & Hr & Hrv)]; [by apply elem_of_nil in Hin|].
      apply Hpes in Hr as (i & Hi & Hr). by exists i, r.
    + intros (i & r & Hi & Hr & Hrv). right. exists r. split; [|done].
      apply Hpes. by exists i.
  - intros e. rewrite He. split.
    + intros [Hin|(r & Hr & Hre)]; [by apply elem_of_nil in Hin|].
      apply Hpes in Hr as (i & Hi & Hr). by exists i, r.
    + intros (i & r & Hi & Hr & Hre). right. exists r. split; [|done].
      apply Hpes. by exists i.
Qed.

(** ** The visibility codec *)

Section codec_properties.
Import VisibilityCodec.

Lemma decimal_nonempty n : decimal n <> "".
Proof.
  unfold decimal. destruct (Nat.to_uint n) eqn:Hn; simpl; try done.
  pose proof (DecimalNat.Unsigned.of_to n) as Hof. rewrite Hn in Hof.
  simpl in Hof. subst n. discriminate Hn.
Qed.

Lemma parseDecimal_decimal n : parseDecimal (decimal n) = Some n.
Proof.
  unfold parseDecimal. rewrite decide_False by apply decimal_nonempty.
  unfold decimal. rewrite NilEmpty.usu. simpl.
  by rewrite DecimalNat.Unsigned.of_to.
Qed.

Lemma commaFree_string_of_uint d : commaFree (NilEmpty.string_of_uint d).
Proof. induction d; simpl; try done; split; done. Qed.

Lemma commaFree_decimal n : commaFree (decimal n).
Proof. apply commaFree_string_of_uint. Qed.

Lemma split_commaFree s : commaFree s -> JsString.split "," s = [s].
Proof.
  induction s as [|c s IH]; simpl; [done|]. intros [Hc Hs].
  rewrite decide_False by done. by rewrite IH.
Qed.

Lemma split_commaFree_app s rest :
  commaFree s ->
  JsString.split "," (s +:+ String "," rest) = s :: JsString.split "," rest.
Proof.
  induction s as [|c s IH]; simpl; [done|].
  intros [Hc Hs]. rewrite decide_False by done. by rewrite IH.
Qed.

Lemma split_concat toks :
  toks <> [] -> Forall commaFree toks ->
  JsString.split "," (String.concat "," toks) = toks.
Proof.
  induction toks as [|t toks IH]; [done|]. intros _ Hall.
  apply Forall_cons in Hall as [Ht Hall].
  destruct toks as [|t' toks].
  - by apply split_commaFree.
  - change (String.concat "," (t :: t' :: toks))
      with (t +:+ String "," (String.concat "," (t' :: toks))).
    rewrite split_commaFree_app by done. f_equal. by apply IH.
Qed.

Lemma concat_nonempty toks :
  toks <> [] -> Forall (fun t => t <> "") toks -> String.concat "," toks <> "".
Proof.
  destruct toks as [|t toks]; [done|]. intros _ Hall.
  apply Forall_cons in Hall as [Ht _].
  destruct toks; simpl; [done|]. by destruct t.
Qed.

Lemma mapM_parseDecimal ds : mapM parseDecimal (decimal <$> ds) = Some ds.
Proof.
  apply mapM_Some. induction ds as [|d ds IH]; constructor; [|done].
  apply parseDecimal_decimal.
Qed.

Lemma undeltas_deltas prev l :
  Forall (Nat.le prev) l -> StronglySorted Nat.le l ->
  undeltas prev (deltas prev l) = l.
Proof.
  revert prev. induction l as [|x l IH]; intros prev Hprev Hs; simpl; [done|].
  apply Forall_cons in Hprev as [Hx _].
  apply StronglySorted_inv in Hs as [Hs Hxl].
  replace (prev + (x - prev))%nat with x by lia. f_equal. by apply IH.
Qed.

Lemma decode_encode indices :
  decode (encode indices) = Ok (merge_sort Nat.le (remove_dups indices)).
Proof.
  unfold decode, encode. set (sorted := merge_sort Nat.le (remove_dups indices)).
  assert (undeltas 0 (deltas 0 sorted) = sorted) as Hround.
  { apply undeltas_deltas.
    - apply Forall_forall. intros; lia.
    - apply Sorted_StronglySorted; [intros x y z; lia|]. apply Sorted_merge_sort. apply _. }
  destruct (deltas 0 sorted) as [|d ds] eqn:Hds.
  - rewrite <- Hround. by rewrite decide_True.
  - rewrite decide_False.
    2:{ apply concat_nonempty; [done|].
        apply Forall_fmap, Forall_forall. intros n _. apply decimal_nonempty. }
    rewrite split_concat.
    + by rewrite mapM_parseDecimal, Hround.
    + done.
    + apply Forall_fmap, Forall_forall. intros n _. apply commaFree_decimal.
Qed.

Lemma codec_roundtrip : codecRoundTrip encode decode.
Proof.
  intros indices. eexists. split; [apply decode_encode|].
  intros i. rewrite merge_sort_Permutation. apply elem_of_remove_dups.
Qed.
End codec_properties.

(** C4. For every finite set of non-negative integers, decoding the
    encoding of the set gives the set back, and the empty set is encoded by
    the empty token. *)
Theorem codec_round_trip (indices : gset nat) :
  VisibilityCodec.decodeSet (VisibilityCodec.encodeSet indices) = Ok indices
  /\ VisibilityCodec.encodeSet ∅ = "".
Proof.
  split; [|reflexivity].
  unfold VisibilityCodec.decodeSet, VisibilityCodec.encodeSet.
  rewrite decode_encode. cbn [bindR]. f_equal.
  apply set_eq. intros i.
  rewrite elem_of_list_to_set, merge_sort_Permutation, elem_of_remove_dups.
  apply elem_of_elements.
Qed.

Lemma getVisible_encoded_witness :
  codecRoundTrip VisibilityCodec.encode VisibilityCodec.decode
  /\ exists g : GraphModel.t (string * string),
      GraphModel.new pairEdgeId conciseHasher scenarioA_paths ∅ scenarioA_order
        MostConcise true = Ok g
      /\ exists edges vertices,
          GraphModel.getVisible VisibilityCodec.decode g
            (Some (VisibilityCodec.encode [0; 5]%nat)) = Ok (edges, vertices)
          /\ NoDup edges /\ NoDup vertices
          /\ (forall v, v ∈ vertices <->
                exists i r, i ∈ [0; 5]%nat
                  /\ GraphModel.visIdxToPathElem g !! i = Some r
                  /\ GraphModel.pathElemToVertex g !! r = Some v)
          /\ (forall e, e ∈ edges <->
                exists i r, i ∈ [0; 5]%nat
                  /\ GraphModel.visIdxToPathElem g !! i = Some r
                  /\ GraphModel.pathElemToEdge g !! r = Some e).
Proof.
  split; [exact codec_roundtrip|].
  destruct scenarioA_graph as (g & Hg). exists g. split; [exact Hg|].
  exact (getVisible_encoded pairEdgeId conciseHasher
           VisibilityCodec.encode VisibilityCodec.decode
           scenarioA_paths ∅ scenarioA_order MostConcise true g [0; 5]%nat
           codec_roundtrip Hg).
Defined.

(** ** Matching a query against the visible vertices *)

Lemma includes_empty s : JsString.includes s "" = true.
Proof. by destruct s. Qed.

Lemma prefix_double_space s :
  String.prefix "  " s = true -> exists s', s = String " " (String " " s').
Proof.
  destruct s as [|a s]; [done|]. cbn [String.prefix].
  destruct (ascii_dec " " a) as [<-|]; [|done].
  destruct s as [|b s']; [done|]. cbn [String.prefix].
  destruct (ascii_dec " " b) as [<-|]; [|done]. by exists s'.
Qed.

Lemma toLowerCase_double_space s :
  JsString.includes s "  " = true ->
  JsString.includes (JsString.toLowerCase s) "  " = true.
Proof.
  induction s as [|c s IH]; [done|].
  cbn [JsString.includes JsString.toLowerCase].
  intros Hinc. apply orb_true_iff in Hinc as [Hpre|Hinc].
  - apply prefix_double_space in Hpre as (s' & Hs). injection Hs as -> ->.
    cbn [JsString.toLowerCase]. change (JsString.lowerChar " ") with " "%char.
    apply orb_true_iff. left. cbn [String.prefix].
    destruct (ascii_dec " " " "); [|done]. by destruct (JsString.toLowerCase s').
  - apply orb_true_iff. right. by apply IH.
Qed.

Lemma split_double_space s :
  JsString.includes s "  " = true -> "" ∈ tail (JsString.split " " s).
Proof.
  induction s as [|c s IH]; [done|].
  cbn [JsString.includes JsString.split].
  intros Hinc. apply orb_true_iff in Hinc as [Hpre|Hinc].
  - apply prefix_double_space in Hpre as (s' & Hs). injection Hs as -> ->.
    simpl. left.
  - specialize (IH Hinc). case_decide.
    + simpl. destruct (JsString.split " " s) as [|t ts]; simpl in *; [done|by right].
    + destruct (JsString.split " " s) as [|t ts]; simpl in *; [|done].
      by apply elem_of_nil in IH.
Qed.

Lemma foldl_setAdd_all {A} `{EqDecision A} (f : A -> bool) (vs acc : list A) :
  (forall v, v ∈ vs -> f v = true) -> NoDup (acc ++ vs) ->
  foldl (fun s v => if f v then setAdd v s else s) acc vs = acc ++ vs.
Proof.
  revert acc. induction vs as [|v vs IH]; intros acc Hf Hnd; simpl.
  - by rewrite app_nil_r.
  - rewrite Hf by left.
    assert (setAdd v acc = acc ++ [v]) as ->.
    { unfold setAdd. rewrite decide_False; [done|].
      apply NoDup_app in Hnd as (_ & Hdisj & _). intros Hv.
      apply (Hdisj v Hv). left. }
    rewrite IH.
    + by rewrite <- app_assoc.
    + intros v' Hv'. apply Hf. by right.
    + by rewrite <- app_assoc.
Qed.

Lemma matchesUiFind_empty_token uiFindArr vertex :
  "" ∈ uiFindArr -> GraphModel.matchesUiFind uiFindArr vertex = true.
Proof.
  intros Hin. unfold GraphModel.matchesUiFind. apply existsb_exists.
  exists "". split; [by apply list_elem_of_In|]. by rewrite includes_empty.
Qed.

(** C10. When the query is not empty and its trimmed form contains two
    consecutive spaces, [getVisibleUiFindMatches] returns all the visible
    vertices: splitting on single spaces yields an empty token, which every
    service name includes. *)
Theorem uiFind_double_space_matches_all {EdgeId : Type} `{Countable EdgeId}
    (decode : string -> Result (list nat)) (g : GraphModel.t EdgeId)
    (uiFind : string) (visEncoding : option string) edges vertices :
  uiFind <> "" ->
  JsString.includes (JsString.trim uiFind) "  " = true ->
  GraphModel.getVisible decode g visEncoding = Ok (edges, vertices) ->
  "" ∈ JsString.split " " (JsString.toLowerCase (JsString.trim uiFind))
  /\ GraphModel.getVisibleUiFindMatches decode g (Some uiFind) visEncoding = Ok vertices.
Proof.
  intros Hne Hinc Hvis.
  assert ("" ∈ JsString.split " " (JsString.toLowerCase (JsString.trim uiFind))) as Htok.
  { apply toLowerCase_double_space, split_double_space in Hinc.
    destruct (JsString.split " " _); [by apply elem_of_nil in Hinc|by right]. }
  split; [done|].
  destruct uiFind as [|c q]; [done|].
  cbn [GraphModel.getVisibleUiFindMatches]. rewrite Hvis. cbn [bindR]. f_equal.
  apply (foldl_setAdd_all _ vertices []).
  - intros v _. by apply matchesUiFind_empty_token.
  - by apply getVisible_NoDup in Hvis as [_ Hnd].
Qed.

Lemma uiFind_double_space_matches_all_witness :
  exists (g : GraphModel.t (string * string)) edges vertices,
    ("a  b" : string) <> ""
    /\ JsString.includes (JsString.trim "a  b") "  " = true
    /\ GraphModel.getVisible VisibilityCodec.decode g
         (Some (VisibilityCodec.encode [0]%nat)) = Ok (edges, vertices)
    /\ "" ∈ JsString.split " " (JsString.toLowerCase (JsString.trim "a  b"))
    /\ GraphModel.getVisibleUiFindMatches VisibilityCodec.decode g (Some "a  b")
         (Some (VisibilityCodec.encode [0]%nat)) = Ok vertices.
Proof.
  destruct scenarioA_graph as (g & Hg).
  destruct (getVisible_defined pairEdgeId conciseHasher VisibilityCodec.decode
              scenarioA_paths ∅ scenarioA_order MostConcise true g
              (VisibilityCodec.encode [0]%nat) _ Hg (decode_encode [0]%nat))
    as ([edges vertices] & Hvis).
  exists g, edges, vertices.
  assert (("a  b" : string) <> "") as Hne by discriminate.
  assert (JsString.includes (JsString.trim "a  b") "  " = true) as Hinc by reflexivity.
  split; [exact Hne|]. split; [exact Hinc|]. split; [exact Hvis|].
  exact (uiFind_double_space_matches_all VisibilityCodec.decode g "a  b"
           (Some (VisibilityCodec.encode [0]%nat)) edges vertices Hne Hinc Hvis).
Defined.

(** ** Input order and the sort key *)

(** C3 on a failing input. The paths [collisionPath1] and [collisionPath2]
    differ and have the same compare value, so the sort leaves them in the
    order of the input: the payloads listing them in the two orders are
    permutations of one another, and the transform returns different models
    for them, the element at visibility index 0 being the first element of
    [collisionPath1] for one and of [collisionPath2] for the other. *)
Theorem sort_key_collision_breaks_determinism :
  collisionPath1 <> collisionPath2
  /\ compareValue collisionPath1 = compareValue collisionPath2
  /\ [collisionPath1; collisionPath2] ≡ₚ [collisionPath2; collisionPath1]
  /\ exists m1 m2,
      transformDdgData [collisionPath1; collisionPath2] collisionFocal = Ok m1
      /\ transformDdgData [collisionPath2; collisionPath1] collisionFocal = Ok m2
      /\ DdgModel.paths m1 <> DdgModel.paths m2
      /\ (PathElem.operation <$>
            (JsMap.get 0%nat (DdgModel.visIdxToPathElem m1) ≫= deref (DdgModel.paths m1)))
         = Some (mkOpRef "f" "a")
      /\ (PathElem.operation <$>
            (JsMap.get 0%nat (DdgModel.visIdxToPathElem m2) ≫= deref (DdgModel.paths m2)))
         = Some (mkOpRef "f" "a,b").
Proof.
  split; [discriminate|]. split; [reflexivity|]. split; [apply Permutation_swap|].
  eexists _, _. split; [vm_compute; reflexivity|]. split; [vm_compute; reflexivity|].
  split; [discriminate|]. split; reflexivity.
Qed.

(** * Further properties of [transformDdgData] *)

Lemma transformDdgData_tiers payload focal m :
  transformDdgData payload focal = Ok m ->
  tiersOf (DdgModel.distanceToPathElems m) (DdgModel.paths m).
Proof.
  intros Hm. pose proof (transformDdgData_Ok_hasFocal _ _ _ Hm) as Hall.
  destruct (transformDdgData_spec payload focal Hall) as (m' & Hm' & Her & [Hne Ht] & _).
  rewrite Hm in Hm'. injection Hm' as <-.
  split; [done|]. intros d. rewrite Ht, <- Her. apply tier_erase.
Qed.

(** X2. [distanceToPathElems] of a transform result groups the elements by
    their distance: the array under [d] holds exactly the elements at
    distance [d], each once, and no array is empty. *)
Theorem distanceToPathElems_groups_by_distance payload focal m :
  transformDdgData payload focal = Ok m ->
  (forall d r,
     r ∈ default [] (DdgModel.distanceToPathElems m !! d)
     <-> is_Some (deref (DdgModel.paths m) r) /\ distance (DdgModel.paths m) r = Some d)
  /\ (forall d elems,
        DdgModel.distanceToPathElems m !! d = Some elems -> elems <> [] /\ NoDup elems).
Proof.
  intros Hm. destruct (transformDdgData_tiers _ _ _ Hm) as [Hne Ht].
  pose proof (transformDdgData_wf _ _ _ Hm) as Hwf.
  split.
  - intros d r. fold (getTier (DdgModel.distanceToPathElems m) d). rewrite Ht.
    by apply elem_of_tier.
  - intros d elems Hd. split; [by eapply Hne|].
    pose proof (Ht d) as Htd. unfold getTier in Htd. rewrite Hd in Htd. simpl in Htd.
    rewrite Htd. by apply NoDup_tier.
Qed.

(** X1. The paths of a transform result are as many as the payload paths, the
    elements as many as the payload entries, and [memberOf] and [memberIdx]
    of each element name the slot that holds it. *)
Theorem paths_back_pointers payload focal m :
  transformDdgData payload focal = Ok m ->
  length (DdgModel.paths m) = length payload
  /\ length (allRefs (DdgModel.paths m)) = length (concat payload)
  /\ forall p path i e,
       DdgModel.paths m !! p = Some path -> members path !! i = Some e ->
       PathElem.memberOf e = p /\ PathElem.memberIdx e = i.
Proof.
  intros Hm. pose proof (transformDdgData_wf _ _ _ Hm) as Hwf.
  destruct (transformDdgData_indices payload focal m Hm) as (Her & _).
  split; [|split].
  - rewrite <- (length_fmap erasePath). fold (erase (DdgModel.paths m)).
    rewrite Her, length_parsedFrom. by rewrite (sort_Permutation comparePaths payload).
  - rewrite <- length_allRefs_erase, Her, length_allRefs_membersOf.
    assert (concat (sort comparePaths payload) ≡ₚ concat payload) as ->; [|done].
    by rewrite (sort_Permutation comparePaths payload).
  - intros p path i e Hp He. destruct (Hwf p path Hp) as [_ Href].
    specialize (Href i e He). unfold ref_of in Href. by injection Href.
Qed.

Lemma focalSideNeighbor_adjacent paths r d :
  wfArena paths -> is_Some (deref paths r) -> distance paths r = Some d -> d <> 0 ->
  exists n,
    focalSideNeighbor paths r = Some n
    /\ n.1 = r.1 /\ Z.of_nat n.2 = Z.of_nat r.2 - Z.sgn d
    /\ is_Some (deref paths n)
    /\ distance paths n = Some (d - Z.sgn d).
Proof.
  intros Hwf [e He] Hd Hne. unfold focalSideNeighbor, deref, distance in *.
  destruct (paths !! r.1) as [path|] eqn:Hp; simpl in *; [|done].
  injection Hd as Hd. destruct (Hwf _ _ Hp) as [Hf Href].
  pose proof (lookup_lt_Some _ _ _ He) as Hlt.
  rewrite Hd. rewrite decide_False by done.
  rewrite decide_True by lia.
  destruct (lookup_lt_is_Some_2 (members path) (Z.to_nat (Z.of_nat r.2 - Z.sgn d)))
    as [e' He']; [lia|].
  rewrite He'. simpl. exists (ref_of e'). rewrite (Href _ _ He'). simpl.
  split; [done|]. split; [done|]. split; [lia|].
  rewrite Hp. simpl. rewrite He'. split; [by eexists|]. f_equal. lia.
Qed.

(** X7. In a transform result the focal-side neighbour of an element away from
    the focal node is the member of the same path one position nearer to
    the focal index, and it is always there; an element at the focal index
    has none. *)
Theorem focalSideNeighbor_one_step_nearer payload focal m r d :
  transformDdgData payload focal = Ok m ->
  is_Some (deref (DdgModel.paths m) r) ->
  distance (DdgModel.paths m) r = Some d ->
  (d = 0 -> focalSideNeighbor (DdgModel.paths m) r = None)
  /\ (d <> 0 ->
      exists n,
        focalSideNeighbor (DdgModel.paths m) r = Some n
        /\ n.1 = r.1 /\ Z.of_nat n.2 = Z.of_nat r.2 - Z.sgn d
        /\ is_Some (deref (DdgModel.paths m) n)
        /\ distance (DdgModel.paths m) n = Some (d - Z.sgn d)).
Proof.
  intros Hm Hr Hd. pose proof (transformDdgData_wf _ _ _ Hm) as Hwf. split.
  - intros ->. unfold focalSideNeighbor, distance in *.
    destruct (DdgModel.paths m !! r.1) as [path|]; simpl in *; [|done].
    injection Hd as Hd. by rewrite decide_True.
  - intros Hne. by apply focalSideNeighbor_adjacent.
Qed.

Lemma NoDup_all_eq {A} (x : A) (l : list A) :
  NoDup l -> x ∈ l -> (forall y, y ∈ l -> y = x) -> l = [x].
Proof.
  intros Hnd Hx Hall. destruct l as [|y l]; [by apply elem_of_nil in Hx|].
  assert (y = x) as -> by (apply Hall; left).
  destruct l as [|z l]; [done|].
  assert (z = x) as -> by (apply Hall; right; left).
  apply NoDup_cons in Hnd as [Hnin _]. destruct Hnin. left.
Qed.

Lemma tier_zero_from q paths :
  (forall p path, paths !! p = Some path -> wfPath (q + p) path) ->
  tier paths 0 = imap (fun p path => ((q + p)%nat, Z.to_nat (focalIdx path))) paths.
Proof.
  revert q. induction paths as [|path paths IH]; intros q Hwf; [done|].
  rewrite tier_cons. cbn [imap]. rewrite (IH (S q)).
  2:{ intros p path' Hp. replace (S q + p)%nat with (q + S p)%nat by lia. by apply Hwf. }
  rewrite Nat.add_0_r.
  assert (imap ((fun p path0 => ((q + p)%nat, Z.to_nat (focalIdx path0))) ∘ S) paths
          = imap (fun p path0 => ((S q + p)%nat, Z.to_nat (focalIdx path0))) paths) as ->.
  { apply imap_ext. intros i x _. simpl. f_equal. lia. }
  change (?a :: ?l) with ([a] ++ l). f_equal.
  destruct (Hwf 0%nat path eq_refl) as [Hf Href]. rewrite Nat.add_0_r in Href.
  destruct (lookup_lt_is_Some_2 (members path) (Z.to_nat (focalIdx path))) as [e He]; [lia|].
  apply NoDup_all_eq.
  - apply (NoDup_fmap_2_strong ref_of).
    + intros x y Hx Hy Hxy. apply list_elem_of_filter in Hx as [_ Hx], Hy as [_ Hy].
      apply list_elem_of_lookup in Hx as [i Hi], Hy as [j Hj].
      pose proof (Href _ _ Hi) as Hri. pose proof (Href _ _ Hj) as Hrj.
      assert (i = j) by congruence. subst j. congruence.
    + apply NoDup_filter. apply (NoDup_fmap_1 ref_of).
      rewrite (refs_of_members q path Href). apply NoDup_fmap_2; [|apply NoDup_seq].
      by intros ?? [=].
  - apply list_elem_of_fmap. exists e. split; [by rewrite (Href _ _ He)|].
    apply list_elem_of_filter. split; [|by eapply list_elem_of_lookup_2].
    pose proof (Href _ _ He) as Hre. unfold ref_of in Hre. injection Hre as _ ->. lia.
  - intros y Hy. apply list_elem_of_fmap in Hy as (e' & -> & He').
    apply list_elem_of_filter in He' as [Hd He'].
    apply list_elem_of_lookup in He' as [i Hi]. rewrite (Href _ _ Hi). f_equal.
    pose proof (Href _ _ Hi) as Hri. unfold ref_of in Hri. injection Hri as _ Hidx. lia.
Qed.

(** X6. The focal elements come first: for [p] below the number of paths, the
    element numbered [p] is the member at [focalIdx] of path [p]. *)
Theorem focal_elements_numbered_first payload focal m p path :
  transformDdgData payload focal = Ok m ->
  DdgModel.paths m !! p = Some path ->
  JsMap.get p (DdgModel.visIdxToPathElem m) = Some (p, Z.to_nat (focalIdx path))
  /\ visibilityIdxOf (DdgModel.paths m) (p, Z.to_nat (focalIdx path)) = Ok p.
Proof.
  intros Hm Hp. pose proof (transformDdgData_Ok_hasFocal _ _ _ Hm) as Hall.
  destruct (transformDdgData_indices payload focal m Hm)
    as (Her & Hwf & _ & _ & _ & Hget & _ & Hvis).
  assert (visitedOrder focal payload !! p = Some (p, Z.to_nat (focalIdx path))) as Hord.
  { assert (erase (DdgModel.paths m) !! p = Some (erasePath path)) as Hep.
    { unfold erase. by rewrite list_lookup_fmap, Hp. }
    rewrite Her in Hep. unfold visitedOrder.
    destruct (length (concat payload)) as [|K] eqn:HK.
    { exfalso. pose proof (lookup_lt_Some _ _ _ Hep) as Hlt.
      rewrite length_parsedFrom in Hlt.
      destruct (sort comparePaths payload) as [|es l] eqn:Hs; [simpl in Hlt; lia|].
      assert (es ∈ payload) as Hes.
      { rewrite <- (sort_Permutation comparePaths payload), Hs. left. }
      rewrite Forall_forall in Hall. destruct (Hall es Hes) as (e & He & _).
      assert (length (concat payload) >= length es)%nat as Hge
        by (by apply length_le_concat).
      destruct es; [by apply elem_of_nil in He|]. simpl in Hge. lia. }
    unfold tierOrder. rewrite tierOrderFrom_S. rewrite bind_app.
    change ([- Z.of_nat 0; Z.of_nat 0 + 1]) with ([0] ++ [1]).
    rewrite bind_app, bind_singleton, <- app_assoc.
    rewrite (tier_zero_from 0 _ Hwf).
    rewrite lookup_app_l.
    2:{ rewrite length_imap. by eapply lookup_lt_Some. }
    rewrite list_lookup_imap, Hep. done. }
  split; [by apply Hget|by apply Hvis].
Qed.

(** * The order of the paths *)

Lemma string_compare_trans (a b c : string) :
  String.compare a b <> Gt -> String.compare b c <> Gt -> String.compare a c <> Gt.
Proof.
  revert b c. induction a as [|x a IH]; intros [|y b] [|z c]; simpl; try done.
  unfold Ascii.compare.
  destruct (N.compare_spec (N_of_ascii x) (N_of_ascii y)) as [Hxy|Hxy|Hxy];
    destruct (N.compare_spec (N_of_ascii y) (N_of_ascii z)) as [Hyz|Hyz|Hyz];
    destruct (N.compare_spec (N_of_ascii x) (N_of_ascii z)) as [Hxz|Hxz|Hxz];
    try done; try lia.
  apply IH.
Qed.

Lemma ltb_false_compare (a b : string) :
  String.ltb b a = false <-> String.compare a b <> Gt.
Proof.
  unfold String.ltb. rewrite (String.compare_antisym a b).
  destruct (String.compare b a); simpl; split; done.
Qed.

Lemma compareValueLe_trans a b c :
  compareValueLe a b -> compareValueLe b c -> compareValueLe a c.
Proof. unfold compareValueLe. rewrite !ltb_false_compare. apply string_compare_trans. Qed.

Lemma compareValueLe_total a b : compareValueLe a b \/ compareValueLe b a.
Proof.
  unfold compareValueLe. rewrite !ltb_false_compare.
  rewrite (String.compare_antisym (compareValue b)).
  destruct (String.compare (compareValue a) (compareValue b)); simpl; auto.
Qed.

Lemma compareValueLe_antisym a b :
  compareValueLe a b -> compareValueLe b a -> compareValue a = compareValue b.
Proof.
  unfold compareValueLe. rewrite !ltb_false_compare.
  rewrite (String.compare_antisym (compareValue b)).
  destruct (String.compare (compareValue a) (compareValue b)) eqn:Hc; simpl; try done.
  intros _ _. by apply String.compare_eq_iff.
Qed.

(** The comparator puts [a] after [b] exactly when [a] is not before or
    level with [b] in the order of the compare values. *)
Lemma comparePaths_pos a b : 0 < comparePaths a b <-> ~ compareValueLe a b.
Proof.
  unfold comparePaths, compareValueLe.
  destruct (String.ltb (compareValue b) (compareValue a)) eqn:Hba; [done|].
  destruct (String.ltb (compareValue a) (compareValue b)); split; done || lia.
Qed.

Lemma sortInsert_sorted x l :
  StronglySorted compareValueLe l ->
  StronglySorted compareValueLe (sortInsert comparePaths x l).
Proof.
  induction 1 as [|y l Hl IH Hy]; simpl; [repeat constructor|].
  case_decide as Hc.
  - apply comparePaths_pos in Hc.
    assert (compareValueLe y x) as Hyx by (by destruct (compareValueLe_total x y)).
    constructor; [done|].
    rewrite (sortInsert_Permutation comparePaths x l). by constructor.
  - assert (compareValueLe x y) as Hxy.
    { destruct (compareValueLe_total x y) as [|Hyx]; [done|].
      unfold compareValueLe in *. rewrite comparePaths_pos in Hc.
      unfold compareValueLe in Hc.
      by destruct (String.ltb (compareValue y) (compareValue x)); [destruct Hc|]. }
    constructor; [by constructor|]. constructor; [done|].
    eapply Forall_impl; [exact Hy|]. intros z Hz. by eapply compareValueLe_trans.
Qed.

Lemma sort_sorted (payload : TDdgPayload) :
  StronglySorted compareValueLe (sort comparePaths payload).
Proof.
  induction payload as [|x l IH]; simpl; [constructor|]. by apply sortInsert_sorted.
Qed.

Lemma comparePaths_compare a b :
  comparePaths a b
  = match String.compare (compareValue a) (compareValue b) with
    | Lt => -1 | Eq => 0 | Gt => 1
    end.
Proof.
  unfold comparePaths, String.ltb. cbv zeta.
  rewrite (String.compare_antisym (compareValue b) (compareValue a)).
  by destruct (String.compare (compareValue a) (compareValue b)).
Qed.

Lemma comparePaths_le a b : comparePaths a b <= 0 <-> compareValueLe a b.
Proof.
  pose proof (comparePaths_pos a b) as Hpos. unfold compareValueLe in *.
  destruct (String.ltb (compareValue b) (compareValue a)); split; intros Hle; try done.
  - exfalso. assert (0 < comparePaths a b) by (apply Hpos; congruence). lia.
  - destruct (Z_lt_le_dec 0 (comparePaths a b)) as [Hlt|]; [|done].
    by apply Hpos in Hlt.
Qed.

(** X4. The paths are taken in the order of their compare values: the sorted
    payload is a rearrangement of the payload in which no path comes after
    one of a greater compare value, and path [p] of a returned model is
    made from path [p] of the sorted payload.  The comparator is a
    consistent total order on compare values: swapping its arguments
    negates its result, it returns [0] exactly on equal compare values and
    a negative number exactly when the first compare value is the lesser,
    and it is transitive. *)
Theorem paths_sorted_by_compare_value (payload : TDdgPayload) :
  sort comparePaths payload ≡ₚ payload
  /\ (forall i j a b,
        sort comparePaths payload !! i = Some a ->
        sort comparePaths payload !! j = Some b ->
        (i < j)%nat -> String.ltb (compareValue b) (compareValue a) = false)
  /\ (forall focal m p es,
        transformDdgData payload focal = Ok m ->
        sort comparePaths payload !! p = Some es ->
        exists path,
          DdgModel.paths m !! p = Some path
          /\ PathElem.operation <$> members path = opRefOf <$> es)
  /\ (forall a b, comparePaths a b = - comparePaths b a)
  /\ (forall a b, comparePaths a b = 0 <-> compareValue a = compareValue b)
  /\ (forall a b,
        comparePaths a b < 0 <-> String.ltb (compareValue a) (compareValue b) = true)
  /\ (forall a b c,
        comparePaths a b <= 0 -> comparePaths b c <= 0 -> comparePaths a c <= 0).
Proof.
  split; [apply sort_Permutation|]. split.
  { intros i j a b Hi Hj Hij.
    by eapply (StronglySorted_lookup compareValueLe _ i j a b (sort_sorted payload)). }
  split.
  { intros focal m p es Hm Hes. by eapply transformDdgData_members. }
  split.
  { intros a b. rewrite !comparePaths_compare.
    rewrite (String.compare_antisym (compareValue b) (compareValue a)).
    by destruct (String.compare (compareValue a) (compareValue b)). }
  split.
  { intros a b. rewrite comparePaths_compare. split.
    - destruct (String.compare (compareValue a) (compareValue b)) eqn:Hc; try done.
      intros _. by apply String.compare_eq_iff.
    - intros ->. pose proof (String.compare_antisym (compareValue b) (compareValue b)) as Hc.
      by destruct (String.compare (compareValue b) (compareValue b)). }
  split.
  { intros a b. rewrite comparePaths_compare. unfold String.ltb.
    destruct (String.compare (compareValue a) (compareValue b)); split; done. }
  intros a b c. rewrite !comparePaths_le. apply compareValueLe_trans.
Qed.

Lemma sort_permutation_invariant (payload payload' : TDdgPayload) :
  payload ≡ₚ payload' ->
  (forall a b, a ∈ payload -> b ∈ payload ->
     compareValue a = compareValue b -> a = b) ->
  sort comparePaths payload = sort comparePaths payload'.
Proof.
  intros Hperm Hinj.
  apply (StronglySorted_unique_strong compareValueLe); [|apply sort_sorted..|].
  - intros a b Ha Hb Hab Hba. apply Hinj.
    + by rewrite <- (sort_Permutation comparePaths payload).
    + rewrite Hperm. by rewrite <- (sort_Permutation comparePaths payload').
    + by apply compareValueLe_antisym.
  - by rewrite !sort_Permutation.
Qed.

(** X5. When no two different paths of the payload have the same compare
    value, the order of the paths in the payload does not matter: every
    rearrangement of the payload gives the same outcome. *)
Theorem transformDdgData_order_independent (payload payload' : TDdgPayload) focal :
  payload ≡ₚ payload' ->
  (forall a b, a ∈ payload -> b ∈ payload ->
     compareValue a = compareValue b -> a = b) ->
  transformDdgData payload focal = transformDdgData payload' focal.
Proof.
  intros Hperm Hinj. unfold transformDdgData.
  rewrite (sort_permutation_invariant payload payload' Hperm Hinj).
  assert (length (concat payload) = length (concat payload')) as ->; [|done].
  by rewrite Hperm.
Qed.

(** * The service map *)

Lemma pathElemsOf_register s' o' r sm s o :
  pathElemsOf (registerPathElem s' o' r sm) s o
  = pathElemsOf sm s o ++ (if decide (s = s' /\ o = o') then [r] else []).
Proof.
  unfold pathElemsOf, registerPathElem.
  destruct (decide (s = s')) as [->|Hs].
  - rewrite lookup_insert_eq. simpl.
    destruct (decide (o = o')) as [->|Ho].
    + rewrite lookup_insert_eq. simpl. by rewrite decide_True.
    + rewrite lookup_insert_ne by done. rewrite decide_False by (by intros [_ ?]).
      by rewrite app_nil_r.
  - rewrite lookup_insert_ne by done. rewrite decide_False by (by intros [? _]).
    by rewrite app_nil_r.
Qed.

Lemma servicesInv_register s' o' r sm :
  servicesInv sm -> servicesInv (registerPathElem s' o' r sm).
Proof.
  intros Hinv s ops. unfold registerPathElem.
  destruct (decide (s = s')) as [->|Hs].
  - rewrite lookup_insert_eq. intros [= <-]. split.
    + apply insert_non_empty.
    + intros o l. destruct (decide (o = o')) as [->|Ho].
      * rewrite lookup_insert_eq. intros [= <-]. by destruct (default [] _).
      * rewrite lookup_insert_ne by done. intros Hl.
        destruct (sm !! s') as [ops'|] eqn:Hops; simpl in Hl; [|by rewrite lookup_empty in Hl].
        by apply (proj2 (Hinv _ _ Hops) o).
  - rewrite lookup_insert_ne by done. apply Hinv.
Qed.

Lemma servicesInv_present sm s o :
  servicesInv sm ->
  (is_Some (sm !! s) <-> exists o', pathElemsOf sm s o' <> [])
  /\ (forall ops, sm !! s = Some ops -> (is_Some (ops !! o) <-> pathElemsOf sm s o <> [])).
Proof.
  intros Hinv. unfold pathElemsOf. split.
  - split.
    + intros [ops Hops]. rewrite Hops. simpl.
      destruct (Hinv _ _ Hops) as [Hne Hl].
      destruct (map_choose _ Hne) as (o' & l & Hol).
      exists o'. rewrite Hol. simpl. by eapply Hl.
    + intros [o' Hne]. destruct (sm !! s); [done|]. simpl in Hne.
      by rewrite lookup_empty in Hne.
  - intros ops Hops. rewrite Hops. simpl. split.
    + intros [l Hl]. rewrite Hl. simpl. by eapply (proj2 (Hinv _ _ Hops)).
    + intros Hne. by destruct (ops !! o).
Qed.

Lemma mapMembers_services focal p i es f sm :
  servicesInv sm ->
  servicesInv (mapMembers focal p i es f sm).2
  /\ forall s o,
       pathElemsOf (mapMembers focal p i es f sm).2 s o
       = pathElemsOf sm s o
         ++ (ref_of <$> filter (fun e => PathElem.operation e = mkOpRef s o)
                               (membersOf p i es)).
Proof.
  revert i f sm. induction es as [|e es IH]; intros i f sm Hinv.
  - simpl. split; [done|]. intros s o. by rewrite app_nil_r.
  - cbn [mapMembers membersOf].
    match goal with |- context [mapMembers _ _ _ _ ?f' ?sm'] =>
      destruct (IH (S i) f' sm' (servicesInv_register _ _ _ _ Hinv)) as [Hinv' Hel];
      destruct (mapMembers focal p (S i) es f' sm') as [[ms f2] sm2] eqn:Hmm end.
    simpl in *. split; [done|]. intros s o. rewrite Hel, pathElemsOf_register.
    rewrite filter_cons. unfold opRefOf. simpl.
    destruct (decide (mkOpRef (service e) (operation e) = mkOpRef s o)) as [Heq|Hne].
    + injection Heq as <- <-. rewrite decide_True by done. by rewrite <- app_assoc.
    + rewrite decide_False; [by rewrite app_nil_r|]. intros [-> ->]. by destruct Hne.
Qed.

Lemma opTier_app paths1 paths2 s o :
  opTier (paths1 ++ paths2) s o = opTier paths1 s o ++ opTier paths2 s o.
Proof. unfold opTier. by rewrite bind_app. Qed.

Lemma forEachR_parsePath_services focal l : forall paths sm dm paths' sm' dm',
  forEachR (parsePath focal) l (paths, sm, dm) = Ok (paths', sm', dm') ->
  servicesInv sm ->
  servicesInv sm'
  /\ forall s o,
       pathElemsOf sm' s o
       = pathElemsOf sm s o ++ opTier (parsedFrom focal (length paths) l) s o.
Proof.
  induction l as [|es l IH]; intros paths sm dm paths' sm' dm' Hrun Hinv;
    cbn [forEachR] in Hrun.
  - injection Hrun as <- <- <-. split; [done|]. intros s o. by rewrite app_nil_r.
  - destruct (parsePath focal es (paths, sm, dm)) as [[[paths1 sm1] dm1]|] eqn:Hp;
      cbn [bindR] in Hrun; [|done].
    unfold parsePath in Hp.
    destruct (mapMembers_services focal (length paths) 0 es (-1) sm Hinv) as [Hinv1 Hel1].
    destruct (mapMembers_spec focal (length paths) 0 es (-1) sm) as [smx Hspec].
    rewrite Hspec in Hp, Hinv1, Hel1. simpl in Hinv1, Hel1.
    destruct (decide (_ = -1)) as [|Hf] in Hp; [done|]. injection Hp as <- <- <-.
    destruct (IH _ _ _ _ _ _ Hrun Hinv1) as [Hinv' Hel'].
    split; [done|]. intros s o. rewrite Hel', Hel1, <- app_assoc. f_equal.
    rewrite length_app, Nat.add_1_r. cbn [parsedFrom].
    unfold opTier. rewrite bind_cons. done.
Qed.

Lemma filter_operation_erase op (ms : list PathElem.t) :
  ref_of <$> filter (fun e => PathElem.operation e = op) (eraseElem <$> ms)
  = ref_of <$> filter (fun e => PathElem.operation e = op) ms.
Proof.
  induction ms as [|e ms IH]; [done|].
  rewrite fmap_cons, !filter_cons. cbn [eraseElem PathElem.new PathElem.operation].
  destruct (decide (PathElem.operation e = op)); [|done].
  rewrite !fmap_cons, IH. done.
Qed.

Lemma opTier_erase paths s o : opTier (erase paths) s o = opTier paths s o.
Proof.
  unfold opTier, erase. induction paths as [|path paths IH]; [done|].
  rewrite fmap_cons, !bind_cons, IH. f_equal. apply filter_operation_erase.
Qed.

Lemma opTier_sublist paths s o : opTier paths s o `sublist_of` allRefs paths.
Proof.
  unfold opTier, allRefs. induction paths as [|path paths IH]; [done|].
  rewrite !bind_cons. apply sublist_app; [|done].
  apply sublist_fmap, sublist_filter.
Qed.

Lemma elem_of_opTier paths s o r :
  wfArena paths ->
  r ∈ opTier paths s o
  <-> exists e, deref paths r = Some e /\ PathElem.operation e = mkOpRef s o.
Proof.
  intros Hwf. unfold opTier, deref. rewrite list_elem_of_bind. split.
  - intros (path & Hr & Hpath). apply list_elem_of_fmap in Hr as (e & -> & He).
    apply list_elem_of_filter in He as [Hop He].
    apply list_elem_of_lookup in Hpath as [p Hp], He as [i Hi].
    destruct (Hwf p path Hp) as [_ Href]. rewrite (Href _ _ Hi). simpl.
    rewrite Hp. simpl. by exists e.
  - intros (e & He & Hop). destruct (paths !! r.1) as [path|] eqn:Hp; simpl in He; [|done].
    exists path. split; [|by eapply list_elem_of_lookup_2].
    apply list_elem_of_fmap. exists e. split.
    + destruct (Hwf _ _ Hp) as [_ Href]. rewrite (Href _ _ He). by destruct r.
    + apply list_elem_of_filter. split; [done|]. by eapply list_elem_of_lookup_2.
Qed.

Lemma parsedFrom_operations focal (l : TDdgPayload) op :
  (exists r e, deref (parsedFrom focal 0 l) r = Some e /\ PathElem.operation e = op)
  <-> exists es entry, es ∈ l /\ entry ∈ es /\ opRefOf entry = op.
Proof.
  unfold deref. split.
  - intros (r & e & He & Hop). rewrite lookup_parsedFrom in He.
    cbn [Nat.add] in He.
    destruct (l !! r.1) as [es|] eqn:Hes; simpl in He; [|done].
    rewrite lookup_membersOf in He.
    destruct (es !! r.2) as [entry|] eqn:Hentry; simpl in He; [|done].
    injection He as <-. simpl in Hop. exists es, entry.
    split; [by eapply list_elem_of_lookup_2|]. split; [by eapply list_elem_of_lookup_2|done].
  - intros (es & entry & Hes & Hentry & Hop).
    apply list_elem_of_lookup in Hes as [p Hp], Hentry as [i Hi].
    exists (p, i). eexists. rewrite lookup_parsedFrom. simpl. rewrite Hp. simpl.
    rewrite lookup_membersOf, Hi. simpl. split; [done|]. done.
Qed.

Lemma servicesInv_empty : servicesInv ∅.
Proof. intros s ops. by rewrite lookup_empty. Qed.

Lemma transformDdgData_services payload focal m :
  transformDdgData payload focal = Ok m ->
  servicesInv (DdgModel.services m)
  /\ forall s o, pathElemsOf (DdgModel.services m) s o = opTier (DdgModel.paths m) s o.
Proof.
  intros Hm. destruct (transformDdgData_indices payload focal m Hm) as (Her & _).
  unfold transformDdgData in Hm.
  destruct (forEachR (parsePath focal) (sort comparePaths payload) ([], ∅, ∅))
    as [[[paths sm] dm]|] eqn:Hparse; cbn [bindR] in Hm; [|done].
  destruct (assignLoop _ dm 0 1 _) as [st|]; cbn [bindR] in Hm; [|done].
  injection Hm as <-. simpl in *.
  destruct (forEachR_parsePath_services _ _ _ _ _ _ _ _ Hparse servicesInv_empty)
    as [Hinv Hel].
  split; [done|]. intros s o. rewrite Hel. simpl.
  unfold pathElemsOf at 1. rewrite lookup_empty. simpl. rewrite lookup_empty. simpl.
  by rewrite <- Her, opTier_erase.
Qed.

(** X3. The service map of a transform result: [pathElems] of an operation
    holds exactly the elements of that service and operation, each once;
    the services in the map are those named in the payload, and the
    operations of a service those the payload names with it. *)
Theorem services_index_the_elements payload focal m :
  transformDdgData payload focal = Ok m ->
  (forall s o r,
     r ∈ pathElemsOf (DdgModel.services m) s o
     <-> exists e, deref (DdgModel.paths m) r = Some e
                   /\ PathElem.operation e = mkOpRef s o)
  /\ (forall s o, NoDup (pathElemsOf (DdgModel.services m) s o))
  /\ (forall s,
        is_Some (DdgModel.services m !! s)
        <-> exists es entry, es ∈ payload /\ entry ∈ es /\ service entry = s)
  /\ (forall s ops o,
        DdgModel.services m !! s = Some ops ->
        is_Some (ops !! o)
        <-> exists es entry,
              es ∈ payload /\ entry ∈ es /\ service entry = s /\ operation entry = o).
Proof.
  intros Hm. pose proof (transformDdgData_wf _ _ _ Hm) as Hwf.
  destruct (transformDdgData_services _ _ _ Hm) as [Hinv Hel].
  destruct (transformDdgData_indices payload focal m Hm) as (Her & _).
  assert (forall s o, pathElemsOf (DdgModel.services m) s o <> []
            <-> exists es entry,
                  es ∈ payload /\ entry ∈ es /\ service entry = s /\ operation entry = o)
    as Hpresent.
  { intros s o. rewrite Hel, <- opTier_erase, Her.
    assert (wfArena (parsedFrom focal 0 (sort comparePaths payload))) as Hwf0.
    { rewrite <- Her. by apply wfArena_erase. }
    split.
    - intros Hne. destruct (opTier _ s o) as [|r t] eqn:Ht; [done|].
      assert (r ∈ opTier (parsedFrom focal 0 (sort comparePaths payload)) s o) as Hr
        by (rewrite Ht; left).
      apply elem_of_opTier in Hr as (e & He & Hop); [|done].
      destruct (proj1 (parsedFrom_operations focal (sort comparePaths payload)
                         (mkOpRef s o)))
        as (es & entry & Hes & Hentry & Heq); [by exists r, e|].
      exists es, entry. rewrite (sort_Permutation comparePaths payload) in Hes.
      unfold opRefOf in Heq. injection Heq as <- <-. done.
    - intros (es & entry & Hes & Hentry & <- & <-).
      rewrite <- (sort_Permutation comparePaths payload) in Hes.
      destruct (proj2 (parsedFrom_operations focal (sort comparePaths payload)
                         (opRefOf entry))) as (r & e & He & Hop); [by exists es, entry|].
      intros Hnil.
      assert (r ∈ opTier (parsedFrom focal 0 (sort comparePaths payload))
                         (service entry) (operation entry)) as Hr.
      { apply elem_of_opTier; [done|]. by exists e. }
      rewrite Hnil in Hr. by apply elem_of_nil in Hr. }
  split; [|split; [|split]].
  - intros s o r. rewrite Hel. by apply elem_of_opTier.
  - intros s o. rewrite Hel. eapply sublist_NoDup; [|apply opTier_sublist].
    by apply NoDup_allRefs.
  - intros s. rewrite (proj1 (servicesInv_present _ s "" Hinv)). split.
    + intros [o Ho]. apply Hpresent in Ho as (es & entry & ? & ? & ? & ?).
      by exists es, entry.
    + intros (es & entry & Hes & Hentry & Hs). exists (operation entry).
      apply Hpresent. by exists es, entry.
  - intros s ops o Hops.
    rewrite (proj2 (servicesInv_present _ s o Hinv) ops Hops). apply Hpresent.
Qed.

(** * Further properties of the constructor of [GraphModel] *)

Section graph_link_properties.
Context {EdgeId : Type} `{Countable EdgeId}.
Variable getEdgeId : string -> string -> EdgeId.
Variable getPathElemHasher :
  EDdgDensity -> bool -> list TDdgPath -> PathElemRef -> string.

Local Abbreviation inv := (graphInv getEdgeId getPathElemHasher).
Local Abbreviation links := (graphLinks getEdgeId getPathElemHasher).
Local Abbreviation add := (GraphModel.addPathElem getEdgeId getPathElemHasher).
Local Abbreviation keyOf := (hasherOf getPathElemHasher).

(** What one round of the constructor's loop changes. *)
Lemma addPathElem_shape (g g' : GraphModel.t EdgeId) r :
  add r g = Ok g' ->
  exists elem dist vertex,
    deref (GraphModel.arena g) r = Some elem
    /\ distance (GraphModel.arena g) r = Some dist
    /\ GraphModel.vertexFor getPathElemHasher g r elem dist
       = Ok (vertex, GraphModel.vertices g', GraphModel.vertexToPathElems g')
    /\ GraphModel.pathElemToVertex g' = <[r := vertex]> (GraphModel.pathElemToVertex g)
    /\ sameConfig g g'
    /\ ((GraphModel.pathElemToEdge g' = GraphModel.pathElemToEdge g
         /\ GraphModel.edgesById g' = GraphModel.edgesById g)
        \/ exists cv,
             GraphModel.pathElemToEdge g'
             = <[r := (GraphModel.edgeFor getEdgeId g dist vertex cv).1]>
                 (GraphModel.pathElemToEdge g)
             /\ GraphModel.edgesById g' = (GraphModel.edgeFor getEdgeId g dist vertex cv).2).
Proof.
  unfold GraphModel.addPathElem. intros Hadd.
  destruct (deref (GraphModel.arena g) r) as [elem|]; [|done].
  destruct (distance (GraphModel.arena g) r) as [dist|]; [|done].
  destruct (GraphModel.vertexFor getPathElemHasher g r elem dist)
    as [[[vertex vertices'] v2pe']|] eqn:Hvf; cbn [bindR] in Hadd; [|done].
  exists elem, dist, vertex.
  destruct (focalSideNeighbor (GraphModel.arena g) r) as [n|].
  - destruct (<[r := vertex]> (GraphModel.pathElemToVertex g) !! n) as [cv|]; [|done].
    destruct (GraphModel.edgeFor getEdgeId g dist vertex cv) as [edge ebi'] eqn:He.
    injection Hadd as <-. simpl. do 4 (split; [done|]). split; [by repeat split|].
    right. exists cv. by rewrite He.
  - injection Hadd as <-. simpl. do 4 (split; [done|]). split; [by repeat split|]. by left.
Qed.

Lemma vertexOf_sameConfig (g g' : GraphModel.t EdgeId) r :
  sameConfig g g' -> vertexOf getPathElemHasher g' r = vertexOf getPathElemHasher g r.
Proof.
  intros Hcfg. pose proof (hasherOf_sameConfig getPathElemHasher g g' r Hcfg) as Hk.
  destruct Hcfg as (Ha & _ & Hs & _). unfold vertexOf. by rewrite Ha, Hs, Hk.
Qed.

Lemma graphLinks_step processed (g g' : GraphModel.t EdgeId) r :
  inv processed g -> links processed g -> add r g = Ok g' ->
  links (processed ++ [r]) g'.
Proof.
  intros Hinv Hl Hadd.
  destruct (addPathElem_shape g g' r Hadd)
    as (elem & dist & vertex & He & Hd & Hvf & Hpe2v & Hcfg & Hedges).
  assert (forall x, keyOf g' x = keyOf g x) as Hk
    by (intros; by apply hasherOf_sameConfig).
  assert (forall x, vertexOf getPathElemHasher g' x = vertexOf getPathElemHasher g x) as Hvo
    by (intros; by apply vertexOf_sameConfig).
  unfold GraphModel.vertexFor in Hvf. fold (keyOf g r) in Hvf.
  assert (forall r' v', r' ∈ processed -> keyOf g r' = keyOf g r ->
            GraphModel.vertices g !! keyOf g r = Some v' ->
            GraphModel.pathElemToVertex g !! r' = Some v') as Hsame.
  { intros r' v' Hr' Hkey Hv'.
    destruct (proj2 (inv_dom _ _ _ _ Hinv r') Hr') as [v Hv].
    pose proof (inv_key _ _ _ _ Hinv _ _ Hv) as Hkv.
    pose proof (link_vertex _ _ _ _ Hl _ _ Hv) as Hvv.
    rewrite Hkv, Hkey in Hvv. congruence. }
  assert (forall r' v', GraphModel.pathElemToVertex g !! r' = Some v' ->
            GraphModel.vertices g !! keyOf g r' = Some v') as Hold.
  { intros r' v' Hv. pose proof (link_vertex _ _ _ _ Hl _ _ Hv) as Hvv.
    by rewrite (inv_key _ _ _ _ Hinv _ _ Hv) in Hvv. }
  assert (forall r', is_Some (GraphModel.pathElemToEdge g' !! r') ->
            is_Some (GraphModel.pathElemToVertex g' !! r')) as Hdom.
  { intros r'. rewrite Hpe2v, lookup_insert_is_Some'.
    destruct Hedges as [[-> _]|(cv & -> & _)].
    - intros Hr'. right. by apply (link_edge_dom _ _ _ _ Hl).
    - rewrite lookup_insert_is_Some'. intros [->|Hr']; [by left|right].
      by apply (link_edge_dom _ _ _ _ Hl). }
  destruct (GraphModel.vertices g !! keyOf g r) as [existing|] eqn:Hvert.
  - (* the key has a vertex *)
    destruct (inv_vertices _ _ _ _ Hinv _ _ Hvert) as [Hkey _].
    destruct (GraphModel.vertexToPathElems g !! existing) as [pes|] eqn:Hpes; [|done].
    injection Hvf as <- Hvs Hv2pe.
    split.
    + intros r' v. rewrite Hpe2v, <- Hvs. rewrite lookup_insert.
      destruct (decide (r = r')) as [<-|Hr]; [|apply (link_vertex _ _ _ _ Hl)].
      intros [= <-]. by rewrite Hkey.
    + intros v l. rewrite <- Hv2pe, Hpe2v. rewrite lookup_insert.
      destruct (decide (existing = v)) as [<-|Hv].
      * intros [= <-]. destruct (link_members _ _ _ _ Hl _ _ Hpes) as (Hne & Hnd & Hin).
        split; [|split].
        -- unfold setAdd. case_decide; [done|]. by destruct pes.
        -- by apply NoDup_setAdd.
        -- intros r'. rewrite elem_of_setAdd, lookup_insert.
           destruct (decide (r = r')) as [<-|Hr].
           ++ split; [done|]. by left.
           ++ rewrite Hin. split; [|by right]. intros [?|?]; [by subst|done].
      * intros Hvl. destruct (link_members _ _ _ _ Hl _ _ Hvl) as (Hne & Hnd & Hin).
        split; [done|]. split; [done|]. intros r'. rewrite Hin, lookup_insert.
        destruct (decide (r = r')) as [<-|Hr]; [|done].
        split; [|by intros [= ->]]. intros Hrv. exfalso. apply Hv.
        pose proof (Hold _ _ Hrv) as Hvv. congruence.
    + intros k v. rewrite <- Hvs. intros Hkv.
      destruct (link_first _ _ _ _ Hl _ _ Hkv) as (i & r0 & Hi & Hk0 & Hfirst & Hv0).
      exists i, r0. rewrite Hk, Hvo. split; [by apply lookup_app_l_Some|].
      split; [done|]. split; [|done].
      intros j r' Hj Hr'. rewrite Hk. apply (Hfirst j r' Hj).
      rewrite lookup_app_l in Hr'; [done|]. apply lookup_lt_Some in Hi. lia.
    + intros r' e. destruct Hedges as [[-> ->]|(cv & -> & ->)].
      * apply (link_edge _ _ _ _ Hl).
      * unfold GraphModel.edgeFor.
        set (from := if decide (0 < dist) then Vertex.key cv else Vertex.key existing).
        set (to := if decide (0 < dist) then Vertex.key existing else Vertex.key cv).
        destruct (GraphModel.edgesById g !! getEdgeId from to) as [ex|] eqn:Hex; simpl.
        -- rewrite lookup_insert. destruct (decide (r = r')) as [<-|Hr].
           ++ intros [= <-]. by rewrite (inv_edgesById _ _ _ _ Hinv _ _ Hex).
           ++ apply (link_edge _ _ _ _ Hl).
        -- rewrite lookup_insert. destruct (decide (r = r')) as [<-|Hr].
           ++ intros [= <-]. simpl. by rewrite lookup_insert_eq.
           ++ intros He'. pose proof (link_edge _ _ _ _ Hl _ _ He') as Hid.
              rewrite lookup_insert_ne; [done|]. intros Heq. rewrite <- Heq in Hid.
              by rewrite Hex in Hid.
    + exact Hdom.
  - (* the key has no vertex yet *)
    injection Hvf as Hvx Hvs Hv2pe. rewrite Hvx in Hvs, Hv2pe.
    assert (forall r' v', GraphModel.pathElemToVertex g !! r' = Some v' ->
              Vertex.key v' <> keyOf g r) as Hfresh.
    { intros r' v' Hv Hkey. pose proof (link_vertex _ _ _ _ Hl _ _ Hv) as Hvv.
      rewrite Hkey in Hvv. by rewrite Hvert in Hvv. }
    assert (Vertex.key vertex = keyOf g r) as Hkv by (by rewrite <- Hvx).
    assert (GraphModel.vertexToPathElems g !! vertex = None) as Hnone.
    { destruct (GraphModel.vertexToPathElems g !! vertex) as [l|] eqn:Hvl; [|done].
      destruct (link_members _ _ _ _ Hl _ _ Hvl) as (Hne & _ & Hin).
      destruct l as [|r0 l]; [done|].
      assert (GraphModel.pathElemToVertex g !! r0 = Some vertex) as Hr0
        by (apply Hin; left).
      by destruct (Hfresh _ _ Hr0). }
    split.
    + intros r' v. rewrite Hpe2v, <- Hvs, lookup_insert.
      destruct (decide (r = r')) as [<-|Hr].
      * intros [= <-]. by rewrite Hkv, lookup_insert_eq.
      * intros Hv. rewrite lookup_insert_ne; [by apply (link_vertex _ _ _ _ Hl _ _ Hv)|].
        intros Heq. by destruct (Hfresh _ _ Hv).
    + intros v l. rewrite <- Hv2pe, Hpe2v, lookup_insert.
      destruct (decide (vertex = v)) as [<-|Hv].
      * intros [= <-]. split; [done|]. split; [apply NoDup_singleton|].
        intros r'. rewrite list_elem_of_singleton, lookup_insert.
        destruct (decide (r = r')) as [<-|Hr]; [done|].
        split; [by intros ->|]. intros Hrv. by destruct (Hfresh _ _ Hrv).
      * intros Hvl. destruct (link_members _ _ _ _ Hl _ _ Hvl) as (Hne & Hnd & Hin).
        split; [done|]. split; [done|]. intros r'. rewrite Hin, lookup_insert.
        destruct (decide (r = r')) as [<-|Hr]; [|done].
        split; [|by intros [= ->]]. intros Hrv. exfalso.
        apply (Hfresh _ _ Hrv). by apply (inv_key _ _ _ _ Hinv).
    + intros k v. rewrite <- Hvs, lookup_insert.
      destruct (decide (keyOf g r = k)) as [<-|Hkk].
      * intros [= <-]. exists (length processed), r. rewrite Hk, Hvo.
        split; [by rewrite lookup_app_r, Nat.sub_diag by lia|]. split; [done|]. split.
        -- intros j r' Hj Hr'. rewrite Hk. intros Heq.
           rewrite lookup_app_l in Hr' by done.
           destruct (proj2 (inv_dom _ _ _ _ Hinv r') (list_elem_of_lookup_2 _ _ _ Hr'))
             as [v' Hv'].
           apply (Hfresh _ _ Hv'). by rewrite (inv_key _ _ _ _ Hinv _ _ Hv').
        -- unfold vertexOf. rewrite He, Hd. simpl. by rewrite Hvx.
      * intros Hkv'.
        destruct (link_first _ _ _ _ Hl _ _ Hkv') as (i & r0 & Hi & Hk0 & Hfirst & Hv0).
        exists i, r0. rewrite Hk, Hvo. split; [by apply lookup_app_l_Some|].
        split; [done|]. split; [|done].
        intros j r' Hj Hr'. rewrite Hk. apply (Hfirst j r' Hj).
        rewrite lookup_app_l in Hr'; [done|]. apply lookup_lt_Some in Hi. lia.
    + intros r' e. destruct Hedges as [[-> ->]|(cv & -> & ->)].
      * apply (link_edge _ _ _ _ Hl).
      * unfold GraphModel.edgeFor.
        set (from := if decide (0 < dist) then Vertex.key cv else Vertex.key vertex).
        set (to := if decide (0 < dist) then Vertex.key vertex else Vertex.key cv).
        destruct (GraphModel.edgesById g !! getEdgeId from to) as [ex|] eqn:Hex; simpl.
        -- rewrite lookup_insert. destruct (decide (r = r')) as [<-|Hr].
           ++ intros [= <-]. by rewrite (inv_edgesById _ _ _ _ Hinv _ _ Hex).
           ++ apply (link_edge _ _ _ _ Hl).
        -- rewrite lookup_insert. destruct (decide (r = r')) as [<-|Hr].
           ++ intros [= <-]. simpl. by rewrite lookup_insert_eq.
           ++ intros He'. pose proof (link_edge _ _ _ _ Hl _ _ He') as Hid.
              rewrite lookup_insert_ne; [done|]. intros Heq. rewrite <- Heq in Hid.
              by rewrite Hex in Hid.
    + exact Hdom.
Qed.

Lemma forEachR_addPathElem_links l : forall processed (g g' : GraphModel.t EdgeId),
  inv processed g -> links processed g -> forEachR add l g = Ok g' ->
  links (processed ++ l) g'.
Proof.
  induction l as [|r l IH]; intros processed g g' Hinv Hl Hrun; cbn [forEachR] in Hrun.
  - injection Hrun as <-. by rewrite app_nil_r.
  - destruct (add r g) as [g1|] eqn:Hadd; cbn [bindR] in Hrun; [|done].
    destruct (addPathElem_Ok_inv getEdgeId getPathElemHasher processed g g1 r Hinv Hadd)
      as [Hinv1 _].
    pose proof (graphLinks_step processed g g1 r Hinv Hl Hadd) as Hl1.
    pose proof (IH _ _ _ Hinv1 Hl1 Hrun) as Hl'. by rewrite <- app_assoc in Hl'.
Qed.

Lemma new_links paths dm l density showOp (g : GraphModel.t EdgeId) :
  GraphModel.new getEdgeId getPathElemHasher paths dm l density showOp = Ok g ->
  links l g /\ GraphModel.distanceToPathElems g = dm.
Proof.
  unfold GraphModel.new. intros Hrun.
  pose proof (graphInv_initial getEdgeId getPathElemHasher paths dm l density showOp)
    as Hinv0.
  destruct (forEachR_addPathElem_inv getEdgeId getPathElemHasher l [] _ g Hinv0 Hrun)
    as [_ (_ & _ & _ & Hdm & _)].
  split; [|done].
  apply (forEachR_addPathElem_links l [] _ g Hinv0); [|done].
  split; simpl; intros *; rewrite lookup_empty; try done; by intros [? ?].
Qed.
End graph_link_properties.

(** X8. Elements share a vertex exactly when the hasher gives them the same
    key: for a graph the constructor returns, two elements of
    [visIdxToPathElem] have the same vertex iff their keys are equal;
    [vertexToPathElems] is [pathElemToVertex] read backwards; and [vertices]
    has a vertex under a key iff some element has that key. *)
Theorem vertices_shared_by_key {EdgeId : Type} `{Countable EdgeId}
    (getEdgeId : string -> string -> EdgeId)
    (getPathElemHasher : EDdgDensity -> bool -> list TDdgPath -> PathElemRef -> string)
    paths dm l density showOp (g : GraphModel.t EdgeId) :
  GraphModel.new getEdgeId getPathElemHasher paths dm l density showOp = Ok g ->
  (forall r1 r2, r1 ∈ l -> r2 ∈ l ->
     GraphModel.pathElemToVertex g !! r1 = GraphModel.pathElemToVertex g !! r2
     <-> getPathElemHasher density showOp paths r1 = getPathElemHasher density showOp paths r2)
  /\ (forall r v,
        GraphModel.pathElemToVertex g !! r = Some v
        <-> exists pathElems,
              GraphModel.vertexToPathElems g !! v = Some pathElems /\ r ∈ pathElems)
  /\ (forall k,
        is_Some (GraphModel.vertices g !! k)
        <-> exists r, r ∈ l /\ getPathElemHasher density showOp paths r = k).
Proof.
  intros Hnew.
  destruct (new_inv _ _ _ _ _ _ _ _ Hnew) as (Hinv & Ha & _ & Hde & Hs).
  destruct (new_links _ _ _ _ _ _ _ _ Hnew) as [Hl _].
  assert (forall r, hasherOf getPathElemHasher g r = getPathElemHasher density showOp paths r)
    as Hk by (intros r; unfold hasherOf; by rewrite Ha, Hde, Hs).
  assert (forall r, r ∈ l -> exists v,
            GraphModel.pathElemToVertex g !! r = Some v
            /\ Vertex.key v = getPathElemHasher density showOp paths r
            /\ GraphModel.vertices g !! Vertex.key v = Some v) as Hin.
  { intros r Hr. destruct (proj2 (inv_dom _ _ _ _ Hinv r) Hr) as [v Hv].
    exists v. split; [done|]. rewrite <- Hk.
    split; [by apply (inv_key _ _ _ _ Hinv)|by apply (link_vertex _ _ _ _ Hl _ _ Hv)]. }
  split; [|split].
  - intros r1 r2 Hr1 Hr2.
    destruct (Hin r1 Hr1) as (v1 & Hv1 & Hk1 & Hvv1).
    destruct (Hin r2 Hr2) as (v2 & Hv2 & Hk2 & Hvv2).
    rewrite Hv1, Hv2. split.
    + intros [= ->]. congruence.
    + intros Heq. rewrite Hk1 in Hvv1. rewrite Hk2, <- Heq in Hvv2. congruence.
  - intros r v. split.
    + intros Hv. pose proof (link_vertex _ _ _ _ Hl _ _ Hv) as Hvv.
      destruct (inv_vertices _ _ _ _ Hinv _ _ Hvv) as [_ [pes Hpes]].
      exists pes. split; [done|].
      by apply (proj2 (proj2 (link_members _ _ _ _ Hl _ _ Hpes))).
    + intros (pes & Hpes & Hr).
      by apply (proj2 (proj2 (link_members _ _ _ _ Hl _ _ Hpes))).
  - intros k. split.
    + intros [v Hv]. destruct (link_first _ _ _ _ Hl _ _ Hv) as (i & r & Hi & Hkr & _).
      exists r. split; [by eapply list_elem_of_lookup_2|]. by rewrite <- Hk.
    + intros (r & Hr & <-). destruct (Hin r Hr) as (v & _ & Hkv & Hvv).
      rewrite <- Hkv. by eexists.
Qed.

Lemma vertex_of_element {EdgeId : Type} `{Countable EdgeId}
    (getEdgeId : string -> string -> EdgeId)
    (getPathElemHasher : EDdgDensity -> bool -> list TDdgPath -> PathElemRef -> string)
    paths dm l density showOp (g : GraphModel.t EdgeId) r :
  GraphModel.new getEdgeId getPathElemHasher paths dm l density showOp = Ok g ->
  r ∈ l ->
  exists v,
    GraphModel.vertices g !! getPathElemHasher density showOp paths r = Some v
    /\ GraphModel.pathElemToVertex g !! r = Some v.
Proof.
  intros Hnew Hr.
  destruct (new_inv _ _ _ _ _ _ _ _ Hnew) as (Hinv & Ha & _ & Hde & Hs).
  destruct (new_links _ _ _ _ _ _ _ _ Hnew) as [Hl _].
  destruct (proj2 (inv_dom _ _ _ _ Hinv r) Hr) as [v Hv]. exists v. split; [|done].
  pose proof (link_vertex _ _ _ _ Hl _ _ Hv) as Hvv.
  rewrite (inv_key _ _ _ _ Hinv _ _ Hv) in Hvv. unfold hasherOf in Hvv.
  by rewrite Ha, Hde, Hs in Hvv.
Qed.

(** X9. The vertex of a key is made from the first element that has the key:
    its service and operation are those of that element, it counts as the
    focal node iff that element is at distance 0, and its operation is
    [null] iff operations are not shown and that element is not focal. *)
Theorem vertex_made_from_first_element {EdgeId : Type} `{Countable EdgeId}
    (getEdgeId : string -> string -> EdgeId)
    (getPathElemHasher : EDdgDensity -> bool -> list TDdgPath -> PathElemRef -> string)
    paths dm l density showOp (g : GraphModel.t EdgeId) k v :
  GraphModel.new getEdgeId getPathElemHasher paths dm l density showOp = Ok g ->
  GraphModel.vertices g !! k = Some v ->
  exists i r elem dist,
    l !! i = Some r
    /\ getPathElemHasher density showOp paths r = k
    /\ (forall j r', (j < i)%nat -> l !! j = Some r' ->
          getPathElemHasher density showOp paths r' <> k)
    /\ deref paths r = Some elem /\ distance paths r = Some dist
    /\ Vertex.key v = k
    /\ Vertex.isFocalNode v = bool_decide (dist = 0)
    /\ Vertex.service v = op_service (PathElem.operation elem)
    /\ Vertex.operation v
        = if showOp || bool_decide (dist = 0)
          then Some (op_name (PathElem.operation elem)) else None.
Proof.
  intros Hnew Hv.
  destruct (new_inv _ _ _ _ _ _ _ _ Hnew) as (Hinv & Ha & _ & Hde & Hs).
  destruct (new_links _ _ _ _ _ _ _ _ Hnew) as [Hl _].
  assert (forall r, hasherOf getPathElemHasher g r = getPathElemHasher density showOp paths r)
    as Hk by (intros r; unfold hasherOf; by rewrite Ha, Hde, Hs).
  destruct (link_first _ _ _ _ Hl _ _ Hv) as (i & r & Hi & Hkr & Hfirst & Hvo).
  unfold vertexOf in Hvo. rewrite Ha, Hs in Hvo.
  destruct (deref paths r) as [elem|] eqn:He; simpl in Hvo; [|done].
  destruct (distance paths r) as [dist|] eqn:Hd; simpl in Hvo; [|done].
  injection Hvo as <-. exists i, r, elem, dist. simpl. rewrite <- Hk.
  split; [done|]. split; [done|]. split.
  2:{ by repeat split. }
  intros j r' Hj Hr'. rewrite <- Hk. by apply (Hfirst j r').
Qed.

(** X10. Edges are shared by their id: an element of a graph the constructor
    returns has an edge iff it has a focal-side neighbour, and two elements
    whose edges have the same id hold the same edge. *)
Theorem edges_shared_by_id {EdgeId : Type} `{Countable EdgeId}
    (getEdgeId : string -> string -> EdgeId)
    (getPathElemHasher : EDdgDensity -> bool -> list TDdgPath -> PathElemRef -> string)
    paths dm l density showOp (g : GraphModel.t EdgeId) :
  GraphModel.new getEdgeId getPathElemHasher paths dm l density showOp = Ok g ->
  (forall r, r ∈ l ->
     is_Some (GraphModel.pathElemToEdge g !! r) <-> is_Some (focalSideNeighbor paths r))
  /\ (forall r, r ∉ l -> GraphModel.pathElemToEdge g !! r = None)
  /\ (forall r1 r2 e1 e2,
        GraphModel.pathElemToEdge g !! r1 = Some e1 ->
        GraphModel.pathElemToEdge g !! r2 = Some e2 ->
        getEdgeId (Edge.from e1) (Edge.to e1) = getEdgeId (Edge.from e2) (Edge.to e2) ->
        e1 = e2).
Proof.
  intros Hnew.
  destruct (new_inv _ _ _ _ _ _ _ _ Hnew) as (Hinv & Ha & _).
  destruct (new_links _ _ _ _ _ _ _ _ Hnew) as [Hl _].
  split; [|split].
  - intros r Hr. rewrite <- Ha. split.
    + intros [e He]. destruct (inv_edge _ _ _ _ Hinv _ _ He) as (n & _ & Hn & _).
      by eexists.
    + intros [n Hn]. by apply (inv_edge_dom _ _ _ _ Hinv r n).
  - intros r Hr. destruct (GraphModel.pathElemToEdge g !! r) as [e|] eqn:He; [|done].
    exfalso. apply Hr. apply (inv_dom _ _ _ _ Hinv).
    apply (link_edge_dom _ _ _ _ Hl). by eexists.
  - intros r1 r2 e1 e2 H1 H2 Hid.
    pose proof (link_edge _ _ _ _ Hl _ _ H1) as Hb1.
    pose proof (link_edge _ _ _ _ Hl _ _ H2) as Hb2.
    rewrite Hid in Hb1. congruence.
Qed.

(** * Further properties of the queries of [GraphModel] *)


Lemma filterR_ok {A} (f : A -> Result bool) (p : A -> bool) (l : list A) :
  (forall x, x ∈ l -> f x = Ok (p x)) ->
  filterR f l = Ok (filter (fun x => p x = true) l).
Proof.
  induction l as [|x l IH]; intros Hf; [done|]. cbn [filterR].
  rewrite (Hf x) by left. cbn [bindR]. rewrite IH by (intros y Hy; apply Hf; by right).
  cbn [bindR]. rewrite filter_cons. by destruct (p x).
Qed.

Lemma filterR_not_None {A} (f : A -> Result bool) (l : list A) :
  (let* visible := filterR f l in Ok (Some visible)) <> Ok None.
Proof. by destruct (filterR f l). Qed.

Lemma foldl_setAdd_spec {A} `{EqDecision A} (l acc : list A) :
  (NoDup acc -> NoDup (foldl (fun s x => setAdd x s) acc l))
  /\ forall x, x ∈ foldl (fun s x => setAdd x s) acc l <-> x ∈ acc \/ x ∈ l.
Proof.
  revert acc. induction l as [|y l IH]; intros acc; simpl.
  - split; [done|]. intros x. rewrite elem_of_nil. tauto.
  - destruct (IH (setAdd y acc)) as [Hnd Hin]. split.
    + intros Hacc. by apply Hnd, NoDup_setAdd.
    + intros x. rewrite Hin, elem_of_setAdd, elem_of_cons. tauto.
Qed.

Lemma setFrom_spec {A} `{EqDecision A} (l : list A) :
  NoDup (setFrom l) /\ forall x, x ∈ setFrom l <-> x ∈ l.
Proof.
  destruct (foldl_setAdd_spec l []) as [Hnd Hin]. split; [apply Hnd, NoDup_nil_2|].
  intros x. unfold setFrom. rewrite Hin, elem_of_nil. tauto.
Qed.

Lemma foldl_setAdd_filter {A} `{EqDecision A} (f : A -> bool) (vs acc : list A) :
  NoDup (acc ++ vs) ->
  foldl (fun s v => if f v then setAdd v s else s) acc vs
  = acc ++ filter (fun v => f v = true) vs.
Proof.
  revert acc. induction vs as [|v vs IH]; intros acc Hnd; simpl.
  - by rewrite app_nil_r.
  - rewrite filter_cons. destruct (f v) eqn:Hf.
    + rewrite decide_True by done.
      assert (setAdd v acc = acc ++ [v]) as ->.
      { unfold setAdd. rewrite decide_False; [done|].
        apply NoDup_app in Hnd as (_ & Hdis & _). intros Hv. apply (Hdis v Hv). left. }
      rewrite IH by (by rewrite <- app_assoc). by rewrite <- app_assoc.
    + rewrite decide_False by done. apply IH.
      apply NoDup_app in Hnd as (Ha & Hdis & Hvs). apply NoDup_app.
      split; [done|]. split; [|by apply NoDup_cons in Hvs as [_ ?]].
      intros x Hx Hxv. apply (Hdis x Hx). by right.
Qed.

Section default_view.
Context {EdgeId : Type} `{Countable EdgeId}.
Variable getEdgeId : string -> string -> EdgeId.
Variable getPathElemHasher :
  EDdgDensity -> bool -> list TDdgPath -> PathElemRef -> string.

Lemma elem_of_getDefaultVisiblePathElems (g : GraphModel.t EdgeId) r :
  r ∈ GraphModel.getDefaultVisiblePathElems g
  <-> exists d, -2 <= d <= 2 /\ r ∈ getTier (GraphModel.distanceToPathElems g) d.
Proof.
  unfold GraphModel.getDefaultVisiblePathElems, getTier. rewrite !elem_of_app. split.
  - intros [?|[?|[?|[?|?]]]];
      [exists (-2)|exists (-1)|exists 0|exists 1|exists 2]; (split; [lia|done]).
  - intros (d & Hd & Hr).
    assert (d = -2 \/ d = -1 \/ d = 0 \/ d = 1 \/ d = 2) as [->|[->|[->|[->| ->]]]] by lia;
      tauto.
Qed.

Lemma collectVisible_throw (g : GraphModel.t EdgeId) pes : forall acc r,
  r ∈ pes -> GraphModel.pathElemToVertex g !! r = None ->
  forEachR (GraphModel.collectVisible g) pes acc = Throw PathElemNotInModel.
Proof.
  induction pes as [|x pes IH]; intros acc r Hr Hnone; [by apply elem_of_nil in Hr|].
  cbn [forEachR]. unfold GraphModel.collectVisible at 1.
  destruct (GraphModel.pathElemToVertex g !! x) as [v|] eqn:Hx; [|done].
  cbn [bindR]. apply elem_of_cons in Hr as [->|Hr]; [congruence|]. by eapply IH.
Qed.

(** What the model of a transform and a graph constructed from its
    elements in index order have in common. *)
Lemma indexOrder_graph_facts payload focal m l showOp density (g : GraphModel.t EdgeId) :
  transformDdgData payload focal = Ok m ->
  inIndexOrder (DdgModel.paths m) l ->
  GraphModel.new getEdgeId getPathElemHasher (DdgModel.paths m)
    (DdgModel.distanceToPathElems m) l density showOp = Ok g ->
  wfArena (DdgModel.paths m)
  /\ GraphModel.arena g = DdgModel.paths m
  /\ GraphModel.visIdxToPathElem g = l
  /\ (forall r, r ∈ l <-> is_Some (deref (DdgModel.paths m) r))
  /\ (forall r, r ∈ GraphModel.getDefaultVisiblePathElems g
        <-> is_Some (deref (DdgModel.paths m) r)
            /\ exists d, distance (DdgModel.paths m) r = Some d /\ Z.abs d <= 2).
Proof.
  intros Hm Hio Hg.
  pose proof (transformDdgData_wf _ _ _ Hm) as Hwf.
  destruct (transformDdgData_indices payload focal m Hm)
    as (_ & _ & _ & _ & _ & _ & Hin & Hvis).
  assert (l = visitedOrder focal payload) as Hl.
  { apply (inIndexOrder_unique (DdgModel.paths m)); [done|].
    intros i r. symmetry. apply Hvis. }
  destruct (new_inv _ _ _ _ _ _ _ _ Hg) as (_ & Ha & Hv & _).
  destruct (new_links _ _ _ _ _ _ _ _ Hg) as [_ Hdm].
  destruct (transformDdgData_tiers _ _ _ Hm) as [_ Ht].
  split; [done|]. split; [done|]. split; [done|]. split.
  - intros r. rewrite Hl, Hin. by apply elem_of_allRefs.
  - intros r. rewrite elem_of_getDefaultVisiblePathElems, Hdm. split.
    + intros (d & Hd & Hr). rewrite Ht in Hr. apply elem_of_tier in Hr as [Hr Hdist]; [|done].
      split; [done|]. exists d. split; [done|lia].
    + intros (Hr & d & Hdist & Hd). exists d. split; [lia|].
      rewrite Ht. by apply elem_of_tier.
Qed.

Lemma vertex_members (paths : list TDdgPath) dm l density showOp
    (g : GraphModel.t EdgeId) k v :
  GraphModel.new getEdgeId getPathElemHasher paths dm l density showOp = Ok g ->
  GraphModel.vertices g !! k = Some v ->
  exists pathElems,
    GraphModel.vertexToPathElems g !! v = Some pathElems
    /\ pathElems <> [] /\ NoDup pathElems
    /\ forall r, r ∈ pathElems
         <-> r ∈ l /\ getPathElemHasher density showOp paths r = k.
Proof.
  intros Hnew Hv.
  destruct (new_inv _ _ _ _ _ _ _ _ Hnew) as (Hinv & Ha & _ & Hde & Hs).
  destruct (new_links _ _ _ _ _ _ _ _ Hnew) as [Hl _].
  assert (forall r, hasherOf getPathElemHasher g r = getPathElemHasher density showOp paths r)
    as Hk by (intros r; unfold hasherOf; by rewrite Ha, Hde, Hs).
  destruct (inv_vertices _ _ _ _ Hinv _ _ Hv) as [Hkey [pes Hpes]].
  destruct (link_members _ _ _ _ Hl _ _ Hpes) as (Hne & Hnd & Hin).
  exists pes. split; [done|]. split; [done|]. split; [done|].
  intros r. rewrite Hin, <- Hk. split.
  - intros Hr. split; [apply (inv_dom _ _ _ _ Hinv); by eexists|].
    by rewrite <- (inv_key _ _ _ _ Hinv _ _ Hr).
  - intros [Hr Hkr]. destruct (proj2 (inv_dom _ _ _ _ Hinv r) Hr) as [v' Hv'].
    pose proof (link_vertex _ _ _ _ Hl _ _ Hv') as Hvv.
    rewrite (inv_key _ _ _ _ Hinv _ _ Hv'), Hkr in Hvv. congruence.
Qed.

End default_view.

(** X11. Without an encoding, a graph constructed from the paths and distance
    map of a transform result and its elements listed at their indices
    shows the elements within two hops of the focal node: [getVisible()]
    returns, without duplicates, exactly their vertices and edges. *)
Theorem getVisible_default_two_hops {EdgeId : Type} `{Countable EdgeId}
    (getEdgeId : string -> string -> EdgeId)
    (getPathElemHasher : EDdgDensity -> bool -> list TDdgPath -> PathElemRef -> string)
    (decode : string -> Result (list nat))
    payload focal m l showOp density
    (g : GraphModel.t EdgeId) :
  transformDdgData payload focal = Ok m ->
  inIndexOrder (DdgModel.paths m) l ->
  GraphModel.new getEdgeId getPathElemHasher (DdgModel.paths m)
    (DdgModel.distanceToPathElems m) l density showOp = Ok g ->
  exists edges vertices,
    GraphModel.getVisible decode g None = Ok (edges, vertices)
    /\ NoDup edges /\ NoDup vertices
    /\ (forall v, v ∈ vertices <->
          exists r d, distance (DdgModel.paths m) r = Some d /\ Z.abs d <= 2
                      /\ GraphModel.pathElemToVertex g !! r = Some v)
    /\ (forall e, e ∈ edges <->
          exists r d, distance (DdgModel.paths m) r = Some d /\ Z.abs d <= 2
                      /\ GraphModel.pathElemToEdge g !! r = Some e).
Proof.
  intros Hm Hidx Hnew.
  destruct (indexOrder_graph_facts getEdgeId getPathElemHasher _ _ _ _ _ _ _ Hm Hidx Hnew)
    as (Hwf & Ha & _ & Hl & Hdef).
  destruct (new_inv _ _ _ _ _ _ _ _ Hnew) as (Hinv & _).
  destruct (new_links _ _ _ _ _ _ _ _ Hnew) as [Hlinks _].
  assert (forall r, is_Some (GraphModel.pathElemToVertex g !! r)
                    <-> is_Some (deref (DdgModel.paths m) r)) as Hdom.
  { intros r. by rewrite (inv_dom _ _ _ _ Hinv), Hl. }
  unfold GraphModel.getVisible, GraphModel.getVisiblePathElems. cbn [bindR].
  destruct (collectVisible_ok g (GraphModel.getDefaultVisiblePathElems g) ([], []))
    as [[edges vertices] Hrun].
  { intros r Hr. apply Hdom. by apply Hdef in Hr as [? _]. }
  exists edges, vertices. split; [done|].
  destruct (collectVisible_spec g _ _ _ _ _ Hrun) as (Hnde & Hndv & Hv & He).
  split; [apply Hnde, NoDup_nil_2|]. split; [apply Hndv, NoDup_nil_2|]. split.
  - intros v. rewrite Hv, elem_of_nil. split.
    + intros [[]|(r & Hr & Hrv)]. apply Hdef in Hr as (_ & d & Hd & Hle). by exists r, d.
    + intros (r & d & Hd & Hle & Hrv). right. exists r. split; [|done].
      apply Hdef. split; [|by exists d]. apply Hdom. by eexists.
  - intros e. rewrite He, elem_of_nil. split.
    + intros [[]|(r & Hr & Hre)]. apply Hdef in Hr as (_ & d & Hd & Hle). by exists r, d.
    + intros (r & d & Hd & Hle & Hre). right. exists r. split; [|done].
      apply Hdef. split; [|by exists d]. apply Hdom.
      apply (link_edge_dom _ _ _ _ Hlinks). by eexists.
Qed.

(** X12. [getVisible()] without an encoding reads [distanceToPathElems], which
    the constructor copies from the model without looking at it: it
    returns iff every element listed there within two hops is one of
    [visIdxToPathElem], and throws the error for an element absent from the
    initial model otherwise. *)
Theorem getVisible_default_needs_known_elements {EdgeId : Type} `{Countable EdgeId}
    (getEdgeId : string -> string -> EdgeId)
    (getPathElemHasher : EDdgDensity -> bool -> list TDdgPath -> PathElemRef -> string)
    (decode : string -> Result (list nat))
    paths dm l density showOp
    (g : GraphModel.t EdgeId) :
  GraphModel.new getEdgeId getPathElemHasher paths dm l density showOp = Ok g ->
  let defaults :=
    default [] (dm !! (-2)) ++ default [] (dm !! (-1)) ++ default [] (dm !! 0)
    ++ default [] (dm !! 1) ++ default [] (dm !! 2) in
  ((forall r, r ∈ defaults -> r ∈ l) -> is_Ok (GraphModel.getVisible decode g None))
  /\ ((exists r, r ∈ defaults /\ r ∉ l) ->
      GraphModel.getVisible decode g None = Throw PathElemNotInModel).
Proof.
  intros Hnew defaults.
  destruct (new_inv _ _ _ _ _ _ _ _ Hnew) as (Hinv & _).
  destruct (new_links _ _ _ _ _ _ _ _ Hnew) as [_ Hdm].
  assert (GraphModel.getDefaultVisiblePathElems g = defaults) as Hdef.
  { unfold GraphModel.getDefaultVisiblePathElems. by rewrite Hdm. }
  unfold GraphModel.getVisible, GraphModel.getVisiblePathElems. cbn [bindR].
  rewrite Hdef. split.
  - intros Hall. apply collectVisible_ok. intros r Hr.
    apply (inv_dom _ _ _ _ Hinv). by apply Hall.
  - intros (r & Hr & Hnin). apply (collectVisible_throw g defaults _ r Hr).
    apply eq_None_not_Some. intros Hsome. by apply Hnin, (inv_dom _ _ _ _ Hinv).
Qed.


(** X14. [getVertexVisiblePathElems] lists the visible elements of one vertex:
    for a graph constructed from the paths and distance map of a transform
    result and its elements listed at their indices, and the key of one of
    its vertices, it returns, each once, the elements [getVisiblePathElems]
    gives for the same encoding that have this key, both without an
    encoding and with a non-empty one that decodes. *)
Theorem getVertexVisiblePathElems_agrees {EdgeId : Type} `{Countable EdgeId}
    (getEdgeId : string -> string -> EdgeId)
    (getPathElemHasher : EDdgDensity -> bool -> list TDdgPath -> PathElemRef -> string)
    (decode : string -> Result (list nat))
    payload focal m l showOp density
    (g : GraphModel.t EdgeId) k :
  transformDdgData payload focal = Ok m ->
  inIndexOrder (DdgModel.paths m) l ->
  GraphModel.new getEdgeId getPathElemHasher (DdgModel.paths m)
    (DdgModel.distanceToPathElems m) l density showOp = Ok g ->
  is_Some (GraphModel.vertices g !! k) ->
  (exists visible,
     GraphModel.getVertexVisiblePathElems decode g k None = Ok (Some visible)
     /\ NoDup visible
     /\ forall r, r ∈ visible <->
          r ∈ GraphModel.getDefaultVisiblePathElems g
          /\ getPathElemHasher density showOp (DdgModel.paths m) r = k)
  /\ (forall enc indices,
        enc <> "" -> decode enc = Ok indices ->
        exists visible pathElems,
          GraphModel.getVertexVisiblePathElems decode g k (Some enc) = Ok (Some visible)
          /\ GraphModel.getVisiblePathElems decode g (Some enc) = Ok pathElems
          /\ NoDup visible
          /\ forall r, r ∈ visible <->
               r ∈ pathElems
               /\ getPathElemHasher density showOp (DdgModel.paths m) r = k).
Proof.
  intros Hm Hidx Hnew [v Hv].
  destruct (indexOrder_graph_facts getEdgeId getPathElemHasher _ _ _ _ _ _ _ Hm Hidx Hnew)
    as (Hwf & Ha & Hvl & Hl & Hdef).
  destruct (vertex_members getEdgeId getPathElemHasher _ _ _ _ _ _ _ _ Hnew Hv)
    as (pes & Hpes & Hne & Hnd & Hin).
  set (idxOf := fun r => match visibilityIdxOf (DdgModel.paths m) r with
                         | Ok i => i | Throw _ => 0%nat end).
  assert (forall r, r ∈ pes -> visibilityIdxOf (DdgModel.paths m) r = Ok (idxOf r)) as Hset.
  { intros r Hr. apply Hin in Hr as [Hr _].
    apply list_elem_of_lookup in Hr as [i Hi]. apply Hidx in Hi.
    unfold idxOf. by rewrite Hi. }
  unfold GraphModel.getVertexVisiblePathElems. rewrite Hv, Hpes.
  rewrite bool_decide_eq_false_2 by done. split.
  - cbn [bindR].
    rewrite (filterR_ok _ (fun r => bool_decide
               (Z.abs (default 0 (distance (DdgModel.paths m) r)) < 3))).
    2:{ intros r Hr. unfold GraphModel.isVertexElemVisible. rewrite Ha.
        apply Hin in Hr as [Hr _]. apply Hl, distance_is_Some in Hr as [d Hd].
        by rewrite Hd. }
    cbn [bindR]. eexists. split; [done|]. split; [by apply NoDup_filter|].
    intros r. rewrite list_elem_of_filter, bool_decide_eq_true, Hin, Hdef, Hl. split.
    + intros (Hd & Hr & Hk). split; [|done]. split; [done|].
      destruct (distance_is_Some _ _ Hr) as [d Hdist]. rewrite Hdist in Hd. simpl in Hd.
      exists d. split; [done|lia].
    + intros ((Hr & d & Hdist & Hd) & Hk). rewrite Hdist. simpl. split; [lia|done].
  - intros enc indices Henc Hdec.
    rewrite bool_decide_eq_false_2 by done. rewrite Hdec. cbn [bindR].
    rewrite (filterR_ok _ (fun r => bool_decide (idxOf r ∈ setFrom indices))).
    2:{ intros r Hr. unfold GraphModel.isVertexElemVisible. rewrite Ha.
        pose proof (Hset r Hr) as Hs. unfold visibilityIdxOf in Hs.
        destruct (deref (DdgModel.paths m) r) as [e|]; [|done]. by rewrite Hs. }
    cbn [bindR]. unfold GraphModel.getVisiblePathElems. rewrite Hdec. cbn [bindR].
    eexists _, _. split; [done|]. split; [done|]. split; [by apply NoDup_filter|].
    intros r. rewrite list_elem_of_filter, bool_decide_eq_true, Hin, list_elem_of_omap.
    rewrite (proj2 (setFrom_spec indices)). rewrite Hvl. split.
    + intros (Hi & Hr & Hk). split; [|done]. exists (idxOf r). split; [done|].
      apply Hidx. apply Hset. by apply Hin.
    + intros ((i & Hi & Hir) & Hk).
      assert (r ∈ l) as Hr by (by eapply list_elem_of_lookup_2).
      split; [|done]. apply Hidx in Hir. unfold idxOf. by rewrite Hir.
Qed.

(** X15. [getVertexVisiblePathElems] returns [undefined] exactly for a key
    that is not the key of a vertex, and it reads the empty string as no
    encoding at all: the result for [''] is the result without an
    encoding. *)
Theorem getVertexVisiblePathElems_undefined {EdgeId : Type} `{Countable EdgeId}
    (getEdgeId : string -> string -> EdgeId)
    (getPathElemHasher : EDdgDensity -> bool -> list TDdgPath -> PathElemRef -> string)
    (decode : string -> Result (list nat))
    paths dm l density showOp
    (g : GraphModel.t EdgeId) k :
  GraphModel.new getEdgeId getPathElemHasher paths dm l density showOp = Ok g ->
  (forall visEncoding,
     GraphModel.getVertexVisiblePathElems decode g k visEncoding = Ok None
     <-> GraphModel.vertices g !! k = None)
  /\ GraphModel.getVertexVisiblePathElems decode g k (Some "")
     = GraphModel.getVertexVisiblePathElems decode g k None.
Proof.
  intros Hnew. split; [|done].
  intros visEncoding. unfold GraphModel.getVertexVisiblePathElems.
  destruct (GraphModel.vertices g !! k) as [v|] eqn:Hv; [|done].
  destruct (vertex_members getEdgeId getPathElemHasher _ _ _ _ _ _ _ _ Hnew Hv)
    as (pes & -> & Hne & _).
  rewrite bool_decide_eq_false_2 by done. split; [|done].
  intros Hres. exfalso.
  destruct visEncoding as [enc|]; cbn [bindR] in Hres.
  - destruct (bool_decide (enc = "")); cbn [bindR] in Hres.
    + by apply filterR_not_None in Hres.
    + destruct (decode enc); cbn [bindR] in Hres; [|done].
      by apply filterR_not_None in Hres.
  - by apply filterR_not_None in Hres.
Qed.

(** * Further properties of [getVisibleUiFindMatches] *)

Lemma append_String c s t : String c s +:+ t = String c (s +:+ t).
Proof. reflexivity. Qed.

Lemma prefix_spec t s : String.prefix t s = true <-> exists post, s = t +:+ post.
Proof.
  revert s. induction t as [|c t IH]; intros s.
  - split; [|by destruct s]. intros _. by exists s.
  - destruct s as [|d s]; cbn [String.prefix].
    + split; [done|]. intros [post Hp]. by rewrite append_String in Hp.
    + destruct (ascii_dec c d) as [->|Hcd].
      * rewrite IH. split; intros [post Hp]; exists post; rewrite append_String in *;
          congruence.
      * split; [done|]. intros [post Hp]. rewrite append_String in Hp. congruence.
Qed.

Lemma includes_spec s t : JsString.includes s t = true <-> occursIn t s.
Proof.
  unfold occursIn. induction s as [|c s IH]; cbn [JsString.includes].
  - rewrite orb_false_r, prefix_spec. split.
    + intros [post Hp]. by exists "", post.
    + intros (pre & post & Hp). destruct pre as [|d pre]; [by exists post|].
      by rewrite append_String in Hp.
  - rewrite orb_true_iff, IH, prefix_spec. split.
    + intros [[post Hp]|(pre & post & Hp)].
      * by exists "", post.
      * exists (String c pre), post. by rewrite append_String, Hp.
    + intros (pre & post & Hp). destruct pre as [|d pre].
      * left. by exists post.
      * right. exists pre, post. rewrite append_String in Hp. congruence.
Qed.

Lemma toLowerCase_empty s : JsString.toLowerCase s = "" <-> s = "".
Proof. by destruct s. Qed.

Lemma matchesUiFind_spec uiFindArr vertex :
  GraphModel.matchesUiFind uiFindArr vertex = true
  <-> exists token,
        token ∈ uiFindArr
        /\ (occursIn token (JsString.toLowerCase (Vertex.service vertex))
            \/ exists operation,
                 Vertex.operation vertex = Some operation /\ operation <> ""
                 /\ occursIn token (JsString.toLowerCase operation)).
Proof.
  unfold GraphModel.matchesUiFind. rewrite existsb_exists. cbv zeta.
  split.
  - intros (token & Hin & Hm). exists token. split; [by apply list_elem_of_In|].
    apply orb_true_iff in Hm as [Hm|Hm]; [left; by apply includes_spec|right].
    destruct (Vertex.operation vertex) as [operation|]; simpl in Hm; [|done].
    apply andb_true_iff in Hm as [Hne Hm]. exists operation. split; [done|].
    split; [|by apply includes_spec].
    intros ->. simpl in Hne. done.
  - intros (token & Hin & Hm). exists token. split; [by apply list_elem_of_In|].
    apply orb_true_iff. destruct Hm as [Hm|(operation & -> & Hne & Hm)].
    + left. by apply includes_spec.
    + right. simpl. apply andb_true_iff. split; [|by apply includes_spec].
      apply negb_true_iff, String.eqb_neq. by rewrite toLowerCase_empty.
Qed.

(** X16. [getVisibleUiFindMatches] returns the visible vertices that match: an
    absent or empty [uiFind] gives the empty set without looking at the
    graph.  Otherwise the query is trimmed, put in lower case and cut at
    every space into tokens, and the result lists, in the order of
    [getVisible], the vertices of [getVisible] for which some token
    occurs in the lower-cased name of the service, or in the lower-cased
    name of the operation when the vertex has an operation and its name is
    not empty; an exception of [getVisible] is passed on. *)
Theorem uiFind_matches_are_visible_matches {EdgeId : Type} `{Countable EdgeId}
    (decode : string -> Result (list nat)) (g : GraphModel.t EdgeId)
    (visEncoding : option string) :
  GraphModel.getVisibleUiFindMatches decode g None visEncoding = Ok []
  /\ GraphModel.getVisibleUiFindMatches decode g (Some "") visEncoding = Ok []
  /\ (forall uiFind edges vertices,
        uiFind <> "" ->
        GraphModel.getVisible decode g visEncoding = Ok (edges, vertices) ->
        exists matches,
          GraphModel.getVisibleUiFindMatches decode g (Some uiFind) visEncoding = Ok matches
          /\ sublist matches vertices
          /\ forall v,
               v ∈ matches
               <-> v ∈ vertices
                   /\ exists token,
                        token ∈ JsString.split " "
                                  (JsString.toLowerCase (JsString.trim uiFind))
                        /\ (occursIn token (JsString.toLowerCase (Vertex.service v))
                            \/ exists operation,
                                 Vertex.operation v = Some operation
                                 /\ operation <> ""
                                 /\ occursIn token (JsString.toLowerCase operation)))
  /\ (forall uiFind e,
        uiFind <> "" ->
        GraphModel.getVisible decode g visEncoding = Throw e ->
        GraphModel.getVisibleUiFindMatches decode g (Some uiFind) visEncoding = Throw e).
Proof.
  split; [done|]. split; [done|]. split.
  - intros uiFind edges vertices Hne Hvis. destruct uiFind as [|c q]; [done|].
    cbn [GraphModel.getVisibleUiFindMatches]. rewrite Hvis. cbn [bindR].
    eexists. split; [done|].
    rewrite (foldl_setAdd_filter _ vertices [])
      by (by apply (getVisible_NoDup decode) in Hvis as [_ Hnd]).
    cbn [app]. split; [apply sublist_filter|].
    intros v. by rewrite list_elem_of_filter, matchesUiFind_spec, (and_comm (v ∈ vertices)).
  - intros uiFind e Hne Hvis. destruct uiFind as [|c q]; [done|].
    cbn [GraphModel.getVisibleUiFindMatches]. by rewrite Hvis.
Qed.

(** X17. A query of white space only is not the empty query: [trim] leaves the
    empty string, [split] makes one empty token of it, and the empty token
    is contained in every service name, so every visible vertex matches. *)
Theorem uiFind_blank_matches_all {EdgeId : Type} `{Countable EdgeId}
    (decode : string -> Result (list nat)) (g : GraphModel.t EdgeId)
    (uiFind : string) (visEncoding : option string) edges vertices :
  uiFind <> "" ->
  JsString.trim uiFind = "" ->
  GraphModel.getVisible decode g visEncoding = Ok (edges, vertices) ->
  GraphModel.getVisibleUiFindMatches decode g (Some uiFind) visEncoding = Ok vertices.
Proof.
  intros Hne Htrim Hvis. destruct uiFind as [|c q]; [done|].
  cbn [GraphModel.getVisibleUiFindMatches]. rewrite Hvis, Htrim. cbn [bindR]. f_equal.
  apply (foldl_setAdd_all _ vertices []).
  - intros v _. apply matchesUiFind_empty_token. simpl. left.
  - by apply getVisible_NoDup in Hvis as [_ Hnd].
Qed.

(** X18. With [showOp] off, the names of operations are not searched, except
    that of the focal node: a vertex that is not the focal node has no
    operation, and it matches iff its service name contains a token. *)
Theorem uiFind_hidden_operations_unsearched {EdgeId : Type} `{Countable EdgeId}
    (getEdgeId : string -> string -> EdgeId)
    (getPathElemHasher : EDdgDensity -> bool -> list TDdgPath -> PathElemRef -> string)
    paths dm l density (g : GraphModel.t EdgeId) k v :
  GraphModel.new getEdgeId getPathElemHasher paths dm l density false = Ok g ->
  GraphModel.vertices g !! k = Some v ->
  Vertex.isFocalNode v = false ->
  Vertex.operation v = None
  /\ forall uiFindArr,
       GraphModel.matchesUiFind uiFindArr v
       = existsb (JsString.includes (JsString.toLowerCase (Vertex.service v))) uiFindArr.
Proof.
  intros Hnew Hv Hfocal.
  destruct (new_inv _ _ _ _ _ _ _ _ Hnew) as (_ & _ & _ & _ & Hs).
  destruct (new_links _ _ _ _ _ _ _ _ Hnew) as [Hl _].
  destruct (link_first _ _ _ _ Hl _ _ Hv) as (i & r & _ & _ & _ & Hvo).
  unfold vertexOf in Hvo. rewrite Hs in Hvo.
  destruct (deref (GraphModel.arena g) r) as [elem|]; simpl in Hvo; [|done].
  destruct (distance (GraphModel.arena g) r) as [dist|]; simpl in Hvo; [|done].
  injection Hvo as <-. simpl in *. rewrite Hfocal. split; [done|].
  intros uiFindArr. unfold GraphModel.matchesUiFind. simpl.
  induction uiFindArr as [|t ts IH]; [done|]. simpl. rewrite IH.
  by rewrite orb_false_r.
Qed.

(** * Properties of [transformTracesToPaths] *)

Lemma mapT_inr {A B} (f : A -> TransformTracesToPaths.TraceError + B) (l : list A) ys :
  TransformTracesToPaths.mapT f l = inr ys <-> Forall2 (fun x y => f x = inr y) l ys.
Proof.
  revert ys. induction l as [|x l IH]; intros ys; simpl.
  - split; [intros [= <-]; constructor|]. intros Hf. by apply Forall2_nil_inv_l in Hf as ->.
  - destruct (f x) as [err|y] eqn:Hx.
    + split; [done|]. intros Hf. apply Forall2_cons_inv_l in Hf as (y & ys' & Hy & _ & _).
      congruence.
    + destruct (TransformTracesToPaths.mapT f l) as [err|ys'] eqn:Hl.
      * split; [done|]. intros Hf.
        apply Forall2_cons_inv_l in Hf as (y' & ys' & _ & Hys & _).
        by apply IH in Hys.
      * split.
        -- intros [= <-]. constructor; [done|]. by apply IH.
        -- intros Hf. apply Forall2_cons_inv_l in Hf as (y' & ys2 & Hy & Hys & ->).
           apply IH in Hys. congruence.
Qed.

Lemma mapT_returns {A B} (f : A -> TransformTracesToPaths.TraceError + B) (l : list A) :
  (exists ys, TransformTracesToPaths.mapT f l = inr ys)
  <-> forall x, x ∈ l -> exists y, f x = inr y.
Proof.
  induction l as [|x l IH]; simpl.
  - split; [intros _ x Hx; by apply elem_of_nil in Hx|]. by eexists.
  - destruct (f x) as [err|y] eqn:Hx.
    + split; [by intros [? ?]|]. intros Hall.
      destruct (Hall x) as [y Hy]; [left|]. congruence.
    + destruct (TransformTracesToPaths.mapT f l) as [err|ys'] eqn:Hl.
      * split; [by intros [? ?]|]. intros Hall.
        destruct (proj2 IH) as [ys Hys]; [|done]. intros z Hz. apply Hall. by right.
      * split; [|by eexists]. intros _ z Hz.
        apply elem_of_cons in Hz as [->|Hz]; [by eexists|].
        by apply (proj1 IH ltac:(by eexists)).
Qed.

Lemma elem_of_concat {A} (x : A) (ls : list (list A)) :
  x ∈ concat ls <-> exists l, x ∈ l /\ l ∈ ls.
Proof.
  induction ls as [|l ls IH]; simpl.
  - split; [by intros ?%elem_of_nil|]. intros (l & _ & Hl). by apply elem_of_nil in Hl.
  - rewrite elem_of_app, IH. split.
    + intros [Hx|(l' & Hx & Hl')]; [exists l; split; [done|left]|].
      exists l'. split; [done|by right].
    + intros (l' & Hx & Hl'). apply elem_of_cons in Hl' as [->|Hl']; [by left|].
      right. by exists l'.
Qed.

(** A loop whose body either throws or appends to the state a list that
    depends on the element only. *)
Lemma forEachT_appends {A B} (f : A -> list B -> TransformTracesToPaths.TraceError + list B)
    (g : A -> list B) (P : A -> Prop) (l : list A) :
  (forall x s, P x -> f x s = inr (s ++ g x)) ->
  (forall x s s', f x s = inr s' -> P x) ->
  forall s,
    ((forall x, x ∈ l -> P x) ->
       TransformTracesToPaths.forEachT f l s = inr (s ++ concat (g <$> l)))
    /\ ((exists s', TransformTracesToPaths.forEachT f l s = inr s') ->
        forall x, x ∈ l -> P x).
Proof.
  intros Hok Hbad. induction l as [|x l IH]; intros s; simpl.
  - split; [intros _; by rewrite app_nil_r|]. intros _ x Hx. by apply elem_of_nil in Hx.
  - split.
    + intros Hall. rewrite Hok by (apply Hall; left).
      rewrite (proj1 (IH _)) by (intros y Hy; apply Hall; by right).
      by rewrite <- app_assoc.
    + intros [s' Hs'].
      assert (P x) as Hx.
      { destruct (f x s) as [err|s1] eqn:Hfx; [done|]. by eapply Hbad. }
      rewrite Hok in Hs' by done.
      intros y Hy. apply elem_of_cons in Hy as [->|Hy]; [done|].
      by apply (proj2 (IH _) ltac:(by eexists)).
Qed.

Section trace_properties.
Context {Span : Type}.
Variable spanID : Span -> string.
Variable processID : Span -> string.
Variable operationName : Span -> string.
Variable hasChildren : Span -> bool.
Variable spanAncestorIds : Span -> list string.
Variable inheritedProperty : string -> bool.
Variables (focalService : string) (focalOperation : option string).

Local Abbreviation pathOf := (TransformTracesToPaths.pathOfLeaf processID operationName
                                spanAncestorIds inheritedProperty).
Local Abbreviation mapOf := (TransformTracesToPaths.spanMapOf spanID).
Local Abbreviation convert := (TransformTracesToPaths.convertSpan processID operationName
                                 inheritedProperty).
Local Abbreviation depsOfLeaf :=
  (dependenciesOfLeaf spanID processID spanAncestorIds inheritedProperty operationName
     focalService focalOperation).
Local Abbreviation depsOfTrace :=
  (dependenciesOfTrace spanID processID hasChildren spanAncestorIds inheritedProperty
     operationName focalService focalOperation).

Lemma spanMapOf_lookup (data : TransformTracesToPaths.Trace) id :
  mapOf data !! id = spanOfId spanID (TransformTracesToPaths.spans data) id.
Proof.
  unfold TransformTracesToPaths.spanMapOf, spanOfId.
  induction (TransformTracesToPaths.spans data) as [|span l IH] using rev_ind; [done|].
  rewrite foldl_app, filter_app. simpl. rewrite lookup_insert, filter_cons, filter_nil.
  destruct (decide (spanID span = id)) as [Heq|Hne].
  - by rewrite last_snoc.
  - by rewrite app_nil_r.
Qed.

Lemma convertSpan_entry span (data : TransformTracesToPaths.Trace) entry :
  convert span data = inr entry
  <-> hasProperty inheritedProperty data (processID span)
      /\ entry = TransformTracesToPaths.mkEntry
                   (TransformTracesToPaths.processes data !! processID span)
                   (operationName span).
Proof.
  unfold TransformTracesToPaths.convertSpan, hasProperty.
  destruct (TransformTracesToPaths.processes data !! processID span) as [name|].
  - split; [intros [= <-]; split; [by left|done]|]. by intros [_ ->].
  - destruct (inheritedProperty (processID span)).
    + split; [intros [= <-]; split; [by right|done]|]. by intros [_ ->].
    + split; [done|]. intros [[[? ?]|?] _]; done.
Qed.

Lemma convertSpan_returns span (data : TransformTracesToPaths.Trace) :
  (exists entry, convert span data = inr entry)
  <-> hasProperty inheritedProperty data (processID span).
Proof.
  split.
  - intros [entry Hentry]. by apply convertSpan_entry in Hentry as [? _].
  - intros Hp. eexists. by apply convertSpan_entry.
Qed.

Lemma pathOfLeaf_returns (data : TransformTracesToPaths.Trace) leaf :
  (exists path, pathOf data (mapOf data) leaf = inr path)
  <-> hasProperty inheritedProperty data (processID leaf)
      /\ forall id, id ∈ spanAncestorIds leaf ->
           exists span,
             spanOfId spanID (TransformTracesToPaths.spans data) id = Some span
             /\ hasProperty inheritedProperty data (processID span).
Proof.
  unfold TransformTracesToPaths.pathOfLeaf.
  match goal with |- context [TransformTracesToPaths.mapT ?f ?l] =>
    pose proof (mapT_returns f l) as Hmap;
    destruct (TransformTracesToPaths.mapT f l) as [err|ancestors] end.
  - split; [by intros [? ?]|]. intros [_ Hall]. exfalso.
    destruct (proj2 Hmap) as [? ?]; [|done].
    intros id Hid. destruct (Hall id Hid) as (span & Hspan & Hproc).
    rewrite spanMapOf_lookup, Hspan. by apply convertSpan_returns.
  - pose proof (proj1 Hmap ltac:(by eexists)) as Hall.
    rewrite <- convertSpan_returns.
    destruct (convert leaf data) as [err|entry].
    + split; [by intros [? ?]|]. by intros [[? ?] _].
    + split; [|by eexists]. intros _. split; [by eexists|].
      intros id Hid. destruct (Hall id Hid) as [entry' Hentry].
      rewrite spanMapOf_lookup in Hentry.
      destruct (spanOfId spanID (TransformTracesToPaths.spans data) id) as [span|];
        [|done].
      exists span. split; [done|]. apply convertSpan_returns. by eexists.
Qed.

(** A path made of processes of the trace only has a service in every
    entry. *)
Lemma pathOfLeaf_typed (data : TransformTracesToPaths.Trace) leaf path :
  is_Some (TransformTracesToPaths.processes data !! processID leaf) ->
  (forall id, id ∈ spanAncestorIds leaf ->
     exists span,
       spanOfId spanID (TransformTracesToPaths.spans data) id = Some span
       /\ is_Some (TransformTracesToPaths.processes data !! processID span)) ->
  pathOf data (mapOf data) leaf = inr path ->
  is_Some (mapM typedEntry path).
Proof.
  intros Hleaf Hanc. unfold TransformTracesToPaths.pathOfLeaf.
  match goal with |- context [TransformTracesToPaths.mapT ?f ?l] =>
    pose proof (mapT_inr f l) as Hmap;
    destruct (TransformTracesToPaths.mapT f l) as [err|ancestors] end; [done|].
  pose proof (proj1 (Hmap ancestors) eq_refl) as Hall.
  destruct (convert leaf data) as [err|entry] eqn:Hentry; [done|].
  apply convertSpan_entry in Hentry as [_ ->]. intros [= <-].
  assert (forall id, is_Some (TransformTracesToPaths.processes data !! id) ->
            forall op, is_Some (typedEntry (TransformTracesToPaths.mkEntry
                        (TransformTracesToPaths.processes data !! id) op))) as Hty.
  { intros id [name ->] op. by eexists. }
  apply mapM_is_Some, Forall_app. split; [|by repeat constructor; apply Hty].
  apply Forall_lookup. intros j entry Hj.
  destruct (Forall2_lookup_r _ _ _ _ _ Hall Hj) as (id & Hid & Hconv).
  destruct (Hanc id) as (span & Hspan & Hproc); [by eapply list_elem_of_lookup_2|].
  rewrite spanMapOf_lookup, Hspan in Hconv.
  apply convertSpan_entry in Hconv as [_ ->]. by apply Hty.
Qed.

Lemma addLeaf_appends (data : TransformTracesToPaths.Trace) leaf deps :
  (exists path, pathOf data (mapOf data) leaf = inr path) ->
  TransformTracesToPaths.addLeaf processID operationName spanAncestorIds inheritedProperty
    data (mapOf data) focalService focalOperation leaf deps
  = inr (deps ++ depsOfLeaf data leaf).
Proof.
  intros [path Hpath]. unfold TransformTracesToPaths.addLeaf, dependenciesOfLeaf.
  rewrite Hpath. destruct (TransformTracesToPaths.hasFocal _ _ _); [done|].
  by rewrite app_nil_r.
Qed.

Lemma addLeaf_returns (data : TransformTracesToPaths.Trace) leaf deps deps' :
  TransformTracesToPaths.addLeaf processID operationName spanAncestorIds inheritedProperty
    data (mapOf data) focalService focalOperation leaf deps = inr deps' ->
  exists path, pathOf data (mapOf data) leaf = inr path.
Proof.
  unfold TransformTracesToPaths.addLeaf.
  destruct (pathOf data (mapOf data) leaf); [done|]. by eexists.
Qed.

Lemma resolvable_leaves (data : TransformTracesToPaths.Trace) :
  resolvable spanID processID hasChildren spanAncestorIds inheritedProperty data
  <-> forall leaf,
        leaf ∈ filter (fun span => hasChildren span = false)
                      (TransformTracesToPaths.spans data) ->
        exists path, pathOf data (mapOf data) leaf = inr path.
Proof.
  unfold resolvable. split.
  - intros Hres leaf Hleaf. apply list_elem_of_filter in Hleaf as [Hc Hleaf].
    apply pathOfLeaf_returns. by apply Hres.
  - intros Hall leaf Hleaf Hc. apply pathOfLeaf_returns, Hall.
    by apply list_elem_of_filter.
Qed.

Lemma addTrace_appends fetched deps :
  (forall data, fetched = Some data ->
     resolvable spanID processID hasChildren spanAncestorIds inheritedProperty data) ->
  TransformTracesToPaths.addTrace spanID processID operationName hasChildren
    spanAncestorIds inheritedProperty focalService focalOperation fetched deps
  = inr (deps ++ depsOfTrace fetched).
Proof.
  intros Hres. destruct fetched as [data|]; simpl; [|by rewrite app_nil_r].
  apply (forEachT_appends _ (depsOfLeaf data)
           (fun leaf => exists path, pathOf data (mapOf data) leaf = inr path)).
  - intros leaf s. apply addLeaf_appends.
  - intros leaf s s'. apply addLeaf_returns.
  - by apply resolvable_leaves, Hres.
Qed.

Lemma addTrace_returns fetched deps deps' :
  TransformTracesToPaths.addTrace spanID processID operationName hasChildren
    spanAncestorIds inheritedProperty focalService focalOperation fetched deps
  = inr deps' ->
  forall data, fetched = Some data ->
    resolvable spanID processID hasChildren spanAncestorIds inheritedProperty data.
Proof.
  intros Hrun data ->. simpl in Hrun. apply resolvable_leaves.
  apply (proj2 (forEachT_appends
                  (TransformTracesToPaths.addLeaf processID operationName spanAncestorIds
                     inheritedProperty data (mapOf data) focalService focalOperation)
                  (depsOfLeaf data)
                  (fun leaf => exists path, pathOf data (mapOf data) leaf = inr path)
                  (filter (fun span => hasChildren span = false)
                          (TransformTracesToPaths.spans data))
                  (addLeaf_appends data) (addLeaf_returns data) deps)).
  by eexists.
Qed.

Lemma transformTracesToPaths_spec traces :
  let fetched := traces.*2 in
  ((forall data, Some data ∈ fetched ->
      resolvable spanID processID hasChildren spanAncestorIds inheritedProperty data) ->
   TransformTracesToPaths.transformTracesToPaths spanID processID operationName
     hasChildren spanAncestorIds inheritedProperty traces focalService focalOperation
   = inr (concat (depsOfTrace <$> fetched)))
  /\ ((exists deps,
         TransformTracesToPaths.transformTracesToPaths spanID processID operationName
           hasChildren spanAncestorIds inheritedProperty traces focalService
           focalOperation = inr deps) ->
      forall data, Some data ∈ fetched ->
        resolvable spanID processID hasChildren spanAncestorIds inheritedProperty data).
Proof.
  intros fetched. unfold TransformTracesToPaths.transformTracesToPaths. fold fetched.
  pose proof (forEachT_appends
    (TransformTracesToPaths.addTrace spanID processID operationName hasChildren
       spanAncestorIds inheritedProperty focalService focalOperation)
    depsOfTrace
    (fun f => forall data, f = Some data ->
                resolvable spanID processID hasChildren spanAncestorIds
                  inheritedProperty data)
    fetched addTrace_appends addTrace_returns []) as [Hok Hret].
  split.
  - intros Hall. apply Hok. intros f Hf data ->. by apply Hall.
  - intros Hsome data Hdata. by apply (Hret Hsome (Some data)).
Qed.

Lemma elem_of_dependenciesOfTrace fetched d :
  d ∈ depsOfTrace fetched
  <-> exists data leaf,
        fetched = Some data
        /\ leaf ∈ TransformTracesToPaths.spans data /\ hasChildren leaf = false
        /\ pathOf data (mapOf data) leaf = inr (TransformTracesToPaths.path d)
        /\ TransformTracesToPaths.hasFocal (TransformTracesToPaths.path d)
             focalService focalOperation = true
        /\ TransformTracesToPaths.attributes d
           = [("exemplar_trace_id", TransformTracesToPaths.traceID data)].
Proof.
  unfold dependenciesOfTrace. destruct fetched as [data|].
  2:{ split; [by intros ?%elem_of_nil|]. by intros (? & ? & ? & _). }
  rewrite elem_of_concat. split.
  - intros (ds & Hd & Hds). apply list_elem_of_fmap in Hds as (leaf & -> & Hleaf).
    apply list_elem_of_filter in Hleaf as [Hc Hleaf]. unfold dependenciesOfLeaf in Hd.
    destruct (pathOf data (mapOf data) leaf) as [|path] eqn:Hp; [by apply elem_of_nil in Hd|].
    destruct (TransformTracesToPaths.hasFocal path _ _) eqn:Hf;
      [|by apply elem_of_nil in Hd].
    apply list_elem_of_singleton in Hd as ->. by exists data, leaf.
  - intros (data' & leaf & [= <-] & Hleaf & Hc & Hp & Hf & Ha).
    exists (depsOfLeaf data leaf). split.
    + unfold dependenciesOfLeaf. rewrite Hp, Hf. apply list_elem_of_singleton.
      destruct d as [p a]. simpl in *. by subst a.
    + apply list_elem_of_fmap. exists leaf. split; [done|]. by apply list_elem_of_filter.
Qed.

(** [hasFocal] of this file on a path is [hasFocal] of the transform on
    the same path read as payload. *)
Lemma hasFocal_spec path payloadPath :
  mapM typedEntry path = Some payloadPath ->
  TransformTracesToPaths.hasFocal path focalService focalOperation = true
  <-> hasFocal (mkFocal focalService focalOperation) payloadPath.
Proof.
  intros Hty. apply mapM_Some in Hty. unfold hasFocal.
  induction Hty as [|entry e rest es He Hrest IH].
  - split; [done|]. intros (e & He & _). by apply elem_of_nil in He.
  - destruct entry as [[name|] op]; [|done]. injection He as <-.
    cbn [TransformTracesToPaths.hasFocal TransformTracesToPaths.service
         TransformTracesToPaths.operation].
    assert (isFocal (mkFocal focalService focalOperation) (mkEntry op name)
            = bool_decide (Some focalService = Some name)
              && match focalOperation with
                 | None => true
                 | Some fo => bool_decide (fo = op)
                 end) as Heq.
    { unfold isFocal. simpl. f_equal; [apply bool_decide_ext; split; congruence|].
      destruct focalOperation; [|done]. apply bool_decide_ext; split; congruence. }
    rewrite <- Heq.
    destruct (isFocal (mkFocal focalService focalOperation) (mkEntry op name)) eqn:Hf.
    + split; [|done]. intros _. exists (mkEntry op name). split; [left|done].
    + rewrite IH. split.
      * intros (e & He & Hef). exists e. split; [by right|done].
      * intros (e & He & Hef). apply elem_of_cons in He as [->|He]; [congruence|].
        by exists e.
Qed.
Lemma hasFocal_entry path :
  TransformTracesToPaths.hasFocal path focalService focalOperation = true
  <-> exists entry,
        entry ∈ path
        /\ TransformTracesToPaths.service entry = Some focalService
        /\ forall operation,
             focalOperation = Some operation ->
             TransformTracesToPaths.operation entry = operation.
Proof.
  induction path as [|entry rest IH]; cbn [TransformTracesToPaths.hasFocal].
  - split; [done|]. intros (e & He & _). by apply elem_of_nil in He.
  - destruct (bool_decide (Some focalService = TransformTracesToPaths.service entry)
              && match focalOperation with
                 | None => true
                 | Some op => bool_decide (op = TransformTracesToPaths.operation entry)
                 end) eqn:Hhere.
    + split; [|done]. intros _. exists entry. split; [left|].
      apply andb_true_iff in Hhere as [Hs Ho]. apply bool_decide_eq_true in Hs.
      split; [done|]. intros operation ->. by apply bool_decide_eq_true in Ho.
    + rewrite IH. split.
      * intros (e & He & Hrest). exists e. split; [by right|done].
      * intros (e & He & Hs & Ho). apply elem_of_cons in He as [->|He]; [|by exists e].
        exfalso. apply andb_false_iff in Hhere as [Hf|Hf].
        -- apply bool_decide_eq_false in Hf. by rewrite Hs in Hf.
        -- destruct focalOperation as [op|]; [|done].
           apply bool_decide_eq_false in Hf. by rewrite (Ho op eq_refl) in Hf.
Qed.
End trace_properties.

(** X19. [transformTracesToPaths] returns exactly when every fetched trace
    that has data is resolvable: each of its leaves has a process id under
    which [trace.processes] has a property, be it a process of the trace
    or a property that every object inherits, and each ancestor id of a
    leaf is the id of a span of the trace that has such a process id.
    Otherwise it throws, whatever the focal service and operation are, and
    also when the leaf concerned would not have been kept. *)
Theorem transformTracesToPaths_returns_iff_resolvable {Span : Type}
    (spanID processID operationName : Span -> string) (hasChildren : Span -> bool)
    (spanAncestorIds : Span -> list string) (inheritedProperty : string -> bool)
    (traces : list (string * option TransformTracesToPaths.Trace))
    (focalService : string) (focalOperation : option string) :
  (exists dependencies,
     TransformTracesToPaths.transformTracesToPaths spanID processID operationName
       hasChildren spanAncestorIds inheritedProperty traces focalService focalOperation
     = inr dependencies)
  <-> forall data, Some data ∈ traces.*2 ->
        resolvable spanID processID hasChildren spanAncestorIds inheritedProperty data.
Proof.
  destruct (transformTracesToPaths_spec spanID processID operationName hasChildren
              spanAncestorIds inheritedProperty focalService focalOperation traces)
    as [Hok Hret].
  split; [exact Hret|]. intros Hall. eexists. by apply Hok.
Qed.

(** X20. The dependencies returned are the paths of the leaves that contain the
    focal node: a dependency is in the result iff it is the path of a leaf
    (a span without children) of a fetched trace with data, that path has
    an entry of the focal service (and operation, when one is given), and
    its one attribute is the id of that trace as exemplar. *)
Theorem dependencies_are_focal_leaf_paths {Span : Type}
    (spanID processID operationName : Span -> string) (hasChildren : Span -> bool)
    (spanAncestorIds : Span -> list string) (inheritedProperty : string -> bool)
    (traces : list (string * option TransformTracesToPaths.Trace))
    (focalService : string) (focalOperation : option string) dependencies d :
  TransformTracesToPaths.transformTracesToPaths spanID processID operationName
    hasChildren spanAncestorIds inheritedProperty traces focalService focalOperation
  = inr dependencies ->
  d ∈ dependencies
  <-> exists data leaf,
        Some data ∈ traces.*2
        /\ leaf ∈ TransformTracesToPaths.spans data /\ hasChildren leaf = false
        /\ TransformTracesToPaths.pathOfLeaf processID operationName spanAncestorIds
             inheritedProperty data (TransformTracesToPaths.spanMapOf spanID data) leaf
           = inr (TransformTracesToPaths.path d)
        /\ (exists entry,
              entry ∈ TransformTracesToPaths.path d
              /\ TransformTracesToPaths.service entry = Some focalService
              /\ forall operation,
                   focalOperation = Some operation ->
                   TransformTracesToPaths.operation entry = operation)
        /\ TransformTracesToPaths.hasFocal (TransformTracesToPaths.path d)
             focalService focalOperation = true
        /\ TransformTracesToPaths.attributes d
           = [("exemplar_trace_id", TransformTracesToPaths.traceID data)].
Proof.
  intros Hrun.
  destruct (transformTracesToPaths_spec spanID processID operationName hasChildren
              spanAncestorIds inheritedProperty focalService focalOperation traces)
    as [Hok Hret].
  rewrite Hok in Hrun by (apply Hret; by eexists). injection Hrun as <-.
  rewrite elem_of_concat. split.
  - intros (ds & Hd & Hds). apply list_elem_of_fmap in Hds as (fetched & -> & Hf).
    apply elem_of_dependenciesOfTrace in Hd
      as (data & leaf & -> & Hleaf & Hc & Hp & Hfocal & Ha).
    exists data, leaf. do 4 (split; [done|]). split; [|done].
    by apply hasFocal_entry.
  - intros (data & leaf & Hdata & Hleaf & Hc & Hp & _ & Hrest).
    exists (dependenciesOfTrace spanID processID hasChildren spanAncestorIds
              inheritedProperty operationName focalService focalOperation (Some data)).
    split.
    + apply elem_of_dependenciesOfTrace. by exists data, leaf.
    + apply list_elem_of_fmap. by exists (Some data).
Qed.

(** X21. What [transformTracesToPaths] returns can be handed to
    [transformDdgData] with the same focal service and operation: every
    path returned contains the focal node, so the transform does not
    throw on these paths read as its payload, which they are when every
    entry has a service; and every entry has one when the leaves and
    ancestors of the traces all have a process of their trace. *)
Theorem transformTracesToPaths_feeds_transformDdgData {Span : Type}
    (spanID processID operationName : Span -> string) (hasChildren : Span -> bool)
    (spanAncestorIds : Span -> list string) (inheritedProperty : string -> bool)
    (traces : list (string * option TransformTracesToPaths.Trace))
    (focalService : string) (focalOperation : option string) dependencies :
  TransformTracesToPaths.transformTracesToPaths spanID processID operationName
    hasChildren spanAncestorIds inheritedProperty traces focalService focalOperation
  = inr dependencies ->
  Forall (fun d => TransformTracesToPaths.hasFocal (TransformTracesToPaths.path d)
                     focalService focalOperation = true) dependencies
  /\ (forall payload,
        typedPayload dependencies = Some payload ->
        Forall (hasFocal (mkFocal focalService focalOperation)) payload
        /\ is_Ok (transformDdgData payload (mkFocal focalService focalOperation)))
  /\ ((forall data, Some data ∈ traces.*2 ->
         resolvedByProcesses spanID processID hasChildren spanAncestorIds data) ->
      is_Some (typedPayload dependencies)).
Proof.
  intros Hrun.
  destruct (transformTracesToPaths_spec spanID processID operationName hasChildren
              spanAncestorIds inheritedProperty focalService focalOperation traces)
    as [Hok Hret].
  rewrite Hok in Hrun by (apply Hret; by eexists). injection Hrun as <-.
  set (dependencies :=
         concat (dependenciesOfTrace spanID processID hasChildren spanAncestorIds
                   inheritedProperty operationName focalService focalOperation
                 <$> traces.*2)).
  assert (forall d, d ∈ dependencies ->
            exists data leaf,
              Some data ∈ traces.*2
              /\ leaf ∈ TransformTracesToPaths.spans data /\ hasChildren leaf = false
              /\ TransformTracesToPaths.pathOfLeaf processID operationName spanAncestorIds
                   inheritedProperty data (TransformTracesToPaths.spanMapOf spanID data)
                   leaf = inr (TransformTracesToPaths.path d)
              /\ TransformTracesToPaths.hasFocal (TransformTracesToPaths.path d)
                   focalService focalOperation = true) as Hdeps.
  { intros d Hd. apply elem_of_concat in Hd as (ds & Hd & Hds).
    apply list_elem_of_fmap in Hds as (fetched & -> & Hin).
    apply elem_of_dependenciesOfTrace in Hd
      as (data & leaf & -> & Hleaf & Hc & Hp & Hfocal & _).
    by exists data, leaf. }
  split; [|split].
  - apply Forall_forall. intros d Hd.
    by destruct (Hdeps d Hd) as (_ & _ & _ & _ & _ & _ & Hfocal).
  - intros payload Hty.
    assert (Forall (hasFocal (mkFocal focalService focalOperation)) payload) as Hall.
    { apply mapM_Some in Hty. apply Forall_lookup. intros i payloadPath Hi.
      destruct (Forall2_lookup_r _ _ _ _ _ Hty Hi) as (d & Hd & Hpath).
      apply (hasFocal_spec _ _ _ _ Hpath).
      apply list_elem_of_lookup_2 in Hd.
      by destruct (Hdeps d Hd) as (_ & _ & _ & _ & _ & _ & Hfocal). }
    split; [done|].
    destruct (transformDdgData_spec _ _ Hall) as (m & Hm & _). by exists m.
  - intros Hres. apply mapM_is_Some, Forall_forall. intros d Hd.
    destruct (Hdeps d Hd) as (data & leaf & Hdata & Hleaf & Hc & Hp & _).
    destruct (Hres data Hdata leaf Hleaf Hc) as [Hproc Hanc].
    by eapply pathOfLeaf_typed.
Qed.

(** X22. The path of a leaf lists its ancestors in the order [spanAncestorIds]
    gives them and ends with the leaf itself; each entry is the operation
    name of its span with the service name of the process of that span,
    and without a service when the trace has no process of that id (the
    id is then the name of an inherited property); an ancestor id that
    several spans of the trace have stands for the last of them. *)
Theorem pathOfLeaf_entries {Span : Type}
    (spanID processID operationName : Span -> string)
    (spanAncestorIds : Span -> list string) (inheritedProperty : string -> bool)
    (data : TransformTracesToPaths.Trace) (leaf : Span) path :
  TransformTracesToPaths.pathOfLeaf processID operationName spanAncestorIds
    inheritedProperty data (TransformTracesToPaths.spanMapOf spanID data) leaf
  = inr path ->
  length path = S (length (spanAncestorIds leaf))
  /\ hasProperty inheritedProperty data (processID leaf)
  /\ last path
     = Some (TransformTracesToPaths.mkEntry
               (TransformTracesToPaths.processes data !! processID leaf)
               (operationName leaf))
  /\ forall i id,
       spanAncestorIds leaf !! i = Some id ->
       exists span,
         spanOfId spanID (TransformTracesToPaths.spans data) id = Some span
         /\ hasProperty inheritedProperty data (processID span)
         /\ path !! i
            = Some (TransformTracesToPaths.mkEntry
                      (TransformTracesToPaths.processes data !! processID span)
                      (operationName span)).
Proof.
  unfold TransformTracesToPaths.pathOfLeaf.
  match goal with |- context [TransformTracesToPaths.mapT ?f ?l] =>
    pose proof (mapT_inr f l) as Hmap;
    destruct (TransformTracesToPaths.mapT f l) as [err|ancestors] end; [done|].
  pose proof (proj1 (Hmap ancestors) eq_refl) as Hall.
  destruct (TransformTracesToPaths.convertSpan processID operationName inheritedProperty
              leaf data) as [err|entry] eqn:Hleaf; [done|].
  apply (convertSpan_entry processID operationName inheritedProperty) in Hleaf
    as [Hp ->].
  intros [= <-]. pose proof (Forall2_length _ _ _ Hall) as Hlen.
  split; [rewrite length_app; simpl; lia|]. split; [done|]. split.
  - by rewrite last_snoc.
  - intros i id Hid.
    destruct (Forall2_lookup_l _ _ _ _ _ Hall Hid) as (entry & Hentry & Hconv).
    rewrite (spanMapOf_lookup spanID) in Hconv.
    destruct (spanOfId spanID (TransformTracesToPaths.spans data) id) as [span|] eqn:Hspan;
      [|done].
    apply (convertSpan_entry processID operationName inheritedProperty) in Hconv
      as [Hps ->].
    exists span. split; [done|]. split; [done|]. by apply lookup_app_l_Some.
Qed.

(** * Instances on the sample inputs *)

Lemma scenarioA_model_graph :
  exists m (g : GraphModel.t (string * string)),
    transformDdgData scenarioA_payload scenarioA_focal = Ok m
    /\ DdgModel.paths m = scenarioA_paths
    /\ inIndexOrder (DdgModel.paths m) scenarioA_order
    /\ GraphModel.new pairEdgeId conciseHasher (DdgModel.paths m)
         (DdgModel.distanceToPathElems m) scenarioA_order MostConcise true = Ok g.
Proof.
  destruct scenarioA_transform as (m & Hm & Hp & Ho).
  pose proof (transformDdgData_focalSideFirst _ _ _ Hm) as Hfirst. rewrite Ho in Hfirst.
  destruct (new_ok pairEdgeId conciseHasher (DdgModel.paths m)
              (DdgModel.distanceToPathElems m) scenarioA_order MostConcise true Hfirst)
    as [g Hg].
  exists m, g. split; [done|]. split; [done|]. split; [|done].
  by apply scenarioA_inIndexOrder.
Qed.

Lemma scenarioA_graph_hidden :
  exists g : GraphModel.t (string * string),
    GraphModel.new pairEdgeId conciseHasher scenarioA_paths ∅ scenarioA_order
      MostConcise false = Ok g.
Proof.
  destruct scenarioA_transform as (m & Hm & Hp & Ho).
  pose proof (transformDdgData_focalSideFirst _ _ _ Hm) as Hfirst.
  rewrite Hp, Ho in Hfirst. by apply new_ok.
Qed.

Lemma distanceToPathElems_groups_by_distance_witness :
  exists m,
    transformDdgData scenarioA_payload scenarioA_focal = Ok m
    /\ (forall d r,
          r ∈ default [] (DdgModel.distanceToPathElems m !! d)
          <-> is_Some (deref (DdgModel.paths m) r)
              /\ distance (DdgModel.paths m) r = Some d)
    /\ (forall d elems,
          DdgModel.distanceToPathElems m !! d = Some elems -> elems <> [] /\ NoDup elems).
Proof.
  destruct scenarioA_transform as (m & Hm & _). exists m. split; [exact Hm|].
  exact (distanceToPathElems_groups_by_distance scenarioA_payload scenarioA_focal m Hm).
Defined.

Lemma paths_back_pointers_witness :
  exists m,
    transformDdgData scenarioA_payload scenarioA_focal = Ok m
    /\ length (DdgModel.paths m) = length scenarioA_payload
    /\ length (allRefs (DdgModel.paths m)) = length (concat scenarioA_payload)
    /\ forall p path i e,
         DdgModel.paths m !! p = Some path -> members path !! i = Some e ->
         PathElem.memberOf e = p /\ PathElem.memberIdx e = i.
Proof.
  destruct scenarioA_transform as (m & Hm & _). exists m. split; [exact Hm|].
  exact (paths_back_pointers scenarioA_payload scenarioA_focal m Hm).
Defined.

Lemma focalSideNeighbor_one_step_nearer_witness :
  exists m,
    transformDdgData scenarioA_payload scenarioA_focal = Ok m
    /\ is_Some (deref (DdgModel.paths m) (0, 2)%nat)
    /\ distance (DdgModel.paths m) (0, 2)%nat = Some 1
    /\ (1 = 0 -> focalSideNeighbor (DdgModel.paths m) (0, 2)%nat = None)
    /\ (1 <> 0 ->
        exists n : PathElemRef,
          focalSideNeighbor (DdgModel.paths m) (0, 2)%nat = Some n
          /\ n.1 = 0%nat /\ Z.of_nat n.2 = Z.of_nat 2 - Z.sgn 1
          /\ is_Some (deref (DdgModel.paths m) n)
          /\ distance (DdgModel.paths m) n = Some (1 - Z.sgn 1)).
Proof.
  destruct scenarioA_transform as (m & Hm & Hp & _). exists m.
  assert (is_Some (deref (DdgModel.paths m) (0, 2)%nat)) as Hr
    by (rewrite Hp; vm_compute; eauto).
  assert (distance (DdgModel.paths m) (0, 2)%nat = Some 1) as Hd
    by (rewrite Hp; reflexivity).
  split; [exact Hm|]. split; [exact Hr|]. split; [exact Hd|].
  exact (focalSideNeighbor_one_step_nearer scenarioA_payload scenarioA_focal m
           (0, 2)%nat 1 Hm Hr Hd).
Defined.

Lemma focal_elements_numbered_first_witness :
  exists m path,
    transformDdgData scenarioA_payload scenarioA_focal = Ok m
    /\ DdgModel.paths m !! 0%nat = Some path
    /\ JsMap.get 0%nat (DdgModel.visIdxToPathElem m) = Some (0%nat, Z.to_nat (focalIdx path))
    /\ visibilityIdxOf (DdgModel.paths m) (0%nat, Z.to_nat (focalIdx path)) = Ok 0%nat.
Proof.
  destruct scenarioA_transform as (m & Hm & Hp & _).
  assert (exists path, DdgModel.paths m !! 0%nat = Some path) as [path Hpath]
    by (rewrite Hp; vm_compute; eauto).
  exists m, path. split; [exact Hm|]. split; [exact Hpath|].
  exact (focal_elements_numbered_first scenarioA_payload scenarioA_focal m 0%nat path
           Hm Hpath).
Defined.

Lemma transformDdgData_order_independent_witness :
  scenarioB_payload ≡ₚ scenarioB_swapped
  /\ (forall a b, a ∈ scenarioB_payload -> b ∈ scenarioB_payload ->
        compareValue a = compareValue b -> a = b)
  /\ transformDdgData scenarioB_payload scenarioA_focal
     = transformDdgData scenarioB_swapped scenarioA_focal.
Proof.
  assert (scenarioB_payload ≡ₚ scenarioB_swapped) as Hperm by apply Permutation_swap.
  assert (forall a b, a ∈ scenarioB_payload -> b ∈ scenarioB_payload ->
            compareValue a = compareValue b -> a = b) as Hinj.
  { intros a b Ha Hb.
    apply elem_of_cons in Ha as [->|Ha]; [|apply list_elem_of_singleton in Ha as ->];
      (apply elem_of_cons in Hb as [->|Hb]; [|apply list_elem_of_singleton in Hb as ->]);
      vm_compute; congruence. }
  split; [exact Hperm|]. split; [exact Hinj|].
  exact (transformDdgData_order_independent scenarioB_payload scenarioB_swapped
           scenarioA_focal Hperm Hinj).
Defined.

Lemma services_index_the_elements_witness :
  exists m,
    transformDdgData scenarioA_payload scenarioA_focal = Ok m
    /\ (forall s o r,
          r ∈ pathElemsOf (DdgModel.services m) s o
          <-> exists e, deref (DdgModel.paths m) r = Some e
                        /\ PathElem.operation e = mkOpRef s o)
    /\ (forall s o, NoDup (pathElemsOf (DdgModel.services m) s o))
    /\ (forall s,
          is_Some (DdgModel.services m !! s)
          <-> exists es entry, es ∈ scenarioA_payload /\ entry ∈ es /\ service entry = s)
    /\ (forall s ops o,
          DdgModel.services m !! s = Some ops ->
          is_Some (ops !! o)
          <-> exists es entry,
                es ∈ scenarioA_payload /\ entry ∈ es
                /\ service entry = s /\ operation entry = o).
Proof.
  destruct scenarioA_transform as (m & Hm & _). exists m. split; [exact Hm|].
  exact (services_index_the_elements scenarioA_payload scenarioA_focal m Hm).
Defined.

Lemma vertices_shared_by_key_witness :
  exists g : GraphModel.t (string * string),
    GraphModel.new pairEdgeId conciseHasher scenarioA_paths ∅ scenarioA_order
      MostConcise true = Ok g
    /\ (forall r1 r2, r1 ∈ scenarioA_order -> r2 ∈ scenarioA_order ->
          GraphModel.pathElemToVertex g !! r1 = GraphModel.pathElemToVertex g !! r2
          <-> conciseHasher MostConcise true scenarioA_paths r1
              = conciseHasher MostConcise true scenarioA_paths r2)
    /\ (forall r v,
          GraphModel.pathElemToVertex g !! r = Some v
          <-> exists pathElems,
                GraphModel.vertexToPathElems g !! v = Some pathElems /\ r ∈ pathElems)
    /\ (forall k,
          is_Some (GraphModel.vertices g !! k)
          <-> exists r, r ∈ scenarioA_order
                        /\ conciseHasher MostConcise true scenarioA_paths r = k).
Proof.
  destruct scenarioA_graph as (g & Hg). exists g. split; [exact Hg|].
  exact (vertices_shared_by_key pairEdgeId conciseHasher scenarioA_paths ∅
           scenarioA_order MostConcise true g Hg).
Defined.

Lemma vertex_made_from_first_element_witness :
  exists (g : GraphModel.t (string * string)) v,
    GraphModel.new pairEdgeId conciseHasher scenarioA_paths ∅ scenarioA_order
      MostConcise true = Ok g
    /\ GraphModel.vertices g !! "B::opB" = Some v
    /\ exists i r elem dist,
         scenarioA_order !! i = Some r
         /\ conciseHasher MostConcise true scenarioA_paths r = "B::opB"
         /\ (forall j r', (j < i)%nat -> scenarioA_order !! j = Some r' ->
               conciseHasher MostConcise true scenarioA_paths r' <> "B::opB")
         /\ deref scenarioA_paths r = Some elem /\ distance scenarioA_paths r = Some dist
         /\ Vertex.key v = "B::opB"
         /\ Vertex.isFocalNode v = bool_decide (dist = 0)
         /\ Vertex.service v = op_service (PathElem.operation elem)
         /\ Vertex.operation v
            = if true || bool_decide (dist = 0)
              then Some (op_name (PathElem.operation elem)) else None.
Proof.
  destruct scenarioA_graph as (g & Hg).
  destruct (vertex_of_element pairEdgeId conciseHasher scenarioA_paths ∅
              scenarioA_order MostConcise true g (0, 1)%nat Hg ltac:(left))
    as (v & Hv & _).
  exists g, v. split; [exact Hg|]. split; [exact Hv|].
  exact (vertex_made_from_first_element pairEdgeId conciseHasher scenarioA_paths ∅
           scenarioA_order MostConcise true g "B::opB" v Hg Hv).
Defined.

Lemma edges_shared_by_id_witness :
  exists g : GraphModel.t (string * string),
    GraphModel.new pairEdgeId conciseHasher scenarioA_paths ∅ scenarioA_order
      MostConcise true = Ok g
    /\ (forall r, r ∈ scenarioA_order ->
          is_Some (GraphModel.pathElemToEdge g !! r)
          <-> is_Some (focalSideNeighbor scenarioA_paths r))
    /\ (forall r, r ∉ scenarioA_order -> GraphModel.pathElemToEdge g !! r = None)
    /\ (forall r1 r2 e1 e2,
          GraphModel.pathElemToEdge g !! r1 = Some e1 ->
          GraphModel.pathElemToEdge g !! r2 = Some e2 ->
          pairEdgeId (Edge.from e1) (Edge.to e1) = pairEdgeId (Edge.from e2) (Edge.to e2) ->
          e1 = e2).
Proof.
  destruct scenarioA_graph as (g & Hg). exists g. split; [exact Hg|].
  exact (edges_shared_by_id pairEdgeId conciseHasher scenarioA_paths ∅
           scenarioA_order MostConcise true g Hg).
Defined.

Lemma getVisible_default_two_hops_witness :
  exists m (g : GraphModel.t (string * string)),
    transformDdgData scenarioA_payload scenarioA_focal = Ok m
    /\ inIndexOrder (DdgModel.paths m) scenarioA_order
    /\ GraphModel.new pairEdgeId conciseHasher (DdgModel.paths m)
         (DdgModel.distanceToPathElems m) scenarioA_order MostConcise true = Ok g
    /\ exists edges vertices,
         GraphModel.getVisible VisibilityCodec.decode g None = Ok (edges, vertices)
         /\ NoDup edges /\ NoDup vertices
         /\ (forall v, v ∈ vertices <->
               exists r d, distance (DdgModel.paths m) r = Some d /\ Z.abs d <= 2
                           /\ GraphModel.pathElemToVertex g !! r = Some v)
         /\ (forall e, e ∈ edges <->
               exists r d, distance (DdgModel.paths m) r = Some d /\ Z.abs d <= 2
                           /\ GraphModel.pathElemToEdge g !! r = Some e).
Proof.
  destruct scenarioA_model_graph as (m & g & Hm & _ & Hl & Hg). exists m, g.
  split; [exact Hm|]. split; [exact Hl|]. split; [exact Hg|].
  exact (getVisible_default_two_hops pairEdgeId conciseHasher VisibilityCodec.decode
           scenarioA_payload scenarioA_focal m scenarioA_order true MostConcise g
           Hm Hl Hg).
Defined.

Lemma getVisible_default_needs_known_elements_witness :
  exists g : GraphModel.t (string * string),
    GraphModel.new pairEdgeId conciseHasher scenarioA_paths
      (<[0 := [(0, 1)%nat]]> ∅) [] MostConcise true = Ok g
    /\ ((forall r : PathElemRef, r ∈ [(0, 1)%nat] -> r ∈ ([] : list PathElemRef)) ->
        is_Ok (GraphModel.getVisible VisibilityCodec.decode g None))
    /\ ((exists r : PathElemRef, r ∈ [(0, 1)%nat] /\ r ∉ ([] : list PathElemRef)) ->
        GraphModel.getVisible VisibilityCodec.decode g None = Throw PathElemNotInModel).
Proof.
  eexists. split; [reflexivity|].
  exact (getVisible_default_needs_known_elements pairEdgeId conciseHasher
           VisibilityCodec.decode scenarioA_paths (<[0 := [(0, 1)%nat]]> ∅) []
           MostConcise true _ eq_refl).
Defined.


Lemma getVertexVisiblePathElems_agrees_witness :
  exists m (g : GraphModel.t (string * string)),
    transformDdgData scenarioA_payload scenarioA_focal = Ok m
    /\ inIndexOrder (DdgModel.paths m) scenarioA_order
    /\ GraphModel.new pairEdgeId conciseHasher (DdgModel.paths m)
         (DdgModel.distanceToPathElems m) scenarioA_order MostConcise true = Ok g
    /\ is_Some (GraphModel.vertices g !! "C::opC")
    /\ (exists visible,
          GraphModel.getVertexVisiblePathElems VisibilityCodec.decode g "C::opC" None
          = Ok (Some visible)
          /\ NoDup visible
          /\ forall r, r ∈ visible <->
               r ∈ GraphModel.getDefaultVisiblePathElems g
               /\ conciseHasher MostConcise true (DdgModel.paths m) r = "C::opC")
    /\ (forall enc indices,
          enc <> "" -> VisibilityCodec.decode enc = Ok indices ->
          exists visible pathElems,
            GraphModel.getVertexVisiblePathElems VisibilityCodec.decode g "C::opC"
              (Some enc) = Ok (Some visible)
            /\ GraphModel.getVisiblePathElems VisibilityCodec.decode g (Some enc)
               = Ok pathElems
            /\ NoDup visible
            /\ forall r, r ∈ visible <->
                 r ∈ pathElems
                 /\ conciseHasher MostConcise true (DdgModel.paths m) r = "C::opC").
Proof.
  destruct scenarioA_model_graph as (m & g & Hm & Hp & Hl & Hg). exists m, g.
  assert (is_Some (GraphModel.vertices g !! "C::opC")) as Hk.
  { destruct (vertex_of_element pairEdgeId conciseHasher (DdgModel.paths m)
                (DdgModel.distanceToPathElems m) scenarioA_order MostConcise true g
                (0, 2)%nat Hg) as (v & Hv & _).
    - right. left.
    - rewrite Hp in Hv. by exists v. }
  split; [exact Hm|]. split; [exact Hl|]. split; [exact Hg|]. split; [exact Hk|].
  exact (getVertexVisiblePathElems_agrees pairEdgeId conciseHasher VisibilityCodec.decode
           scenarioA_payload scenarioA_focal m scenarioA_order true MostConcise g "C::opC"
           Hm Hl Hg Hk).
Defined.

Lemma getVertexVisiblePathElems_undefined_witness :
  exists g : GraphModel.t (string * string),
    GraphModel.new pairEdgeId conciseHasher scenarioA_paths ∅ scenarioA_order
      MostConcise true = Ok g
    /\ (forall visEncoding,
          GraphModel.getVertexVisiblePathElems VisibilityCodec.decode g "absent key"
            visEncoding = Ok None
          <-> GraphModel.vertices g !! "absent key" = None)
    /\ GraphModel.getVertexVisiblePathElems VisibilityCodec.decode g "absent key" (Some "")
       = GraphModel.getVertexVisiblePathElems VisibilityCodec.decode g "absent key" None.
Proof.
  destruct scenarioA_graph as (g & Hg). exists g. split; [exact Hg|].
  exact (getVertexVisiblePathElems_undefined pairEdgeId conciseHasher
           VisibilityCodec.decode scenarioA_paths ∅ scenarioA_order MostConcise true g
           "absent key" Hg).
Defined.

Lemma uiFind_matches_are_visible_matches_witness :
  exists (g : GraphModel.t (string * string)) edges vertices,
    ("opb" : string) <> ""
    /\ GraphModel.getVisible VisibilityCodec.decode g
         (Some (VisibilityCodec.encode [0; 1]%nat)) = Ok (edges, vertices)
    /\ exists matches,
         GraphModel.getVisibleUiFindMatches VisibilityCodec.decode g (Some "opb")
           (Some (VisibilityCodec.encode [0; 1]%nat)) = Ok matches
         /\ sublist matches vertices
         /\ forall v,
              v ∈ matches
              <-> v ∈ vertices
                  /\ exists token,
                       token ∈ JsString.split " "
                                 (JsString.toLowerCase (JsString.trim "opb"))
                       /\ (occursIn token (JsString.toLowerCase (Vertex.service v))
                           \/ exists operation,
                                Vertex.operation v = Some operation
                                /\ operation <> ""
                                /\ occursIn token (JsString.toLowerCase operation)).
Proof.
  destruct scenarioA_graph as (g & Hg).
  destruct (getVisible_defined pairEdgeId conciseHasher VisibilityCodec.decode
              scenarioA_paths ∅ scenarioA_order MostConcise true g
              (VisibilityCodec.encode [0; 1]%nat) _ Hg (decode_encode [0; 1]%nat))
    as ([edges vertices] & Hvis).
  exists g, edges, vertices.
  assert (("opb" : string) <> "") as Hne by discriminate.
  split; [exact Hne|]. split; [exact Hvis|].
  exact (proj1 (proj2 (proj2 (uiFind_matches_are_visible_matches VisibilityCodec.decode g
                                (Some (VisibilityCodec.encode [0; 1]%nat)))))
           "opb" edges vertices Hne Hvis).
Defined.

Lemma uiFind_blank_matches_all_witness :
  exists (g : GraphModel.t (string * string)) edges vertices,
    (" " : string) <> ""
    /\ JsString.trim " " = ""
    /\ GraphModel.getVisible VisibilityCodec.decode g
         (Some (VisibilityCodec.encode [0; 1]%nat)) = Ok (edges, vertices)
    /\ GraphModel.getVisibleUiFindMatches VisibilityCodec.decode g (Some " ")
         (Some (VisibilityCodec.encode [0; 1]%nat)) = Ok vertices.
Proof.
  destruct scenarioA_graph as (g & Hg).
  destruct (getVisible_defined pairEdgeId conciseHasher VisibilityCodec.decode
              scenarioA_paths ∅ scenarioA_order MostConcise true g
              (VisibilityCodec.encode [0; 1]%nat) _ Hg (decode_encode [0; 1]%nat))
    as ([edges vertices] & Hvis).
  exists g, edges, vertices.
  assert ((" " : string) <> "") as Hne by discriminate.
  assert (JsString.trim " " = "") as Htrim by reflexivity.
  split; [exact Hne|]. split; [exact Htrim|]. split; [exact Hvis|].
  exact (uiFind_blank_matches_all VisibilityCodec.decode g " "
           (Some (VisibilityCodec.encode [0; 1]%nat)) edges vertices Hne Htrim Hvis).
Defined.

Lemma uiFind_hidden_operations_unsearched_witness :
  exists (g : GraphModel.t (string * string)) v,
    GraphModel.new pairEdgeId conciseHasher scenarioA_paths ∅ scenarioA_order
      MostConcise false = Ok g
    /\ GraphModel.vertices g !! "C" = Some v
    /\ Vertex.isFocalNode v = false
    /\ Vertex.operation v = None
    /\ forall uiFindArr,
         GraphModel.matchesUiFind uiFindArr v
         = existsb (JsString.includes (JsString.toLowerCase (Vertex.service v))) uiFindArr.
Proof.
  destruct scenarioA_graph_hidden as (g & Hg).
  destruct (vertex_of_element pairEdgeId conciseHasher scenarioA_paths ∅
              scenarioA_order MostConcise false g (0, 2)%nat Hg ltac:(right; left))
    as (v & Hv & _).
  change (conciseHasher MostConcise false scenarioA_paths (0, 2)%nat) with "C" in Hv.
  assert (Vertex.isFocalNode v = false) as Hfocal.
  { destruct (new_inv _ _ _ _ _ _ _ _ Hg) as (_ & Ha & _ & Hde & Hs).
    destruct (new_links _ _ _ _ _ _ _ _ Hg) as [Hl _].
    destruct (link_first _ _ _ _ Hl _ _ Hv) as (i & r & Hi & Hk & _ & Hvo).
    unfold vertexOf, hasherOf in Hvo, Hk. rewrite Ha, Hde, Hs in Hvo, Hk.
    destruct i as [|[|[|i]]]; simpl in Hi; try discriminate Hi;
      injection Hi as <-; vm_compute in Hk; try discriminate Hk.
    vm_compute in Hvo. by injection Hvo as <-. }
  exists g, v. split; [exact Hg|]. split; [exact Hv|]. split; [exact Hfocal|].
  exact (uiFind_hidden_operations_unsearched pairEdgeId conciseHasher scenarioA_paths ∅
           scenarioA_order MostConcise g "C" v Hg Hv Hfocal).
Defined.

Lemma transformTracesToPaths_returns_iff_resolvable_witness :
  TransformTracesToPaths.transformTracesToPaths sample_spanID sample_processID
    sample_operationName sample_hasChildren sample_ancestorIds objectPrototypeProperty
    inheritedTraces "B" None
  = inr []
  /\ forall data, Some data ∈ inheritedTraces.*2 ->
       resolvable sample_spanID sample_processID sample_hasChildren sample_ancestorIds
         objectPrototypeProperty data.
Proof.
  assert (TransformTracesToPaths.transformTracesToPaths sample_spanID sample_processID
            sample_operationName sample_hasChildren sample_ancestorIds
            objectPrototypeProperty inheritedTraces "B" None
          = inr []) as Hrun by (vm_compute; reflexivity).
  split; [exact Hrun|].
  exact (proj1 (transformTracesToPaths_returns_iff_resolvable sample_spanID
                  sample_processID sample_operationName sample_hasChildren
                  sample_ancestorIds objectPrototypeProperty inheritedTraces "B" None)
           (ex_intro _ [] Hrun)).
Defined.

Lemma dependencies_are_focal_leaf_paths_witness :
  TransformTracesToPaths.transformTracesToPaths sample_spanID sample_processID
    sample_operationName sample_hasChildren sample_ancestorIds objectPrototypeProperty
    sampleTraces "B" None
  = inr [sampleDependency]
  /\ (sampleDependency ∈ [sampleDependency]
      <-> exists data leaf,
            Some data ∈ sampleTraces.*2
            /\ leaf ∈ TransformTracesToPaths.spans data /\ sample_hasChildren leaf = false
            /\ TransformTracesToPaths.pathOfLeaf sample_processID sample_operationName
                 sample_ancestorIds objectPrototypeProperty data
                 (TransformTracesToPaths.spanMapOf sample_spanID data) leaf
               = inr (TransformTracesToPaths.path sampleDependency)
            /\ (exists entry,
                  entry ∈ TransformTracesToPaths.path sampleDependency
                  /\ TransformTracesToPaths.service entry = Some "B"
                  /\ forall operation,
                       (None : option string) = Some operation ->
                       TransformTracesToPaths.operation entry = operation)
            /\ TransformTracesToPaths.hasFocal
                 (TransformTracesToPaths.path sampleDependency) "B" None = true
            /\ TransformTracesToPaths.attributes sampleDependency
               = [("exemplar_trace_id", TransformTracesToPaths.traceID data)]).
Proof.
  assert (TransformTracesToPaths.transformTracesToPaths sample_spanID sample_processID
            sample_operationName sample_hasChildren sample_ancestorIds
            objectPrototypeProperty sampleTraces "B" None
          = inr [sampleDependency]) as Hrun by (vm_compute; reflexivity).
  split; [exact Hrun|].
  exact (dependencies_are_focal_leaf_paths sample_spanID sample_processID
           sample_operationName sample_hasChildren sample_ancestorIds
           objectPrototypeProperty sampleTraces "B" None [sampleDependency]
           sampleDependency Hrun).
Defined.

Lemma transformTracesToPaths_feeds_transformDdgData_witness :
  TransformTracesToPaths.transformTracesToPaths sample_spanID sample_processID
    sample_operationName sample_hasChildren sample_ancestorIds objectPrototypeProperty
    sampleTraces "B" None
  = inr [sampleDependency]
  /\ typedPayload [sampleDependency] = Some [[mkEntry "opA" "A"; mkEntry "opB" "B"]]
  /\ Forall (fun d => TransformTracesToPaths.hasFocal (TransformTracesToPaths.path d)
                        "B" None = true) [sampleDependency]
  /\ (forall payload,
        typedPayload [sampleDependency] = Some payload ->
        Forall (hasFocal (mkFocal "B" None)) payload
        /\ is_Ok (transformDdgData payload (mkFocal "B" None)))
  /\ ((forall data, Some data ∈ sampleTraces.*2 ->
         resolvedByProcesses sample_spanID sample_processID sample_hasChildren
           sample_ancestorIds data) ->
      is_Some (typedPayload [sampleDependency])).
Proof.
  assert (TransformTracesToPaths.transformTracesToPaths sample_spanID sample_processID
            sample_operationName sample_hasChildren sample_ancestorIds
            objectPrototypeProperty sampleTraces "B" None
          = inr [sampleDependency]) as Hrun by (vm_compute; reflexivity).
  split; [exact Hrun|]. split; [reflexivity|].
  exact (transformTracesToPaths_feeds_transformDdgData sample_spanID sample_processID
           sample_operationName sample_hasChildren sample_ancestorIds
           objectPrototypeProperty sampleTraces "B" None [sampleDependency] Hrun).
Defined.

Lemma pathOfLeaf_entries_witness :
  TransformTracesToPaths.pathOfLeaf sample_processID sample_operationName
    sample_ancestorIds objectPrototypeProperty sampleTrace
    (TransformTracesToPaths.spanMapOf sample_spanID sampleTrace) sampleLeaf
  = inr (TransformTracesToPaths.path sampleDependency)
  /\ length (TransformTracesToPaths.path sampleDependency)
     = S (length (sample_ancestorIds sampleLeaf))
  /\ hasProperty objectPrototypeProperty sampleTrace (sample_processID sampleLeaf)
  /\ last (TransformTracesToPaths.path sampleDependency)
     = Some (TransformTracesToPaths.mkEntry
               (TransformTracesToPaths.processes sampleTrace !! sample_processID sampleLeaf)
               (sample_operationName sampleLeaf))
  /\ forall i id,
       sample_ancestorIds sampleLeaf !! i = Some id ->
       exists span,
         spanOfId sample_spanID (TransformTracesToPaths.spans sampleTrace) id = Some span
         /\ hasProperty objectPrototypeProperty sampleTrace (sample_processID span)
         /\ TransformTracesToPaths.path sampleDependency !! i
            = Some (TransformTracesToPaths.mkEntry
                      (TransformTracesToPaths.processes sampleTrace
                         !! sample_processID span)
                      (sample_operationName span)).
Proof.
  assert (TransformTracesToPaths.pathOfLeaf sample_processID sample_operationName
            sample_ancestorIds objectPrototypeProperty sampleTrace
            (TransformTracesToPaths.spanMapOf sample_spanID sampleTrace) sampleLeaf
          = inr (TransformTracesToPaths.path sampleDependency)) as Hpath
    by (vm_compute; reflexivity).
  split; [exact Hpath|].
  exact (pathOfLeaf_entries sample_spanID sample_processID sample_operationName
           sample_ancestorIds objectPrototypeProperty sampleTrace sampleLeaf
           (TransformTracesToPaths.path sampleDependency) Hpath).
Defined.
